(** * Elimination core of GTSAM: elimination tree, VectorValues, VerticalBlockMatrix

    A shallow embedding of
      - gtsam/inference/EliminationTreeUnordered-inst.h
        (EliminationTreeUnordered: Node::eliminate, the three-argument
        constructor, eliminate and equals),
      - VectorValues.cpp (VectorValuesUnordered),
      - VerticalBlockMatrix.cpp (VerticalBlockMatrix::LikeActiveViewOf),
    together with the properties the natural-language specification states
    about them (Part II) and further properties of the code (Part III).

    Conventions shared by the whole development.
      - [size_t], [Index], [Key] and [DenseIndex] values are natural numbers:
        the code only compares them and adds one.  A loop counter stays below
        the length of a vector, so its [++j] never wraps; [insert] computes
        [j+1] for an index of the caller's choice, and there the wrap at the
        largest [size_t] is modelled ([Index_succ]).  Allocation failure is
        outside the model.
      - The sentinel [none = std::numeric_limits<size_t>::max()] of the
        constructor is [None] of an [option nat]; a column index is always
        below the length of a vector and therefore never equal to it.
      - A C++ exception is a value of [exception]; a function that can throw
        returns a [result].  A method that reads or writes an object through
        [this] (or writes through a shared pointer) is a [method]: a state
        transformer that keeps the state reached when the exception left.
      - [std::vector::operator[]] outside the vector and a null-pointer
        dereference are undefined behaviour in C++; the model stops there
        with [undefined_behaviour].
      - [assert] is compiled in or out; the functions that assert take the
        flag NDEBUG and the statements hold for both values. *)

From Stdlib Require Import ZArith String.
From stdpp Require Import base list sorting gmap strings.

Open Scope string_scope.
Open Scope list_scope.
Open Scope stdpp_scope.

(* ================================================================== *)
(** * Part I: the program *)
(* ================================================================== *)

(** ** Exceptions, results and methods *)

Inductive exception : Type :=
| invalid_argument (what : string)  (* std::invalid_argument(what) *)
| other_exception (what : string)   (* anything else a callee may throw *)
| assertion_failure                 (* assert(c) with c false, assertions compiled in *)
| undefined_behaviour               (* out-of-range operator[], null dereference *)
| fuel_exhausted.                   (* a while loop of the model ran out of steps *)

Inductive result (A : Type) : Type :=
| Ok (a : A)
| Err (e : exception).
Arguments Ok {A} a.
Arguments Err {A} e.

Definition method (St A : Type) : Type := St -> result A * St.

Definition ret {St A} (a : A) : method St A := fun s => (Ok a, s).
Definition throw {St A} (e : exception) : method St A := fun s => (Err e, s).
Definition bind {St A B} (m : method St A) (k : A -> method St B) : method St B :=
  fun s => match m s with
           | (Ok a, s') => k a s'
           | (Err e, s') => (Err e, s')
           end.
Definition get {St} : method St St := fun s => (Ok s, s).
Definition modify {St} (f : St -> St) : method St unit := fun s => (Ok tt, f s).
Definition lift {St A} (r : result A) : method St A := fun s => (r, s).

Notation "'let*' x ':=' m 'in' k" := (bind m (fun x => k))
  (at level 10, x name, m at level 100, k at level 200).
Notation "m1 '>>' m2" := (bind m1 (fun _ => m2))
  (at level 100, m2 at level 200, right associativity).

(** [for (x : xs) body] with the local variables of the loop in [acc];
    [for (size_t j = 0; j < n; ++j)] is [foldM body acc (seq 0 n)]. *)
Fixpoint foldM {St A B} (body : B -> A -> method St B) (acc : B) (xs : list A)
  : method St B :=
  match xs with
  | [] => ret acc
  | x :: xs' => let* acc' := body acc x in foldM body acc' xs'
  end.

(** [v[i]] for a [std::vector] (read). *)
Definition vec_at {A} (v : list A) (i : nat) : result A :=
  match v !! i with
  | Some x => Ok x
  | None => Err undefined_behaviour
  end.

(** [v[i] = x] for a [std::vector] (write). *)
Definition vec_set {A} (v : list A) (i : nat) (x : A) : result (list A) :=
  if decide (i < length v) then Ok (<[i := x]> v) else Err undefined_behaviour.

(** [assert(c)]: nothing under NDEBUG (the condition is not evaluated),
    otherwise the condition is evaluated and must hold. *)
Definition assert_ {St} (NDEBUG : bool) (c : method St bool) : method St unit :=
  if NDEBUG then ret tt
  else let* b := c in if b then ret tt else throw assertion_failure.

(* ------------------------------------------------------------------ *)
(** ** VectorValuesUnordered (VectorValues.cpp) *)

Module VectorValues.
Section Defs.

(** The scalar type stands for [double]; the development is parametric in
    it and in its operations, so every statement holds for exact arithmetic
    (instantiate with [Z] or the reals) as a special case. *)
Context {Scalar : Type}.
Variable zero : Scalar.
Variables add mul : Scalar -> Scalar -> Scalar.
(** What a freshly resized Eigen vector holds (Eigen does not initialise). *)
Variable indeterminate : Scalar.

(** A [Vector] is [list Scalar]; the member [values_] of a
    [VectorValuesUnordered], a [std::vector<Vector>], is
    [list (list Scalar)] and is the whole state of the object. *)
Local Abbreviation Vector := (list Scalar).
Local Abbreviation Values := (list (list Scalar)).

(** *** Eigen operations used by the file (third-party, by their definition) *)

(** [v.resize(n)]: keeps [v] when the size is unchanged, otherwise
    reallocates without initialising. *)
Definition Vector_resize (n : nat) (v : Vector) : Vector :=
  if decide (length v = n) then v else replicate n indeterminate.
(** [x + y] for vectors of one size *)
Definition Vector_add (x y : Vector) : Vector := zip_with add x y.
(** [x.dot(y)]: the sum of the products of the coefficients *)
Definition Vector_dot (x y : Vector) : Scalar :=
  fold_left add (zip_with mul x y) zero.
(** [x.squaredNorm()]: the sum of the squares of the coefficients *)
Definition Vector_squaredNorm (x : Vector) : Scalar :=
  fold_left add (map (fun a => mul a a) x) zero.

(** [x.size() == y.size()], the test the arithmetic operators make on
    each pair of slots *)
Definition same_dim (x y : Vector) : Prop := length x = length y.
#[global] Instance same_dim_dec x y : Decision (same_dim x y).
Proof. unfold same_dim. apply _. Defined.

(** *** Accessors declared in VectorValuesUnordered.h *)

(** [size()] is [values_.size()]. *)
Definition size : method Values nat := fun this => (Ok (length this), this).

(** Modelled from the spec: [exists(j)], declared in VectorValuesUnordered.h
    which is not among the sources; the spec (4.1) fixes its meaning as
    "index < current size". *)
Definition exists_ (j : nat) : method Values bool :=
  let* n := size in ret (bool_decide (j < n)).

(** [this->values_[j]] (read) *)
Definition values_at (j : nat) : method Values Vector :=
  fun this => (vec_at this j, this).

(** [this->values_[j] = v] *)
Definition values_set (j : nat) (v : Vector) : method Values unit :=
  fun this => match vec_set this j v with
              | Ok this' => (Ok tt, this')
              | Err e => (Err e, this)
              end.

(** *** Methods of VectorValues.cpp *)

(** [std::numeric_limits<size_t>::max()], the largest [Index] of the
    target; it is a binary number, [2^64 - 1] on the usual targets. *)
Variable SIZE_MAX : N.

(** [j+1] for a [size_t] [j]: unsigned arithmetic is modulo [SIZE_MAX + 1],
    so the successor of [SIZE_MAX] is 0. *)
Definition Index_succ (j : nat) : nat :=
  N.to_nat ((N.of_nat j + 1) mod (SIZE_MAX + 1)).

(** [VectorValuesUnordered::insert(j, value)] *)
Definition insert (j : nat) (value : Vector) : method Values unit :=
  let* e := exists_ j in
  if (e : bool) then
    throw (invalid_argument
             "VectorValues: requested variable index to insert already exists.")
  else
    let* n := size in
    (if decide (n <= j) then modify (resize (Index_succ j) []) else ret tt) >>
    values_set j value.

(** [VectorValuesUnordered::resizeLike(other)] *)
Definition resizeLike (other : Values) : method Values unit :=
  modify (resize (length other) []) >>
  foldM (fun (_ : unit) j =>
           let* oj := lift (vec_at other j) in
           let* tj := values_at j in
           values_set j (Vector_resize (length oj) tj))
        tt (seq 0 (length other)).

(** [VectorValuesUnordered::SameStructure(other)] (static): [resizeLike] on
    a default-constructed object, which has no slots. *)
Definition SameStructure (other : Values) : result Values :=
  match resizeLike other [] with
  | (Ok _, ret_) => Ok ret_
  | (Err e, _) => Err e
  end.

(** [VectorValuesUnordered::hasSameStructure(other)] *)
Definition hasSameStructure (other : Values) : method Values bool :=
  let* n := size in
  if negb (bool_decide (n = length other)) then ret false
  else
    foldM (fun (same : bool) j =>
             if same then
               let* tj := values_at j in
               let* oj := lift (vec_at other j) in
               ret (bool_decide (length tj = length oj))
             else ret false)
          true (seq 0 n).

(** [VectorValuesUnordered::dot(v)] *)
Definition dot (v : Values) : method Values Scalar :=
  let result0 := zero in
  let* n := size in
  if negb (bool_decide (n = length v)) then
    throw (invalid_argument "VectorValues::dot called with different vector sizes")
  else
    foldM (fun (result_ : Scalar) j =>
             let* tj := values_at j in
             let* vj := lift (vec_at v j) in
             if bool_decide (length tj = length vj) then
               ret (add result_ (Vector_dot tj vj))
             else
               throw (invalid_argument
                        "VectorValues::dot called with different vector sizes"))
          result0 (seq 0 n).

(** [VectorValuesUnordered::squaredNorm()] *)
Definition squaredNorm : method Values Scalar :=
  let* n := size in
  foldM (fun (sumSquares : Scalar) j =>
           let* tj := values_at j in
           ret (add sumSquares (Vector_squaredNorm tj)))
        zero (seq 0 n).

(** [VectorValuesUnordered::operator+(c)] *)
Definition operator_plus (c : Values) : method Values Values :=
  let* this := get in
  let* result0 := lift (SameStructure this) in
  let* n := size in
  if negb (bool_decide (n = length c)) then
    throw (invalid_argument
             "VectorValues::operator+ called with different vector sizes")
  else
    foldM (fun (result_ : Values) j =>
             let* tj := values_at j in
             let* cj := lift (vec_at c j) in
             if bool_decide (length tj = length cj) then
               lift (vec_set result_ j (Vector_add tj cj))
             else
               throw (invalid_argument
                        "VectorValues::operator- called with different vector sizes"))
          result0 (seq 0 n).

(** [VectorValuesUnordered::operator+=(c)] *)
Definition operator_plus_assign (c : Values) : method Values unit :=
  let* n := size in
  if negb (bool_decide (n = length c)) then
    throw (invalid_argument
             "VectorValues::operator+= called with different vector sizes")
  else
    foldM (fun (_ : unit) j =>
             let* tj := values_at j in
             let* cj := lift (vec_at c j) in
             if bool_decide (length tj = length cj) then
               values_set j (Vector_add tj cj)
             else
               throw (invalid_argument
                        "VectorValues::operator+= called with different vector sizes"))
          tt (seq 0 n).

(** *** The other methods of VectorValues.cpp *)

(** The remaining arithmetic of [double] and the helper of
    gtsam/base/Vector.h that compares two vectors up to a tolerance; both are
    parameters. *)
Variable sub : Scalar -> Scalar -> Scalar.
Variable equal_with_abs_tol : Vector -> Vector -> Scalar -> bool.

(** [Vector::Zero(n)] *)
Definition Vector_Zero (n : nat) : Vector := replicate n zero.
(** [Vector(n)]: a vector of [n] uninitialised coefficients *)
Definition Vector_uninitialized (n : nat) : Vector := replicate n indeterminate.
(** [v.setZero()] *)
Definition Vector_setZero (v : Vector) : Vector := replicate (length v) zero.
(** [x - y] for vectors of one size *)
Definition Vector_sub (x y : Vector) : Vector := zip_with sub x y.

(** [VectorValuesUnordered::Zero(x)] (static); the state of the method is
    the member [values_] of the local object [result]. *)
Definition Zero (x : Values) : result Values :=
  match (modify (resize (length x) []) >>
         foldM (fun (_ : unit) j =>
                  let* xj := lift (vec_at x j) in
                  values_set j (Vector_Zero (length xj)))
               tt (seq 0 (length x))) [] with
  | (Ok _, result_) => Ok result_
  | (Err e, _) => Err e
  end.

(** [VectorValuesUnordered::equals(x, tol)] *)
Definition equals (x : Values) (tol : Scalar) : method Values bool :=
  let* n := size in
  if negb (bool_decide (n = length x)) then ret false
  else
    foldM (fun (same : bool) j =>
             if same then
               let* tj := values_at j in
               let* xj := lift (vec_at x j) in
               ret (equal_with_abs_tol tj xj tol)
             else ret false)
          true (seq 0 n).

(** [VectorValuesUnordered::resize(nVars, varDim)] *)
Definition resize_ (nVars varDim : nat) : method Values unit :=
  modify (resize nVars []) >>
  foldM (fun (_ : unit) j => values_set j (Vector_uninitialized varDim))
        tt (seq 0 nVars).

(** [VectorValuesUnordered::setZero()]: [BOOST_FOREACH(Vector& v, *this)
    v.setZero();] visits every slot once, by reference. *)
Definition setZero : method Values unit := modify (map Vector_setZero).

(** [VectorValuesUnordered::operator-(c)] *)
Definition operator_minus (c : Values) : method Values Values :=
  let* this := get in
  let* result0 := lift (SameStructure this) in
  let* n := size in
  if negb (bool_decide (n = length c)) then
    throw (invalid_argument
             "VectorValues::operator- called with different vector sizes")
  else
    foldM (fun (result_ : Values) j =>
             let* tj := values_at j in
             let* cj := lift (vec_at c j) in
             if bool_decide (length tj = length cj) then
               lift (vec_set result_ j (Vector_sub tj cj))
             else
               throw (invalid_argument
                        "VectorValues::operator- called with different vector sizes"))
          result0 (seq 0 n).

End Defs.
End VectorValues.

(* ------------------------------------------------------------------ *)
(** ** VerticalBlockMatrix (VerticalBlockMatrix.cpp) *)

Module VerticalBlockMatrix.

(** [Matrix::resize] leaves the coefficients uninitialised and
    [LikeActiveViewOf] copies none, so a matrix is its shape. *)
Record Matrix : Type := { rows_ : nat; cols_ : nat }.

(** The members the function reads and writes. *)
Record t : Type := {
  matrix_ : Matrix;
  variableColOffsets_ : list nat;
  rowStart_ : nat;
  rowEnd_ : nat;
  blockStart_ : nat
}.

(** Modelled from the spec: the default constructor, declared in
    VerticalBlockMatrix.h which is not among the sources: the empty view, a
    matrix without rows and columns and no block, so one offset (offsets
    have nBlocks+1 entries), the offset 0. *)
Definition default_constructed : t :=
  {| matrix_ := {| rows_ := 0; cols_ := 0 |};
     variableColOffsets_ := [0];
     rowStart_ := 0; rowEnd_ := 0; blockStart_ := 0 |}.

(** Modelled from the spec: [rows()], declared in VerticalBlockMatrix.h:
    the number of rows of the active view [rowStart, rowEnd). *)
Definition rows (m : t) : nat := rowEnd_ m - rowStart_ m.

(** Modelled from the spec: [nBlocks()], declared in VerticalBlockMatrix.h:
    the number of blocks of the active view, which runs from block
    [blockStart_] to the last block ([variableColOffsets_] has one entry
    more than there are blocks, and the class has no member for the end of
    the block range).  The subtraction is exact for a view whose
    [blockStart_] is below the number of offsets. *)
Definition nBlocks (m : t) : nat := length (variableColOffsets_ m) - 1 - blockStart_ m.

(** Modelled from the spec: [cols()], declared in VerticalBlockMatrix.h:
    the number of columns of the active view, from the offset of block
    [blockStart_] to the last offset. *)
Definition cols (m : t) : nat :=
  default 0 (last (variableColOffsets_ m))
  - default 0 (variableColOffsets_ m !! blockStart_ m).

(** The active view of the spec's data model is well formed. *)
Definition valid (m : t) : Prop :=
  blockStart_ m < length (variableColOffsets_ m) /\ rowStart_ m <= rowEnd_ m.

#[global] Instance valid_dec m : Decision (valid m).
Proof. unfold valid. apply _. Defined.

Section LikeActiveViewOf.

(** [assertInvariants()] is declared in VerticalBlockMatrix.h; it either
    returns or aborts, and is a parameter here. *)
Variable assertInvariants : t -> result unit.

Definition set_variableColOffsets (offs : list nat) : method t unit :=
  modify (fun r => {| matrix_ := matrix_ r; variableColOffsets_ := offs;
                      rowStart_ := rowStart_ r; rowEnd_ := rowEnd_ r;
                      blockStart_ := blockStart_ r |}).
Definition set_matrix (m : Matrix) : method t unit :=
  modify (fun r => {| matrix_ := m; variableColOffsets_ := variableColOffsets_ r;
                      rowStart_ := rowStart_ r; rowEnd_ := rowEnd_ r;
                      blockStart_ := blockStart_ r |}).
Definition set_rowEnd (e : nat) : method t unit :=
  modify (fun r => {| matrix_ := matrix_ r;
                      variableColOffsets_ := variableColOffsets_ r;
                      rowStart_ := rowStart_ r; rowEnd_ := e;
                      blockStart_ := blockStart_ r |}).

(** [v.back()] *)
Definition vec_back {A} (v : list A) : result A :=
  match last v with
  | Some x => Ok x
  | None => Err undefined_behaviour
  end.

(** [VerticalBlockMatrix::LikeActiveViewOf(rhs)]; the state of the method
    is the local object [result]. *)
Definition LikeActiveViewOf_body (rhs : t) : method t unit :=
  (* result.variableColOffsets_.resize(rhs.nBlocks() + 1); *)
  (let* r := get in
   set_variableColOffsets (resize (nBlocks rhs + 1) 0 (variableColOffsets_ r))) >>
  (* for(Index i = 0; i < rhs.nBlocks(); ++i)
       result.variableColOffsets_[i] = rhs.variableColOffsets_[i + rhs.blockStart_]; *)
  foldM (fun (_ : unit) i =>
           let* x := lift (vec_at (variableColOffsets_ rhs) (i + blockStart_ rhs)) in
           let* r := get in
           let* offs := lift (vec_set (variableColOffsets_ r) i x) in
           set_variableColOffsets offs)
        tt (seq 0 (nBlocks rhs)) >>
  (* result.matrix_.resize(rhs.rows(), result.variableColOffsets_.back()); *)
  (let* r := get in
   let* back := lift (vec_back (variableColOffsets_ r)) in
   set_matrix {| rows_ := rows rhs; cols_ := back |}) >>
  (* result.rowEnd_ = rhs.rows(); *)
  set_rowEnd (rows rhs) >>
  (* result.assertInvariants(); *)
  (let* r := get in lift (assertInvariants r)).

Definition LikeActiveViewOf (rhs : t) : result t :=
  match LikeActiveViewOf_body rhs default_constructed with
  | (Ok _, result_) => Ok result_
  | (Err e, _) => Err e
  end.

End LikeActiveViewOf.

(** A view of two rows and two blocks, of 2 and 3 columns, whose active
    part is the second block. *)
Definition second_block_view : t :=
  {| matrix_ := {| rows_ := 2; cols_ := 5 |};
     variableColOffsets_ := [0; 2; 5];
     rowStart_ := 0; rowEnd_ := 2; blockStart_ := 1 |}.

End VerticalBlockMatrix.

(* ------------------------------------------------------------------ *)
(** ** EliminationTreeUnordered (EliminationTreeUnordered-inst.h) *)

Module EliminationTree.
Section Defs.

(** [sharedFactor] and [boost::shared_ptr<ConditionalType>] values; the tree
    never looks inside them.  Two positions of a graph may hold the same
    pointer, and a pointer may be null: both are just values of [Factor]. *)
Context {Factor Conditional : Type}.

(** With NDEBUG the [assert]s of the file are compiled out. *)
Variable NDEBUG : bool.

(** A [Node]: its key, its factors, its children.  A [sharedNode] is
    [option Node], [None] being the null pointer.  The constructor only ever
    writes to the node of the current column and attaches nodes of earlier
    columns, which are not written again, so a shared pointer to a node is
    modelled by the node it points to at the time it is copied. *)
#[warnings="-register-all"]
Inductive Node : Type :=
  mkNode { key : nat; factors : list Factor; children : list (option Node) }.

(** The members [roots_] and [remainingFactors_]. *)
Record EliminationTree : Type := mkTree {
  roots_ : list (option Node);
  remainingFactors_ : list Factor
}.

(** The type [Eliminate] of the injected dense elimination function: from
    factors and keys to a conditional and a factor on the separator; it may
    throw. *)
Definition Eliminate : Type :=
  list Factor -> list nat -> result (Conditional * Factor).

(** *** Node::eliminate *)

(** [Node::eliminate(output, function, childrenResults)]; the state of the
    method is the Bayes net [*output]. *)
Definition Node_eliminate (this : Node) (function : Eliminate)
    (childrenResults : list Factor) : method (list Conditional) Factor :=
  assert_ NDEBUG
    (ret (bool_decide (length childrenResults = length (children this)))) >>
  (* Gather factors *)
  let gatheredFactors := [] in
  let gatheredFactors := gatheredFactors ++ factors this in
  let gatheredFactors := gatheredFactors ++ childrenResults in
  (* Do dense elimination step *)
  let keyAsVector := <[0 := key this]> (replicate 1 0) in
  let* eliminationResult := lift (function gatheredFactors keyAsVector) in
  (* Add conditional to BayesNet *)
  modify (fun output => output ++ [fst eliminationResult]) >>
  (* Return result *)
  ret (snd eliminationResult).

(** *** The three-argument constructor *)

(** The local vectors of the constructor. *)
Record Locals : Type := mkLocals {
  nodes : list (option Node);
  parents : list (option nat);
  prevCol : list (option nat);
  factorUsed : list bool
}.

Definition set_nodes (v : list (option Node)) (st : Locals) : Locals :=
  mkLocals v (parents st) (prevCol st) (factorUsed st).
Definition set_parents (v : list (option nat)) (st : Locals) : Locals :=
  mkLocals (nodes st) v (prevCol st) (factorUsed st).
Definition set_prevCol (v : list (option nat)) (st : Locals) : Locals :=
  mkLocals (nodes st) (parents st) v (factorUsed st).
Definition set_factorUsed (v : list bool) (st : Locals) : Locals :=
  mkLocals (nodes st) (parents st) (prevCol st) v.

(** [v[i]] for one of the local vectors *)
Definition read {A} (field : Locals -> list A) (i : nat) : method Locals A :=
  fun st => (vec_at (field st) i, st).

(** [v[i] = x] for one of the local vectors *)
Definition write {A} (field : Locals -> list A)
    (set_field : list A -> Locals -> Locals) (i : nat) (x : A)
  : method Locals unit :=
  fun st => match vec_set (field st) i x with
            | Ok v => (Ok tt, set_field v st)
            | Err e => (Err e, st)
            end.

(** [nodes[j]->...]: a write through the pointer [nodes[j]] *)
Definition update_node (j : nat) (f : Node -> Node) : method Locals unit :=
  let* p := read nodes j in
  match p with
  | Some nd => write nodes set_nodes j (Some (f nd))
  | None => throw undefined_behaviour
  end.

Definition set_key (k : nat) (nd : Node) : Node :=
  mkNode k (factors nd) (children nd).
Definition push_back_factor (f : Factor) (nd : Node) : Node :=
  mkNode (key nd) (factors nd ++ [f]) (children nd).
Definition push_back_child (c : option Node) (nd : Node) : Node :=
  mkNode (key nd) (factors nd) (children nd ++ [c]).

(** [while (parents[r] != none) r = parents[r];] with a bound on the number
    of tests of the loop condition. *)
Fixpoint find_root (fuel : nat) (r : nat) : method Locals nat :=
  match fuel with
  | 0 => throw fuel_exhausted
  | S fuel' =>
      let* p := read parents r in
      match p with
      | Some p' => find_root fuel' p'
      | None => ret r
      end
  end.

(** Modelled from the spec: [VariableIndexUnordered::operator[]], declared in
    VariableIndexUnordered.h which is not among the sources: the factor
    indices of a variable, and a failure for a variable that appears in no
    factor (6, VariableIndex contract).  The failure is a
    [std::invalid_argument], the exception the constructor catches; its
    message is a parameter. *)
Variable lookup_what : string.
Definition VariableIndex_at (structure : gmap nat (list nat)) (v : nat)
  : result (list nat) :=
  match structure !! v with
  | Some fs => Ok fs
  | None => Err (invalid_argument lookup_what)
  end.

Section Constructor.
Variable graph : list Factor.
Variable structure : gmap nat (list nat).
Variable order : list nat.

(** The body of [BOOST_FOREACH(const size_t i, factors)] in column [j]. *)
Definition visit_factor (j i : nat) : method Locals unit :=
  let* pc := read prevCol i in
  match pc with
  | Some k =>
      (* Find root r of the current tree that contains k. *)
      let* st := get in
      let* r := find_root (length (parents st)) k in
      if decide (r <> j) then
        write parents set_parents r (Some j) >>
        let* child := read nodes r in
        update_node j (push_back_child child)
      else ret tt
  | None =>
      (let* f := lift (vec_at graph i) in
       update_node j (push_back_factor f)) >>
      write factorUsed set_factorUsed i true
  end >>
  write prevCol set_prevCol i (Some j).

(** The body of [for (size_t j = 0; j < n; j++)]. *)
Definition column (j : nat) : method Locals unit :=
  let* v := lift (vec_at order j) in
  let* factors_ := lift (VariableIndex_at structure v) in
  (* nodes[j] = boost::make_shared<Node>(); nodes[j]->key = order[j]; *)
  write nodes set_nodes j (Some (mkNode 0 [] [])) >>
  update_node j (set_key v) >>
  foldM (fun (_ : unit) i => visit_factor j i) tt factors_.

(** [try { ... } catch(std::invalid_argument&) { throw
    std::invalid_argument(...); } catch(...) { throw; }] *)
Definition rethrow_invalid_argument {St A} (what : string) (m : method St A)
  : method St A :=
  fun s => match m s with
           | (Err (invalid_argument _), s') => (Err (invalid_argument what), s')
           | r => r
           end.

Definition sweep : method Locals unit :=
  rethrow_invalid_argument
    "EliminationTree: given ordering contains variables that are not involved in the factor graph"
    (foldM (fun (_ : unit) j => column j) tt (seq 0 (length order))).

(** [parents.back() == none] *)
Definition last_is_root : method Locals bool :=
  fun st => match last (parents st) with
            | Some p => (Ok (bool_decide (p = None)), st)
            | None => (Err undefined_behaviour, st)
            end.

(** [for j: if(parents[j] == none) roots_.push_back(nodes[j]);] *)
Definition find_roots : method Locals (list (option Node)) :=
  foldM (fun (roots : list (option Node)) j =>
           let* p := read parents j in
           match p with
           | None => let* nd := read nodes j in ret (roots ++ [nd])
           | Some _ => ret roots
           end)
        [] (seq 0 (length order)).

(** [for i: if(!factorUsed[i]) remainingFactors_.push_back(graph[i]);] *)
Definition gather_remaining : method Locals (list Factor) :=
  foldM (fun (remaining : list Factor) i =>
           let* u := read factorUsed i in
           if (u : bool) then ret remaining
           else let* f := lift (vec_at graph i) in ret (remaining ++ [f]))
        [] (seq 0 (length graph)).

(** The vectors as allocated: [nodes(n)], [parents(n, none)],
    [prevCol(m, none)], [factorUsed(m, false)]. *)
Definition allocate : Locals :=
  let m := length graph in
  let n := length order in
  mkLocals (replicate n None) (replicate n None) (replicate m None)
           (replicate m false).

Definition constructor_body : method Locals EliminationTree :=
  sweep >>
  assert_ NDEBUG last_is_root >>
  let* roots := find_roots in
  let* remaining := gather_remaining in
  ret (mkTree roots remaining).

(** [EliminationTreeUnordered(graph, structure, order)] *)
Definition construct : result EliminationTree := fst (constructor_body allocate).

End Constructor.

(** *** eliminate *)

(** The children of a node visited in child-list order, their results
    collected in that order; a null child cannot be visited. *)
Definition for_children {St} (visit : Node -> method St Factor)
  : list (option Node) -> method St (list Factor) :=
  fix go (cs : list (option Node)) : method St (list Factor) :=
    match cs with
    | [] => ret []
    | c :: cs' =>
        match c with
        | Some child =>
            let* f := visit child in
            let* fs := go cs' in
            ret (f :: fs)
        | None => throw undefined_behaviour
        end
    end.

(** Modelled from the spec: the traversal below one node of
    [inference::EliminateTree] (inference-inst.h, not among the sources),
    after 4.4: depth first and children before parent; each child's
    separator factor is handed to the elimination of its parent, in
    child-list order. *)
Fixpoint eliminate_subtree (function : Eliminate) (nd : Node)
  : method (list Conditional) Factor :=
  let* childrenResults :=
    for_children (eliminate_subtree function) (children nd) in
  Node_eliminate nd function childrenResults.

(** Modelled from the spec: [inference::EliminateTree(result, tree,
    function)] (inference-inst.h, not among the sources), after 4.4: the
    trees are processed root by root in root-list order and the separator
    factor that the elimination of a root returns is discarded, so the
    traversal has no remaining factor to return. *)
Definition EliminateTree (tree : EliminationTree) (function : Eliminate)
  : method (list Conditional) (list Factor) :=
  foldM (fun (_ : unit) (root : option Node) =>
           match root with
           | Some nd => let* _ := eliminate_subtree function nd in ret tt
           | None => throw undefined_behaviour
           end)
        tt (roots_ tree) >>
  ret [].

(** [EliminationTreeUnordered::eliminate(function)], with the traversal it
    calls as an argument. *)
Definition eliminate_via
    (traversal : EliminationTree -> Eliminate ->
                 method (list Conditional) (list Factor))
    (this : EliminationTree) (function : Eliminate)
  : result (list Conditional * list Factor) :=
  (* Allocate result *)
  let result0 : list Conditional := [] in
  (* Run tree elimination algorithm *)
  match traversal this function result0 with
  | (Ok remainingFactors, result_) =>
      (* Add remaining factors that were not involved with eliminated variables *)
      let allRemainingFactors := [] in
      let allRemainingFactors := allRemainingFactors ++ remainingFactors_ this in
      let allRemainingFactors := allRemainingFactors ++ remainingFactors in
      Ok (result_, allRemainingFactors)
  | (Err e, _) => Err e
  end.

Definition eliminate (this : EliminationTree) (function : Eliminate)
  : result (list Conditional * list Factor) :=
  eliminate_via EliminateTree this function.

(** *** Observations on a forest *)

(** The factors held by the nodes of a subtree. *)
Fixpoint subtree_factors (nd : Node) : list Factor :=
  factors nd ++
  flat_map (fun c => match c with
                     | Some child => subtree_factors child
                     | None => []
                     end) (children nd).

(** No pointer below the node is null. *)
Fixpoint Node_complete (nd : Node) : bool :=
  forallb (fun c => match c with
                    | Some child => Node_complete child
                    | None => false
                    end) (children nd).

(** The factors held by what a [sharedNode] points to. *)
Definition shared_factors (p : option Node) : list Factor :=
  match p with
  | Some nd => subtree_factors nd
  | None => []
  end.

(** The factors held by all nodes of a forest. *)
Definition forest_factors (roots : list (option Node)) : list Factor :=
  flat_map shared_factors roots.

End Defs.
End EliminationTree.

(* ------------------------------------------------------------------ *)
(** ** Specification vocabulary *)

(** [ensures E m s Q]: run from [s], the method [m] either returns a value
    and a state that satisfy [Q], or throws an exception that satisfies
    [E]. *)
Definition ensures {St A} (E : exception -> Prop) (m : method St A) (s : St)
    (Q : A -> St -> Prop) : Prop :=
  match m s with
  | (Ok a, s') => Q a s'
  | (Err e, _) => E e
  end.

Module EliminationTreeInv.
Import EliminationTree.
Section Inv.
Context {Factor : Type}.
Variable graph : list Factor.
Variable structure : gmap nat (list nat).
Variable order : list nat.

(** The factors held by the trees whose root has no parent yet. *)
Definition roots_factors (st : Locals (Factor:=Factor)) : list Factor :=
  concat (zip_with (fun (p : option nat) nd =>
                      match p with
                      | None => shared_factors nd
                      | Some _ => []
                      end) (parents st) (nodes st)).

(** The factors already handed to a node. *)
Definition used_factors (st : Locals (Factor:=Factor)) : list Factor :=
  concat (zip_with (fun (u : bool) f => if u then [f] else [])
                   (factorUsed st) graph).

(** The invariant of the construction sweep when the columns below [b] have
    been started. *)
Record Inv (b : nat) (st : Locals (Factor:=Factor)) : Prop := {
  inv_bound : b <= length order;
  inv_nodes_len : length (nodes st) = length order;
  inv_parents_len : length (parents st) = length order;
  inv_prevCol_len : length (prevCol st) = length graph;
  inv_factorUsed_len : length (factorUsed st) = length graph;
  (* a parent is a later column *)
  inv_parents : forall x p, parents st !! x = Some (Some p) -> x < p /\ p < b;
  inv_prevCol : forall i k, prevCol st !! i = Some (Some k) -> k < b;
  (* the nodes of the started columns exist and carry the column's variable *)
  inv_nodes : forall x, x < b ->
    exists nd, nodes st !! x = Some (Some nd) /\ order !! x = Some (key nd);
  inv_null : forall x, b <= x -> x < length order -> nodes st !! x = Some None;
  inv_complete : forall x nd, nodes st !! x = Some (Some nd) -> Node_complete nd = true;
  (* the variables of the started columns are known to the variable index *)
  inv_known : forall x v, x < b -> order !! x = Some v -> is_Some (structure !! v);
  (* a factor no column has touched is not used *)
  inv_unused : forall i, prevCol st !! i = Some None -> factorUsed st !! i = Some false;
  (* the used factors are the factors of the current trees *)
  inv_factors : roots_factors st ≡ₚ used_factors st
}.

(** How one visit of a factor index can fail: the index is not a position
    of the graph. *)
Definition visit_error (i : nat) (e : exception) : Prop :=
  e = undefined_behaviour /\ length graph <= i.

(** How a column can fail: its variable is unknown to the variable index,
    or the variable index lists a factor index that is not a position of the
    graph. *)
Definition column_error (lookup_what : string) (j : nat) (e : exception) : Prop :=
  exists v, order !! j = Some v /\
    ((structure !! v = None /\ e = invalid_argument lookup_what) \/
     (exists fs i, structure !! v = Some fs /\ i ∈ fs /\ visit_error i e)).

(** The roots and the remaining factors as the final loops collect them. *)
Definition roots_upto (j : nat) (st : Locals (Factor:=Factor)) : list (option Node) :=
  concat (zip_with (fun (p : option nat) (nd : option Node) =>
                      match p with
                      | None => [nd]
                      | Some _ => []
                      end) (take j (parents st)) (take j (nodes st))).

Definition remaining_upto (i : nat) (st : Locals (Factor:=Factor)) : list Factor :=
  concat (zip_with (fun (u : bool) f => if u then [] else [f])
                   (take i (factorUsed st)) (take i graph)).

(** The variable index lists positions of the graph only. *)
Definition VariableIndex_wf : Prop :=
  map_Forall (fun _ (fs : list nat) => Forall (fun i => i < length graph) fs)
             structure.

#[global] Instance VariableIndex_wf_dec : Decision VariableIndex_wf.
Proof. unfold VariableIndex_wf. apply _. Defined.

End Inv.

End EliminationTreeInv.

(* ------------------------------------------------------------------ *)
(** ** A scenario *)

Module Scenario.
Import EliminationTree.

(** The chain of the specification, and one more factor: variables 1, 2, 3,
    a factor on 1 and 2, a factor on 2 and 3, and a factor on a variable 4.
    Factors are named by strings. *)
Definition chain_graph : list string := ["f12"; "f23"; "f4"].

(** The variable index of [chain_graph]. *)
Definition chain_structure : gmap nat (list nat) :=
  <[1 := [0]]> (<[2 := [0; 1]]> (<[3 := [1]]> (<[4 := [2]]> ∅))).

(** The tree of [chain_graph] for the ordering 1, 3, 2. *)
Definition chain_tree : EliminationTree (Factor:=string) :=
  mkTree
    [Some (mkNode 2 []
             [Some (mkNode 1 ["f12"] []); Some (mkNode 3 ["f23"] [])])]
    ["f4"].

(** An elimination function that records what it was called with: the
    conditional is the key list, the separator factor is named after the
    factors it was given. *)
Definition record_call : Eliminate (Factor:=string) (Conditional:=list nat) :=
  fun gathered keys => Ok (keys, String.concat "+" gathered).

(** Named factors are never null, and equal when their names are; the
    tolerance plays no part. *)
Definition named (f : string) : bool := true.
Definition same_name (f g : string) (tol : unit) : bool := bool_decide (f = g).

(** The two leaves of [chain_tree]. *)
Definition leaf1 : Node (Factor:=string) := mkNode 1 ["f12"] [].
Definition leaf3 : Node (Factor:=string) := mkNode 3 ["f23"] [].

End Scenario.

(* ------------------------------------------------------------------ *)
(** ** The construction sweep as a sequence of steps *)

Module EliminationTreeSteps.
Import EliminationTree EliminationTreeInv.
Section Steps.
Context {Factor : Type}.
Variable graph : list Factor.
Variable structure : gmap nat (list nat).
Variable order : list nat.
Local Abbreviation Locals := (Locals (Factor:=Factor)).

(** What one pass through the body of [BOOST_FOREACH(const size_t i,
    factors)] does to the vectors, in column [j], by the branch taken. *)
Inductive visit_step (j i : nat) (st : Locals) : Locals -> Prop :=
| visit_first f nd :
    (* no column has seen factor i: the node of column j takes it *)
    prevCol st !! i = Some None -> graph !! i = Some f ->
    nodes st !! j = Some (Some nd) ->
    visit_step j i st
      (set_prevCol (<[i := Some j]> (prevCol st))
         (set_factorUsed (<[i := true]> (factorUsed st))
            (set_nodes (<[j := Some (push_back_factor f nd)]> (nodes st)) st)))
| visit_attach k r child nd :
    (* column k has seen factor i and its tree has the root r, not j: the
       tree becomes a child of the node of column j *)
    prevCol st !! i = Some (Some k) -> r < j -> parents st !! r = Some None ->
    nodes st !! r = Some child -> nodes st !! j = Some (Some nd) ->
    visit_step j i st
      (set_prevCol (<[i := Some j]> (prevCol st))
         (set_nodes (<[j := Some (push_back_child child nd)]> (nodes st))
            (set_parents (<[r := Some j]> (parents st)) st)))
| visit_again k :
    (* column k has seen factor i and its tree already hangs below j *)
    prevCol st !! i = Some (Some k) ->
    visit_step j i st (set_prevCol (<[i := Some j]> (prevCol st)) st).

(** The passes through the factor indices of one column. *)
Inductive visits (j : nat) : list nat -> Locals -> Locals -> Prop :=
| visits_nil st : visits j [] st st
| visits_cons i fs st st1 st2 :
    Inv graph structure order (S j) st -> visit_step j i st st1 ->
    visits j fs st1 st2 -> visits j (i :: fs) st st2.

(** The vectors when column [j] has its node and has visited no factor. *)
Definition column_start (j v : nat) (st : Locals) : Locals :=
  set_nodes (<[j := Some (mkNode v [] [])]> (nodes st)) st.

(** The vectors after the first [b] columns. *)
Inductive columns : nat -> Locals -> Prop :=
| columns_0 : columns 0 (allocate graph order)
| columns_S j v fs st st' :
    columns j st -> Inv graph structure order j st ->
    order !! j = Some v -> structure !! v = Some fs ->
    visits j fs (column_start j v st) st' ->
    columns (S j) st'.

(** Whether some variable of the ordering lists factor index [i]. *)
Definition listed (i : nat) : bool :=
  existsb (fun v => match structure !! v with
                    | Some fs => bool_decide (i ∈ fs)
                    | None => false
                    end) order.

(** A node sits at position [pos] of the ordering and each of its children
    sits, in the same sense, at a smaller position. *)
Fixpoint eliminated_before (pos : nat) (nd : Node (Factor:=Factor)) : Prop :=
  order !! pos = Some (key nd) /\
  fold_right
    (fun c (rest : Prop) =>
       match c with
       | Some child => exists pos', pos' < pos /\ eliminated_before pos' child
       | None => False
       end /\ rest)
    True (children nd).

End Steps.

(** What the nodes of a subtree hold, for a content [h] of one node. *)
Fixpoint subtree_collect {Factor X : Type} (h : Node (Factor:=Factor) -> list X)
    (nd : Node (Factor:=Factor)) : list X :=
  h nd ++
  flat_map (fun c => match c with
                     | Some child => subtree_collect h child
                     | None => []
                     end) (children nd).

Definition shared_collect {Factor X : Type} (h : Node (Factor:=Factor) -> list X)
    (p : option (Node (Factor:=Factor))) : list X :=
  match p with
  | Some nd => subtree_collect h nd
  | None => []
  end.

(** The keys of all nodes of a forest. *)
Definition forest_keys {Factor : Type} (roots : list (option (Node (Factor:=Factor))))
  : list nat :=
  flat_map (shared_collect (fun nd => [key nd])) roots.

(** The keys held by the trees whose root has no parent yet. *)
Definition roots_keys {Factor : Type} (st : Locals (Factor:=Factor)) : list nat :=
  concat (zip_with (fun (p : option nat) nd =>
                      match p with
                      | None => shared_collect (fun nd => [key nd]) nd
                      | Some _ => []
                      end) (parents st) (nodes st)).

(** Some column has seen factor index [i]. *)
Definition touched {Factor : Type} (st : Locals (Factor:=Factor)) (i : nat) : Prop :=
  exists k, prevCol st !! i = Some (Some k).

End EliminationTreeSteps.

(* ------------------------------------------------------------------ *)
(** ** EliminationTreeUnordered::equals *)

Module EliminationTreeEquals.
Import EliminationTree.
Section Defs.
Context {Factor Tol : Type}.
Local Abbreviation Node := (Node (Factor:=Factor)).

(** The test of a shared pointer to a factor, as in [if( *it1 && *it2 )]:
    the pointer is not null. *)
Variable not_null : Factor -> bool.
(** The method [equals] of the factor type, called on the factor [*it1] with
    the factor [*it2] and [tol]. *)
Variable factor_equals : Factor -> Factor -> Tol -> bool.

(** [FastMap<Key,sharedNode>] is a [std::map]: its entries are kept in
    ascending key order, and [keys.insert(std::make_pair(k, nd))] adds the
    entry unless the key is present, and then changes nothing. *)
Fixpoint FastMap_insert (k : nat) (nd : Node) (keys : list (nat * Node))
  : list (nat * Node) :=
  match keys with
  | [] => [(k, nd)]
  | (k', nd') :: rest =>
      if decide (k < k') then (k, nd) :: keys
      else if decide (k = k') then keys
      else (k', nd') :: FastMap_insert k nd rest
  end.

(** [BOOST_FOREACH(const sharedNode& node, nodes)
       { keys.insert(std::make_pair(node->key, node)); }]
    on the local map [keys]; [node->key] dereferences the pointer. *)
Definition insert_all (nodes : list (option Node)) : method (list (nat * Node)) unit :=
  foldM (fun (_ : unit) node =>
           match node with
           | Some nd => modify (FastMap_insert (key nd) nd)
           | None => throw undefined_behaviour
           end) tt nodes.

(** [BOOST_FOREACH(const Key_Node& key_node, keys) { stack.push(key_node.second); }];
    the top of a stack is the head of the list. *)
Definition push_all (keys : list (nat * Node)) (stack : list Node) : list Node :=
  fold_left (fun st key_node => key_node.2 :: st) keys stack.

(** One block "add ... in sorted order": a fresh map, filled and pushed. *)
Definition push_sorted (nodes : list (option Node)) (stack : list Node)
  : result (list Node) :=
  match insert_all nodes [] with
  | (Ok _, keys) => Ok (push_all keys stack)
  | (Err e, _) => Err e
  end.

(** The [for] loop over the factors of the two nodes; [Ok false] is
    [return false], [Ok true] is the end of the loop.  The loop runs [it2]
    along with [it1] and tests [it1] only. *)
Fixpoint factors_equal (fs1 fs2 : list Factor) (tol : Tol) : result bool :=
  match fs1 with
  | [] => Ok true
  | f1 :: rest1 =>
      match fs2 with
      | [] => Err undefined_behaviour
      | f2 :: rest2 =>
          if not_null f1 && not_null f2 then
            if negb (factor_equals f1 f2 tol) then Ok false
            else factors_equal rest1 rest2 tol
          else if (not_null f1 && negb (not_null f2))
                  || (not_null f2 && negb (not_null f1)) then Ok false
          else factors_equal rest1 rest2 tol
      end
  end.

(** "Compare nodes": [Ok false] is [return false]. *)
Definition compare_nodes (node1 node2 : Node) (tol : Tol) : result bool :=
  if bool_decide (key node1 <> key node2) then Ok false
  else if bool_decide (length (factors node1) <> length (factors node2)) then Ok false
  else factors_equal (factors node1) (factors node2) tol.

(** The [while] loop and the test that follows it. *)
Fixpoint equals_loop (fuel : nat) (stack1 stack2 : list Node) (tol : Tol)
  : result bool :=
  match stack1, stack2 with
  | node1 :: rest1, node2 :: rest2 =>
      match fuel with
      | 0 => Err fuel_exhausted
      | S fuel' =>
          match compare_nodes node1 node2 tol with
          | Err e => Err e
          | Ok false => Ok false
          | Ok true =>
              match push_sorted (children node1) rest1 with
              | Err e => Err e
              | Ok stack1' =>
                  match push_sorted (children node2) rest2 with
                  | Err e => Err e
                  | Ok stack2' => equals_loop fuel' stack1' stack2' tol
                  end
              end
          end
      end
  | [], [] => Ok true
  | _, _ => Ok false
  end.

(** The number of nodes a node stands for, itself included. *)
Fixpoint Node_size (nd : Node) : nat :=
  S (fold_right (fun c n => match c with
                            | Some child => Node_size child + n
                            | None => n
                            end) 0 (children nd)).

Definition stack_size (stack : list Node) : nat := sum_list (Node_size <$> stack).

(** [EliminationTreeUnordered::equals(expected, tol)].  Each pass of the
    loop pops a node of [stack1] and pushes children of that node only, so
    the nodes [stack1] stands for bound the number of passes. *)
Definition equals (this expected : EliminationTree (Factor:=Factor)) (tol : Tol)
  : result bool :=
  match push_sorted (roots_ this) [] with
  | Err e => Err e
  | Ok stack1 =>
      match push_sorted (roots_ expected) [] with
      | Err e => Err e
      | Ok stack2 => equals_loop (stack_size stack1) stack1 stack2 tol
      end
  end.

(** No node of the forest is null. *)
Definition forest_complete (nodes : list (option Node)) : Prop :=
  Forall (fun c => match c with
                   | Some nd => Node_complete nd = true
                   | None => False
                   end) nodes.

End Defs.
End EliminationTreeEquals.

(* ================================================================== *)
(** * Part II: the properties *)
(* ================================================================== *)

(** ** Loops *)

Section Loops.
Context {St A B : Type}.
Implicit Types (body : B -> A -> method St B).

Lemma foldM_app body acc xs ys s :
  foldM body acc (xs ++ ys) s =
  match foldM body acc xs s with
  | (Ok acc', s') => foldM body acc' ys s'
  | (Err e, s') => (Err e, s')
  end.
Proof.
  revert acc s. induction xs as [|x xs IH]; intros acc s; simpl; [done|].
  unfold bind. destruct (body acc x s) as [[acc'|e] s']; [apply IH|done].
Qed.

End Loops.

(** A counting loop that keeps an invariant [I j acc s] ("before iteration
    [j]") runs to the end and establishes [I n]. *)
Lemma foldM_seq_invariant {St B} (body : B -> nat -> method St B)
    (I : nat -> B -> St -> Prop) (n : nat) :
  (forall j acc s, j < n -> I j acc s ->
     exists acc' s', body acc j s = (Ok acc', s') /\ I (j + 1) acc' s') ->
  forall k lo acc s, lo + k = n -> I lo acc s ->
    exists acc' s', foldM body acc (seq lo k) s = (Ok acc', s') /\ I n acc' s'.
Proof.
  intros Hbody k. induction k as [|k IH]; intros lo acc s Hn HI; simpl.
  - exists acc, s. split; [done|]. by replace n with lo by lia.
  - destruct (Hbody lo acc s) as (acc' & s' & Hb & HI'); [lia|done|].
    unfold bind. rewrite Hb. replace (lo + 1) with (S lo) in HI' by lia.
    apply IH; [lia|done].
Qed.

(** A counting loop whose iteration [j0] throws, after the earlier ones kept
    the invariant, throws. *)
Lemma foldM_seq_throws {St B} (body : B -> nat -> method St B)
    (I : nat -> B -> St -> Prop) (P : exception -> St -> Prop) (n j0 : nat) :
  j0 < n ->
  (forall j acc s, j < j0 -> I j acc s ->
     exists acc' s', body acc j s = (Ok acc', s') /\ I (j + 1) acc' s') ->
  (forall acc s, I j0 acc s -> exists e s', body acc j0 s = (Err e, s') /\ P e s') ->
  forall acc s, I 0 acc s ->
    exists e s', foldM body acc (seq 0 n) s = (Err e, s') /\ P e s'.
Proof.
  intros Hj0 Hbody Hthrow acc s HI.
  replace n with (j0 + (1 + (n - j0 - 1))) by lia.
  rewrite seq_app, foldM_app.
  destruct (foldM_seq_invariant body I j0 Hbody j0 0 acc s) as (a1 & s1 & -> & HI1);
    [lia|done|].
  simpl. destruct (Hthrow a1 s1 HI1) as (e & s' & Hb & HP).
  unfold bind. rewrite Hb. eauto.
Qed.

(** ** Vectors written slot by slot *)

Lemma insert_after_prefix {A} (l r : list A) (j : nat) (x : A) :
  length l = j -> j < length r ->
  <[j := x]> (l ++ drop j r) = (l ++ [x]) ++ drop (S j) r.
Proof.
  intros Hl Hj. rewrite insert_app_r_alt by lia.
  replace (j - length l) with 0 by lia.
  destruct (drop j r) as [|y r'] eqn:E.
  - apply (f_equal length) in E. rewrite length_drop in E. simpl in E. lia.
  - simpl. replace (S j) with (j + 1) by lia.
    rewrite <- drop_drop, E. simpl. rewrite drop_0.
    by rewrite <- app_assoc.
Qed.

Lemma zip_with_take_S {A B C} (f : A -> B -> C) (a : list A) (c : list B) j x y :
  a !! j = Some x -> c !! j = Some y ->
  zip_with f (take (S j) a) (take (S j) c) =
  zip_with f (take j a) (take j c) ++ [f x y].
Proof.
  intros Ha Hc. rewrite (take_S_r a j x Ha), (take_S_r c j y Hc).
  rewrite zip_with_app; [done|].
  apply lookup_lt_Some in Ha, Hc. rewrite !length_take. lia.
Qed.

(** The first slot at which two equally long vectors are not related. *)
Lemma Forall2_first_failure {A B} (R : A -> B -> Prop)
    `{!forall x y, Decision (R x y)} (a : list A) (c : list B) :
  length a = length c -> ~ Forall2 R a c ->
  exists j x y, a !! j = Some x /\ c !! j = Some y /\ ~ R x y /\
                Forall2 R (take j a) (take j c).
Proof.
  revert c. induction a as [|x a IH]; intros [|y c] Hlen Hn; simplify_eq/=.
  - destruct Hn. constructor.
  - destruct (decide (R x y)) as [HR|HR].
    + destruct (IH c) as (j & x' & y' & ? & ? & ? & ?); [lia| |].
      * intros HF. apply Hn. by constructor.
      * exists (S j), x', y'. simpl. split_and!; [done..|by constructor].
    + exists 0, x, y. simpl. split_and!; [done..|constructor].
Qed.

Lemma fold_left_pointwise {A B} (f g : A -> B -> A) (l : list B) (a : A) :
  (forall acc x, f acc x = g acc x) -> fold_left f l a = fold_left g l a.
Proof.
  intros Hfg. revert a. induction l as [|x l IH]; intros a; simpl; [done|].
  by rewrite Hfg, IH.
Qed.

(** ** VectorValuesUnordered *)

Section VectorValuesFacts.
Context {Scalar : Type}.
Variable zero : Scalar.
Variables add mul : Scalar -> Scalar -> Scalar.
Variable indeterminate : Scalar.
Local Abbreviation Vector := (list Scalar).
Local Abbreviation Values := (list (list Scalar)).
Local Abbreviation same_dim := (@VectorValues.same_dim Scalar).

Local Abbreviation Vector_add := (VectorValues.Vector_add add).
Local Abbreviation Vector_dot := (VectorValues.Vector_dot zero add mul).
Local Abbreviation Vector_squaredNorm := (VectorValues.Vector_squaredNorm zero add mul).

Lemma values_at_lookup (this : Values) j x :
  this !! j = Some x -> VectorValues.values_at j this = (Ok x, this).
Proof. intros H. unfold VectorValues.values_at, vec_at. by rewrite H. Qed.

Lemma vec_at_lookup {A} (v : list A) j x : v !! j = Some x -> vec_at v j = Ok x.
Proof. intros H. unfold vec_at. by rewrite H. Qed.

Lemma values_set_lt (this : Values) j v :
  j < length this -> VectorValues.values_set j v this = (Ok tt, <[j := v]> this).
Proof.
  intros H. unfold VectorValues.values_set, vec_set. by rewrite decide_True.
Qed.

(** [resizeLike] never fails and produces as many slots as [other] has. *)
Lemma resizeLike_ok (other this : Values) :
  exists this', VectorValues.resizeLike indeterminate other this = (Ok tt, this')
                /\ length this' = length other.
Proof.
  unfold VectorValues.resizeLike, bind, modify.
  destruct (foldM_seq_invariant
              (fun (_ : unit) j =>
                 let* oj := lift (vec_at other j) in
                 let* tj := VectorValues.values_at j in
                 VectorValues.values_set j
                   (VectorValues.Vector_resize indeterminate (length oj) tj))
              (fun _ _ (s : Values) => length s = length other)
              (length other)) with (k := length other) (lo := 0) (acc := tt)
              (s := resize (length other) [] this)
    as (acc' & s' & Hrun & Hlen).
  - intros j [] s Hj Hs.
    destruct (lookup_lt_is_Some_2 other j Hj) as [oj Hoj].
    destruct (lookup_lt_is_Some_2 s j) as [tj Htj]; [lia|].
    exists tt, (<[j := VectorValues.Vector_resize indeterminate (length oj) tj]> s).
    unfold bind, lift. rewrite (vec_at_lookup _ _ _ Hoj).
    rewrite (values_at_lookup _ _ _ Htj), values_set_lt by lia.
    by rewrite length_insert.
  - lia.
  - by rewrite length_resize.
  - destruct acc'. eauto.
Qed.

Lemma SameStructure_ok (other : Values) :
  exists r, VectorValues.SameStructure indeterminate other = Ok r
            /\ length r = length other.
Proof.
  unfold VectorValues.SameStructure.
  destruct (resizeLike_ok other []) as (r & -> & Hlen). eauto.
Qed.

(** One iteration of a loop that overwrites slot [j] with the combination
    of the [j]-th slots of [a] and [c]. *)
Lemma slot_step (f : Vector -> Vector -> Vector) (a c r : Values) j tj cj :
  length r = length a -> a !! j = Some tj -> c !! j = Some cj ->
  <[j := f tj cj]> (zip_with f (take j a) (take j c) ++ drop j r) =
  zip_with f (take (j + 1) a) (take (j + 1) c) ++ drop (j + 1) r.
Proof.
  intros Hr Ha Hc. rewrite Nat.add_1_r, (zip_with_take_S f a c j tj cj Ha Hc).
  apply lookup_lt_Some in Ha as Hja. apply lookup_lt_Some in Hc as Hjc.
  apply insert_after_prefix; [|lia].
  rewrite length_zip_with_l_eq; rewrite !length_take; lia.
Qed.

Lemma slot_lookup (f : Vector -> Vector -> Vector) (a c r : Values) j :
  j <= length a -> j <= length c ->
  (zip_with f (take j a) (take j c) ++ drop j r) !! j = r !! j.
Proof.
  intros Ha Hc.
  assert (length (zip_with f (take j a) (take j c)) = j) as Hlen
    by (rewrite length_zip_with_l_eq; rewrite !length_take; lia).
  rewrite lookup_app_r by lia. rewrite Hlen, Nat.sub_diag, lookup_drop.
  by rewrite Nat.add_0_r.
Qed.

Local Abbreviation plus_body c :=
  (fun (result_ : Values) j =>
     let* tj := VectorValues.values_at j in
     let* cj := lift (vec_at c j) in
     if bool_decide (length tj = length cj) then
       lift (vec_set result_ j (Vector_add tj cj))
     else
       throw (invalid_argument
                "VectorValues::operator- called with different vector sizes")).

Lemma plus_loop_ok (a c result0 : Values) :
  length result0 = length a -> Forall2 same_dim a c ->
  foldM (plus_body c) result0 (seq 0 (length a)) a =
  (Ok (zip_with Vector_add a c), a).
Proof.
  intros Hres HF. pose proof (Forall2_length _ _ _ HF) as Hlen.
  destruct (foldM_seq_invariant (plus_body c)
              (fun j (res : Values) (s : Values) =>
                 s = a /\ res = zip_with Vector_add (take j a) (take j c)
                                 ++ drop j result0)
              (length a)) with (k := length a) (lo := 0) (acc := result0) (s := a)
    as (res & s & -> & -> & ->).
  - intros j res s Hj [-> ->].
    destruct (lookup_lt_is_Some_2 a j Hj) as [tj Htj].
    destruct (lookup_lt_is_Some_2 c j) as [cj Hcj]; [lia|].
    pose proof (Forall2_lookup_lr _ _ _ _ _ _ HF Htj Hcj) as Hdim.
    unfold VectorValues.same_dim in Hdim.
    eexists _, a. unfold bind, lift.
    rewrite (values_at_lookup _ _ _ Htj), (vec_at_lookup _ _ _ Hcj).
    rewrite bool_decide_true by done. unfold vec_set.
    rewrite decide_True.
    + split; [done|]. split; [done|]. by apply slot_step.
    + rewrite length_app, length_zip_with_l_eq, !length_take, length_drop;
        rewrite ?length_take; lia.
  - lia.
  - by rewrite !take_0, drop_0.
  - rewrite !take_ge, drop_ge by lia. by rewrite app_nil_r.
Qed.

Lemma plus_loop_throws (a c result0 : Values) :
  length a = length c -> length result0 = length a -> ~ Forall2 same_dim a c ->
  foldM (plus_body c) result0 (seq 0 (length a)) a =
  (Err (invalid_argument
          "VectorValues::operator- called with different vector sizes"), a).
Proof.
  intros Hlen Hres HF.
  destruct (Forall2_first_failure same_dim a c Hlen HF)
    as (j0 & x & y & Hx & Hy & Hxy & Hpre).
  apply lookup_lt_Some in Hx as Hj0.
  destruct (foldM_seq_throws (plus_body c)
              (fun _ (res : Values) (s : Values) => s = a /\ length res = length a)
              (fun e (s : Values) =>
                 e = invalid_argument
                       "VectorValues::operator- called with different vector sizes"
                 /\ s = a)
              (length a) j0 Hj0) with (acc := result0) (s := a)
    as (e & s & -> & -> & ->); [| | |done].
  - intros j res s Hj [-> Hr].
    destruct (lookup_lt_is_Some_2 a j) as [tj Htj]; [lia|].
    destruct (lookup_lt_is_Some_2 c j) as [cj Hcj]; [lia|].
    assert (same_dim tj cj) as Hdim.
    { eapply (Forall2_lookup_lr _ _ _ j _ _ Hpre); by rewrite lookup_take_lt. }
    unfold VectorValues.same_dim in Hdim.
    eexists _, a. unfold bind, lift.
    rewrite (values_at_lookup _ _ _ Htj), (vec_at_lookup _ _ _ Hcj).
    rewrite bool_decide_true by done. unfold vec_set.
    rewrite decide_True by lia. by rewrite length_insert.
  - intros res s [-> _]. eexists _, a. unfold bind, lift, throw.
    rewrite (values_at_lookup _ _ _ Hx), (vec_at_lookup _ _ _ Hy).
    by rewrite bool_decide_false.
  - done.
Qed.

Local Abbreviation plus_assign_body c :=
  (fun (_ : unit) j =>
     let* tj := VectorValues.values_at j in
     let* cj := lift (vec_at c j) in
     if bool_decide (length tj = length cj) then
       VectorValues.values_set j (Vector_add tj cj)
     else
       throw (invalid_argument
                "VectorValues::operator+= called with different vector sizes")).

Lemma plus_assign_loop_ok (a c : Values) :
  Forall2 same_dim a c ->
  foldM (plus_assign_body c) tt (seq 0 (length a)) a =
  (Ok tt, zip_with Vector_add a c).
Proof.
  intros HF. pose proof (Forall2_length _ _ _ HF) as Hlen.
  destruct (foldM_seq_invariant (plus_assign_body c)
              (fun j (_ : unit) (s : Values) =>
                 s = zip_with Vector_add (take j a) (take j c) ++ drop j a)
              (length a)) with (k := length a) (lo := 0) (acc := tt) (s := a)
    as ([] & s & -> & ->).
  - intros j [] s Hj ->.
    destruct (lookup_lt_is_Some_2 a j Hj) as [tj Htj].
    destruct (lookup_lt_is_Some_2 c j) as [cj Hcj]; [lia|].
    pose proof (Forall2_lookup_lr _ _ _ _ _ _ HF Htj Hcj) as Hdim.
    unfold VectorValues.same_dim in Hdim.
    eexists tt, _. unfold bind, lift.
    rewrite (values_at_lookup _ j tj) by (rewrite slot_lookup; [done|lia..]).
    rewrite (vec_at_lookup _ _ _ Hcj), bool_decide_true by done.
    rewrite values_set_lt.
    + split; [done|]. by apply slot_step.
    + rewrite length_app, length_zip_with_l_eq, !length_take, length_drop;
        rewrite ?length_take; lia.
  - lia.
  - by rewrite !take_0, drop_0.
  - rewrite !take_ge, drop_ge by lia. by rewrite app_nil_r.
Qed.

(** [operator+=] on structurally compatible operands. *)
Lemma operator_plus_assign_ok (c this : Values) :
  Forall2 same_dim this c ->
  VectorValues.operator_plus_assign add c this =
  (Ok tt, zip_with Vector_add this c).
Proof.
  intros HF. pose proof (Forall2_length _ _ _ HF) as Hlen.
  unfold VectorValues.operator_plus_assign, bind, VectorValues.size.
  rewrite bool_decide_true by done. simpl. by apply plus_assign_loop_ok.
Qed.

(** A loop that reads every slot of [this] and accumulates. *)
Lemma foldM_read_slots (body : Scalar -> nat -> method Values Scalar)
    (f : Scalar -> Vector -> Scalar) (a : Values) (acc0 : Scalar) :
  (forall acc j x, a !! j = Some x -> body acc j a = (Ok (f acc x), a)) ->
  foldM body acc0 (seq 0 (length a)) a = (Ok (fold_left f a acc0), a).
Proof.
  intros Hbody.
  destruct (foldM_seq_invariant body
              (fun j acc (s : Values) => s = a /\ acc = fold_left f (take j a) acc0)
              (length a)) with (k := length a) (lo := 0) (acc := acc0) (s := a)
    as (acc & s & -> & -> & ->).
  - intros j acc s Hj [-> ->].
    destruct (lookup_lt_is_Some_2 a j Hj) as [x Hx].
    eexists _, a. rewrite (Hbody _ _ _ Hx). split; [done|]. split; [done|].
    by rewrite Nat.add_1_r, (take_S_r _ _ _ Hx), fold_left_app.
  - lia.
  - by rewrite take_0.
  - by rewrite take_ge.
Qed.

Lemma Vector_dot_self (x : Vector) : Vector_dot x x = Vector_squaredNorm x.
Proof.
  unfold VectorValues.Vector_dot, VectorValues.Vector_squaredNorm. f_equal.
  induction x as [|a x IH]; simpl; [done|]. by rewrite IH.
Qed.

Lemma dot_self_unfold (a : Values) :
  VectorValues.dot zero add mul a a =
  (Ok (fold_left (fun acc x => add acc (Vector_dot x x)) a zero), a).
Proof.
  unfold VectorValues.dot, bind, VectorValues.size.
  rewrite bool_decide_true by done. simpl.
  apply foldM_read_slots. intros acc j x Hx.
  unfold bind, lift, ret, VectorValues.values_at.
  rewrite !(vec_at_lookup _ _ _ Hx). by rewrite bool_decide_true.
Qed.

Lemma squaredNorm_unfold (a : Values) :
  VectorValues.squaredNorm zero add mul a =
  (Ok (fold_left (fun acc x => add acc (Vector_squaredNorm x)) a zero), a).
Proof.
  unfold VectorValues.squaredNorm, bind, VectorValues.size.
  apply foldM_read_slots. intros acc j x Hx. unfold bind, ret.
  by rewrite (values_at_lookup _ _ _ Hx).
Qed.

(** Structural compatibility, slot by slot: the same number of slots, and
    in every slot the same length. *)
Lemma same_structure_slots (a b : Values) :
  Forall2 same_dim a b <->
  length a = length b /\
  forall j x y, a !! j = Some x -> b !! j = Some y -> length x = length y.
Proof. apply Forall2_same_length_lookup. Qed.

(** [hasSameStructure] decides the compatibility the operators require. *)
Lemma hasSameStructure_unfold (other this : Values) :
  VectorValues.hasSameStructure other this =
  (Ok (bool_decide (Forall2 same_dim this other)), this).
Proof.
  unfold VectorValues.hasSameStructure, bind, VectorValues.size.
  destruct (decide (length this = length other)) as [Hlen|Hlen].
  2:{ rewrite bool_decide_false by done. simpl. unfold ret. do 2 f_equal.
      symmetry. apply bool_decide_false. intros HF.
      by apply Forall2_length in HF. }
  rewrite bool_decide_true by done. simpl.
  match goal with |- foldM ?b _ _ _ = _ =>
    destruct (foldM_seq_invariant b
                (fun j (same : bool) (s : Values) =>
                   s = this /\
                   same = bool_decide (Forall2 same_dim (take j this) (take j other)))
                (length this)) with (k := length this) (lo := 0) (acc := true)
                (s := this) as (same & s & -> & -> & ->)
  end.
  - intros j same s Hj [-> ->].
    destruct (lookup_lt_is_Some_2 this j Hj) as [tj Htj].
    destruct (lookup_lt_is_Some_2 other j) as [oj Hoj]; [lia|].
    rewrite Nat.add_1_r, (take_S_r _ _ _ Htj), (take_S_r _ _ _ Hoj).
    case_bool_decide as HF.
    + exists (bool_decide (length tj = length oj)), this. split; [|split; [done|]].
      * unfold bind, lift, ret, VectorValues.values_at.
        by rewrite (vec_at_lookup _ _ _ Htj), (vec_at_lookup _ _ _ Hoj).
      * apply bool_decide_ext. split.
        -- intros Hd. apply Forall2_app; [done|]. by constructor.
        -- intros HF'. apply Forall2_app_inv in HF' as [_ HF'].
           ++ by inversion HF'.
           ++ rewrite !length_take. lia.
    + exists false, this. split; [done|]. split; [done|].
      symmetry. apply bool_decide_false. intros HF'. apply HF.
      apply Forall2_app_inv in HF' as [HF' _]; [done|].
      rewrite !length_take. lia.
  - lia.
  - split; [done|]. rewrite !take_0. symmetry. by apply bool_decide_true.
  - by rewrite !take_ge by lia.
Qed.

(** [j+1] does not wrap below the largest index. *)
Lemma Index_succ_below (SIZE_MAX : N) (j : nat) :
  (N.of_nat j < SIZE_MAX)%N -> VectorValues.Index_succ SIZE_MAX j = j + 1.
Proof.
  intros Hj. unfold VectorValues.Index_succ.
  rewrite N.mod_small by lia. lia.
Qed.

(** [j+1] is 0 at the largest index. *)
Lemma Index_succ_wraps (SIZE_MAX : N) :
  VectorValues.Index_succ SIZE_MAX (N.to_nat SIZE_MAX) = 0.
Proof.
  unfold VectorValues.Index_succ.
  rewrite N2Nat.id, N.Div0.mod_same. done.
Qed.

(** [insert] at the largest index, on a store that does not hold it: the
    store is resized to [j+1], which is 0 slots, and the assignment to
    [values_[j]] is out of range. *)
Lemma insert_at_SIZE_MAX (SIZE_MAX : N) (v : Vector) (s : Values) :
  length s <= N.to_nat SIZE_MAX ->
  VectorValues.insert SIZE_MAX (N.to_nat SIZE_MAX) v s =
  (Err undefined_behaviour, []).
Proof.
  intros Hlen.
  unfold VectorValues.insert, VectorValues.exists_, VectorValues.size, bind, ret.
  simpl. rewrite bool_decide_false by lia. rewrite decide_True by lia.
  unfold modify. rewrite Index_succ_wraps.
  unfold VectorValues.values_set, vec_set. rewrite resize_0.
  by rewrite decide_False by (simpl; lia).
Qed.

(** C6 (as amended). For an index [j] below the largest [size_t]: [insert(j,
    v)] throws (the spec's DuplicateKey, a [std::invalid_argument]) and
    leaves the store as it was when [j] is below the slot count; when [j] is
    at or beyond it, the call succeeds and the store has [j+1] slots: the
    old ones, then zero-length vectors, then [v] in slot [j]. *)
Theorem insert_duplicate_or_grows (SIZE_MAX : N) (j : nat) (v : Vector) (s : Values) :
  (N.of_nat j < SIZE_MAX)%N ->
  VectorValues.insert SIZE_MAX j v s =
  if decide (j < length s) then
    (Err (invalid_argument
            "VectorValues: requested variable index to insert already exists."),
     s)
  else (Ok tt, s ++ replicate (j - length s) [] ++ [v]).
Proof.
  intros Hj.
  unfold VectorValues.insert, VectorValues.exists_, VectorValues.size, bind, ret.
  simpl. destruct (decide (j < length s)) as [Hlt|Hge].
  - by rewrite bool_decide_true.
  - rewrite bool_decide_false by done. rewrite decide_True by lia.
    rewrite (Index_succ_below _ _ Hj).
    unfold modify, throw. rewrite values_set_lt by (rewrite length_resize; lia).
    f_equal. rewrite resize_ge by lia.
    rewrite insert_app_r_alt by lia.
    replace (j + 1 - length s) with (S (j - length s)) by lia.
    rewrite replicate_S_end.
    rewrite insert_app_r_alt by (rewrite length_replicate; lia).
    rewrite length_replicate, Nat.sub_diag. done.
Qed.


(** C9. [a.dot(a)] succeeds and returns what [a.squaredNorm()] returns;
    neither call changes [a].  The statement holds for every scalar
    arithmetic, exact arithmetic included. *)
Theorem dot_self_is_squaredNorm (a : Values) :
  exists r : Scalar,
    VectorValues.dot zero add mul a a = (Ok r, a) /\
    VectorValues.squaredNorm zero add mul a = (Ok r, a).
Proof.
  exists (fold_left (fun acc x => add acc (Vector_squaredNorm x)) a zero).
  rewrite dot_self_unfold, squaredNorm_unfold. split; [|done].
  do 2 f_equal. apply fold_left_pointwise. intros acc x.
  by rewrite Vector_dot_self.
Qed.

(** C10. For structurally compatible [a] and [c], [a += c] succeeds and
    leaves in [a] the store that [a + c] returns. *)
Theorem operator_plus_assign_agrees (a c : Values) :
  Forall2 same_dim a c ->
  exists r : Values,
    VectorValues.operator_plus_assign add c a = (Ok tt, r) /\
    VectorValues.operator_plus add indeterminate c a = (Ok r, a).
Proof.
  intros HF. exists (zip_with Vector_add a c).
  split; [by apply operator_plus_assign_ok|].
  pose proof (Forall2_length _ _ _ HF) as Hlen.
  unfold VectorValues.operator_plus, bind, get, lift, VectorValues.size.
  destruct (SameStructure_ok a) as (r0 & -> & Hr0).
  rewrite bool_decide_true by done. simpl. by apply plus_loop_ok.
Qed.

End VectorValuesFacts.

(** *** The scenarios of the specification, in integer arithmetic *)

Example insert_below_size :
  VectorValues.insert (2 ^ 64 - 1)%N 1 [7%Z] [[1%Z; 2%Z]; []; [3%Z]] =
  (Err (invalid_argument
          "VectorValues: requested variable index to insert already exists."),
   [[1%Z; 2%Z]; []; [3%Z]]).
Proof. reflexivity. Qed.

Example insert_beyond_size :
  VectorValues.insert (2 ^ 64 - 1)%N 3 [7%Z] [[1%Z; 2%Z]] =
  (Ok tt, [[1%Z; 2%Z]; []; []; [7%Z]]).
Proof. reflexivity. Qed.

(** With a 64-bit [size_t], inserting at index 3 into a store of one slot. *)
Lemma insert_duplicate_or_grows_witness :
  (N.of_nat 3 < 2 ^ 64 - 1)%N /\
  VectorValues.insert (2 ^ 64 - 1)%N 3 [7%Z] [[1%Z; 2%Z]] =
  (if decide (3 < length [[1%Z; 2%Z]]) then
     (Err (invalid_argument
             "VectorValues: requested variable index to insert already exists."),
      [[1%Z; 2%Z]])
   else (Ok tt, [[1%Z; 2%Z]] ++ replicate (3 - length [[1%Z; 2%Z]]) [] ++ [[7%Z]])).
Proof.
  assert (N.of_nat 3 < 2 ^ 64 - 1)%N as Hj by reflexivity.
  split; [exact Hj|].
  exact (insert_duplicate_or_grows (2 ^ 64 - 1)%N 3 [7%Z] [[1%Z; 2%Z]] Hj).
Defined.

(** The claim as the specification states it fails at the largest index:
    with a 64-bit [size_t], inserting at index [2^64 - 1] into a store of
    one slot, an index at or beyond the slot count, does not succeed; it
    empties the store and then writes out of range. *)
Lemma insert_at_largest_index_does_not_grow :
  let SIZE_MAX := (2 ^ 64 - 1)%N in
  let j := N.to_nat SIZE_MAX in
  let s := [[1%Z; 2%Z]] in
  length s <= j /\
  VectorValues.insert SIZE_MAX j [7%Z] s = (Err undefined_behaviour, []) /\
  VectorValues.insert SIZE_MAX j [7%Z] s <>
  (Ok tt, s ++ replicate (j - length s) [] ++ [[7%Z]]).
Proof.
  intros SIZE_MAX j s.
  assert (length s <= j) as Hlen by (unfold j, SIZE_MAX, s; simpl length; lia).
  split; [exact Hlen|].
  assert (VectorValues.insert SIZE_MAX j [7%Z] s = (Err undefined_behaviour, []))
    as Hrun by exact (insert_at_SIZE_MAX SIZE_MAX [7%Z] s Hlen).
  split; [exact Hrun|].
  rewrite Hrun. intros H. discriminate H.
Qed.

Example plus_scenario :
  VectorValues.operator_plus Z.add 0%Z [[10%Z; 20%Z]; [30%Z]] [[1%Z; 2%Z]; [3%Z]] =
  (Ok [[11%Z; 22%Z]; [33%Z]], [[1%Z; 2%Z]; [3%Z]]).
Proof. reflexivity. Qed.

Example plus_scenario_mismatch :
  VectorValues.operator_plus Z.add 0%Z [[10%Z; 20%Z]; [30%Z; 40%Z]] [[1%Z; 2%Z]; [3%Z]] =
  (Err (invalid_argument
          "VectorValues::operator- called with different vector sizes"),
   [[1%Z; 2%Z]; [3%Z]]).
Proof. reflexivity. Qed.

Example dot_scenario :
  VectorValues.dot 0%Z Z.add Z.mul [[1%Z; 2%Z]; [3%Z]] [[1%Z; 2%Z]; [3%Z]] =
  (Ok 14%Z, [[1%Z; 2%Z]; [3%Z]]).
Proof. reflexivity. Qed.

Lemma operator_plus_assign_agrees_witness :
  Forall2 VectorValues.same_dim [[1%Z; 2%Z]; [3%Z]] [[10%Z; 20%Z]; [30%Z]] /\
  exists r : list (list Z),
    VectorValues.operator_plus_assign Z.add [[10%Z; 20%Z]; [30%Z]]
      [[1%Z; 2%Z]; [3%Z]] = (Ok tt, r) /\
    VectorValues.operator_plus Z.add 0%Z [[10%Z; 20%Z]; [30%Z]]
      [[1%Z; 2%Z]; [3%Z]] = (Ok r, [[1%Z; 2%Z]; [3%Z]]).
Proof.
  split.
  - repeat constructor.
  - apply (operator_plus_assign_agrees Z.add 0%Z). repeat constructor.
Defined.

(** ** VerticalBlockMatrix *)

Section VerticalBlockMatrixFacts.
Import VerticalBlockMatrix.
Variable assertInvariants : t -> result unit.

(** What the copy loop has written after [i] iterations. *)
Lemma copy_offsets_step (offs : list nat) (bs n i x : nat) :
  i < n -> drop bs offs !! i = Some x ->
  <[i := x]> (take i (drop bs offs) ++ replicate (n + 1 - i) 0) =
  take (i + 1) (drop bs offs) ++ replicate (n + 1 - (i + 1)) 0.
Proof.
  intros Hi Hx. apply lookup_lt_Some in Hx as Hlen.
  replace (i + 1) with (S i) by lia. rewrite (take_S_r _ _ _ Hx).
  rewrite insert_app_r_alt by (rewrite length_take; lia).
  rewrite length_take, Nat.min_l, Nat.sub_diag by lia.
  replace (n + 1 - i) with (S (n + 1 - S i)) by lia. simpl.
  by rewrite <- app_assoc.
Qed.

(** The view [LikeActiveViewOf] builds, before [assertInvariants] sees it. *)
Lemma LikeActiveViewOf_body_run (rhs : t) :
  valid rhs ->
  LikeActiveViewOf_body assertInvariants rhs default_constructed =
  let result_ :=
    {| matrix_ := {| rows_ := rows rhs; cols_ := 0 |};
       variableColOffsets_ :=
         take (nBlocks rhs) (drop (blockStart_ rhs) (variableColOffsets_ rhs)) ++ [0];
       rowStart_ := 0; rowEnd_ := rows rhs; blockStart_ := 0 |} in
  (assertInvariants result_, result_).
Proof.
  intros [Hbs Hrows]. unfold LikeActiveViewOf_body.
  set (n := nBlocks rhs). set (D := drop (blockStart_ rhs) (variableColOffsets_ rhs)).
  assert (length D = n + 1) as HD.
  { unfold D, n, nBlocks. rewrite length_drop. lia. }
  unfold bind at 1. unfold bind at 1. simpl.
  unfold bind at 1.
  match goal with |- context [foldM ?b tt (seq 0 n) ?s0] =>
    destruct (foldM_seq_invariant b
                (fun i (_ : unit) (r : t) =>
                   r = {| matrix_ := {| rows_ := 0; cols_ := 0 |};
                          variableColOffsets_ := take i D ++ replicate (n + 1 - i) 0;
                          rowStart_ := 0; rowEnd_ := 0; blockStart_ := 0 |})
                n) with (k := n) (lo := 0) (acc := tt) (s := s0)
      as ([] & r & -> & ->)
  end.
  - intros i [] r Hi ->.
    destruct (lookup_lt_is_Some_2 D i) as [x Hx]; [lia|].
    eexists tt, _. unfold bind, lift, get, set_variableColOffsets, modify. simpl.
    assert (variableColOffsets_ rhs !! (i + blockStart_ rhs) = Some x) as Hx'.
    { unfold D in Hx. rewrite lookup_drop in Hx. by rewrite Nat.add_comm. }
    rewrite (vec_at_lookup _ _ _ Hx'). unfold vec_set.
    rewrite decide_True
      by (rewrite length_app, length_take, length_replicate; lia).
    split; [done|]. f_equal. by apply copy_offsets_step.
  - lia.
  - f_equal. rewrite take_0, Nat.sub_0_r, resize_ge by (simpl; lia).
    replace (n + 1) with (S n) by lia. simpl. by rewrite Nat.sub_0_r.
  - unfold bind, get, lift, vec_back, set_matrix, set_rowEnd, modify. simpl.
    replace (n + 1 - n) with 1 by lia. simpl. rewrite last_snoc. simpl.
    by destruct (assertInvariants _).
Qed.

Lemma LikeActiveViewOf_run (rhs : t) :
  valid rhs ->
  LikeActiveViewOf assertInvariants rhs =
  let result_ :=
    {| matrix_ := {| rows_ := rows rhs; cols_ := 0 |};
       variableColOffsets_ :=
         take (nBlocks rhs) (drop (blockStart_ rhs) (variableColOffsets_ rhs)) ++ [0];
       rowStart_ := 0; rowEnd_ := rows rhs; blockStart_ := 0 |} in
  match assertInvariants result_ with
  | Ok _ => Ok result_
  | Err e => Err e
  end.
Proof.
  intros Hv. unfold LikeActiveViewOf. rewrite LikeActiveViewOf_body_run by done.
  simpl. by destruct (assertInvariants _).
Qed.

(** The function returns whenever [assertInvariants] accepts the view
    it built. *)
Lemma LikeActiveViewOf_returns (rhs : t) :
  valid rhs -> (forall m, assertInvariants m = Ok tt) ->
  exists res, LikeActiveViewOf assertInvariants rhs = Ok res.
Proof.
  intros Hv Hchk. rewrite LikeActiveViewOf_run by done. simpl.
  rewrite Hchk. eauto.
Qed.

(** The loop stops one entry short of the [nBlocks()+1] entries the vector
    was resized to: the last offset keeps the 0 [resize] put there, and the
    matrix, sized from [variableColOffsets_.back()], has no column. *)
Lemma LikeActiveViewOf_last_offset_unset (rhs res : t) :
  valid rhs -> LikeActiveViewOf assertInvariants rhs = Ok res ->
  last (variableColOffsets_ res) = Some 0 /\ cols_ (matrix_ res) = 0.
Proof.
  intros Hv Hres. rewrite LikeActiveViewOf_run in Hres by done. simpl in Hres.
  destruct (assertInvariants _); simplify_eq. simpl. by rewrite last_snoc.
Qed.

(** C2 (as amended). For a source with a valid active view, the view
    [LikeActiveViewOf] returns has as many blocks as the active view of the
    source, its first [nBlocks] offsets are the source's offsets from block
    [blockStart_] on, copied as they are (not shifted to start at 0), and
    its matrix and its active view have the source's active row count. *)
Theorem LikeActiveViewOf_copies_active_shape (rhs res : t) :
  valid rhs -> LikeActiveViewOf assertInvariants rhs = Ok res ->
  nBlocks res = nBlocks rhs /\
  (forall i, i < nBlocks rhs ->
     variableColOffsets_ res !! i = variableColOffsets_ rhs !! (blockStart_ rhs + i)) /\
  rows_ (matrix_ res) = rows rhs /\
  rows res = rows rhs.
Proof.
  intros Hv Hres. pose proof Hv as [Hbs Hrows].
  rewrite LikeActiveViewOf_run in Hres by done. simpl in Hres.
  destruct (assertInvariants _); simplify_eq.
  assert (length (drop (blockStart_ rhs) (variableColOffsets_ rhs)) = nBlocks rhs + 1)
    as HD by (unfold nBlocks; rewrite length_drop; lia).
  unfold nBlocks at 1. simpl. split_and!.
  - rewrite length_app, length_take. simpl. lia.
  - intros i Hi. rewrite lookup_app_l by (rewrite length_take; lia).
    by rewrite lookup_take_lt, lookup_drop.
  - done.
  - unfold rows at 1. simpl. lia.
Qed.

End VerticalBlockMatrixFacts.

(** The claim as the specification states it fails on the view whose active
    part is its second block: whatever [assertInvariants] does, no returned
    view has offsets that start at 0 (the first one is the source's 2). *)
Lemma LikeActiveViewOf_not_rebased :
  VerticalBlockMatrix.valid VerticalBlockMatrix.second_block_view /\
  ~ (exists chk res,
       VerticalBlockMatrix.LikeActiveViewOf chk VerticalBlockMatrix.second_block_view
         = Ok res /\
       VerticalBlockMatrix.variableColOffsets_ res !! 0 = Some 0 /\
       VerticalBlockMatrix.nBlocks res
         = VerticalBlockMatrix.nBlocks VerticalBlockMatrix.second_block_view /\
       VerticalBlockMatrix.rows_ (VerticalBlockMatrix.matrix_ res)
         = VerticalBlockMatrix.rows VerticalBlockMatrix.second_block_view /\
       VerticalBlockMatrix.cols_ (VerticalBlockMatrix.matrix_ res)
         = VerticalBlockMatrix.cols VerticalBlockMatrix.second_block_view).
Proof.
  split; [by vm_compute; lia|].
  intros (chk & res & Hres & Hfirst & _).
  unfold VerticalBlockMatrix.LikeActiveViewOf in Hres. simpl in Hres.
  unfold bind, lift in Hres. simpl in Hres.
  destruct (chk _); by simplify_eq.
Qed.

Lemma LikeActiveViewOf_copies_active_shape_witness :
  let chk := fun _ : VerticalBlockMatrix.t => Ok tt in
  let rhs := VerticalBlockMatrix.second_block_view in
  let res := {| VerticalBlockMatrix.matrix_ :=
                  {| VerticalBlockMatrix.rows_ := 2; VerticalBlockMatrix.cols_ := 0 |};
                VerticalBlockMatrix.variableColOffsets_ := [2; 0];
                VerticalBlockMatrix.rowStart_ := 0;
                VerticalBlockMatrix.rowEnd_ := 2;
                VerticalBlockMatrix.blockStart_ := 0 |} in
  VerticalBlockMatrix.valid rhs /\
  VerticalBlockMatrix.LikeActiveViewOf chk rhs = Ok res /\
  VerticalBlockMatrix.nBlocks res = VerticalBlockMatrix.nBlocks rhs /\
  (forall i, i < VerticalBlockMatrix.nBlocks rhs ->
     VerticalBlockMatrix.variableColOffsets_ res !! i
     = VerticalBlockMatrix.variableColOffsets_ rhs
         !! (VerticalBlockMatrix.blockStart_ rhs + i)) /\
  VerticalBlockMatrix.rows_ (VerticalBlockMatrix.matrix_ res)
    = VerticalBlockMatrix.rows rhs /\
  VerticalBlockMatrix.rows res = VerticalBlockMatrix.rows rhs.
Proof.
  intros chk rhs res.
  assert (VerticalBlockMatrix.valid rhs) as Hv by (vm_compute; lia).
  assert (VerticalBlockMatrix.LikeActiveViewOf chk rhs = Ok res) as Hr
    by reflexivity.
  split; [exact Hv|]. split; [exact Hr|].
  exact (LikeActiveViewOf_copies_active_shape chk rhs res Hv Hr).
Defined.

(** ** Reasoning about methods *)

Section Ensures.
Context {St : Type}.
Variable E : exception -> Prop.

Lemma ensures_ret {A} (a : A) (s : St) (Q : A -> St -> Prop) :
  Q a s -> ensures E (ret a) s Q.
Proof. done. Qed.

Lemma ensures_throw {A} (e : exception) (s : St) (Q : A -> St -> Prop) :
  E e -> ensures E (throw e) s Q.
Proof. done. Qed.

Lemma ensures_bind {A B} (m : method St A) (k : A -> method St B) (s : St)
    (Q : B -> St -> Prop) :
  ensures E m s (fun a s' => ensures E (k a) s' Q) -> ensures E (bind m k) s Q.
Proof.
  unfold ensures, bind. by destruct (m s) as [[a|e] s'].
Qed.

Lemma ensures_weaken {A} (m : method St A) (s : St) (Q Q' : A -> St -> Prop) :
  ensures E m s Q -> (forall a s', Q a s' -> Q' a s') -> ensures E m s Q'.
Proof.
  unfold ensures. destruct (m s) as [[a|e] s']; auto.
Qed.

Lemma ensures_mono {A} (E' : exception -> Prop) (m : method St A) (s : St)
    (Q : A -> St -> Prop) :
  ensures E' m s Q -> (forall e, E' e -> E e) -> ensures E m s Q.
Proof.
  unfold ensures. destruct (m s) as [[a|e] s']; auto.
Qed.

Lemma ensures_get (s : St) (Q : St -> St -> Prop) :
  Q s s -> ensures E get s Q.
Proof. done. Qed.

Lemma ensures_lift {A} (r : result A) (s : St) (Q : A -> St -> Prop) :
  match r with Ok a => Q a s | Err e => E e end -> ensures E (lift r) s Q.
Proof. done. Qed.

Lemma ensures_foldM {A B} (body : B -> A -> method St B) (I : B -> St -> Prop)
    (xs : list A) :
  (forall acc x s, x ∈ xs -> I acc s -> ensures E (body acc x) s I) ->
  forall acc s, I acc s -> ensures E (foldM body acc xs) s I.
Proof.
  induction xs as [|x xs IH]; intros Hbody acc s HI; simpl; [done|].
  apply ensures_bind. eapply ensures_weaken.
  - apply Hbody; [left|done].
  - intros acc' s' HI'. apply IH; [|done].
    intros ????. apply Hbody. by right.
Qed.

End Ensures.

(** A counting loop with an invariant and an exception condition that
    depend on the iteration. *)
Lemma ensures_foldM_seq {St B} (E : nat -> exception -> Prop)
    (body : B -> nat -> method St B) (I : nat -> B -> St -> Prop) (n : nat) :
  (forall j acc s, j < n -> I j acc s -> ensures (E j) (body acc j) s (I (S j))) ->
  forall k lo acc s, lo + k = n -> I lo acc s ->
    ensures (fun e => exists j, j < n /\ E j e) (foldM body acc (seq lo k)) s (I n).
Proof.
  intros Hbody k. induction k as [|k IH]; intros lo acc s Hn HI; simpl.
  - replace n with lo by lia. done.
  - apply ensures_bind. specialize (Hbody lo acc s ltac:(lia) HI).
    unfold ensures in *. destruct (body acc lo s) as [[acc'|e] s'].
    + apply IH; [lia|done].
    + exists lo. split; [lia|done].
Qed.

(** ** Lists of lists under an update *)

Lemma concat_insert_perm {A} (l : list (list A)) (i : nat) (x y : list A) :
  l !! i = Some x -> concat (<[i := y]> l) ++ x ≡ₚ concat l ++ y.
Proof.
  revert i. induction l as [|z l IH]; intros [|i] Hi; simplify_eq/=.
  - rewrite <- !app_assoc. rewrite (Permutation_app_comm (concat l) x).
    rewrite (Permutation_app_comm (concat l) y).
    rewrite !app_assoc. by rewrite (Permutation_app_comm y x).
  - rewrite <- !app_assoc. by rewrite (IH i Hi).
Qed.

Lemma concat_zip_with_insert {A B C} (g : A -> B -> list C)
    (ps : list A) (ns : list B) (i : nat) (p p' : A) (n n' : B)
    (old new : list C) :
  ps !! i = Some p -> ns !! i = Some n -> g p n = old -> g p' n' = new ->
  concat (zip_with g (<[i := p']> ps) (<[i := n']> ns)) ++ old
  ≡ₚ concat (zip_with g ps ns) ++ new.
Proof.
  intros Hp Hn <- <-. rewrite <- insert_zip_with. apply concat_insert_perm.
  rewrite lookup_zip_with, Hp. simpl. by rewrite Hn.
Qed.

Lemma concat_zip_with_replicate_nil {A B C} (g : A -> B -> list C)
    (a : A) (b : B) (n m : nat) :
  g a b = [] -> concat (zip_with g (replicate n a) (replicate m b)) = [].
Proof.
  intros Hg. revert m. induction n as [|n IH]; intros [|m]; simpl; try done.
  by rewrite Hg, IH.
Qed.

(** The used and the unused positions of a graph make up the graph. *)
Lemma used_unused_perm {A} (us : list bool) (g : list A) :
  length us = length g ->
  concat (zip_with (fun (u : bool) f => if u then [f] else []) us g) ++
  concat (zip_with (fun (u : bool) f => if u then [] else [f]) us g) ≡ₚ g.
Proof.
  revert g. induction us as [|u us IH]; intros [|f g] Hlen; simplify_eq/=; [done|].
  destruct u; simpl.
  - by rewrite IH.
  - rewrite <- Permutation_middle. by rewrite IH.
Qed.

(** ** The construction sweep keeps its invariant *)

Section SweepInvariant.
Import EliminationTree EliminationTreeInv.
Context {Factor : Type}.
Variable graph : list Factor.
Variable structure : gmap nat (list nat).
Variable order : list nat.
Local Abbreviation Locals := (Locals (Factor:=Factor)).
Local Abbreviation Inv := (Inv graph structure order).
Implicit Types (st : Locals) (E : exception -> Prop).

Lemma ensures_read {A} E (field : Locals -> list A) i st (Q : A -> Locals -> Prop) :
  (forall x, field st !! i = Some x -> Q x st) ->
  (field st !! i = None -> E undefined_behaviour) ->
  ensures E (read field i) st Q.
Proof.
  intros HQ HE. unfold ensures, read, vec_at.
  destruct (field st !! i); auto.
Qed.

Lemma ensures_write {A} E (field : Locals -> list A) set_field i (x : A) st
    (Q : unit -> Locals -> Prop) :
  (i < length (field st) -> Q tt (set_field (<[i := x]> (field st)) st)) ->
  (length (field st) <= i -> E undefined_behaviour) ->
  ensures E (write field set_field i x) st Q.
Proof.
  intros HQ HE. unfold ensures, write, vec_set.
  destruct (decide (i < length (field st))); [auto|]. apply HE. lia.
Qed.

Lemma ensures_update_node E j (f : Node -> Node) st (Q : unit -> Locals -> Prop) :
  (forall nd, nodes st !! j = Some (Some nd) ->
     Q tt (set_nodes (<[j := Some (f nd)]> (nodes st)) st)) ->
  (nodes st !! j = None \/ nodes st !! j = Some None -> E undefined_behaviour) ->
  ensures E (update_node j f) st Q.
Proof.
  intros HQ HE. unfold update_node. apply ensures_bind, ensures_read.
  - intros [nd|] Hnd.
    + apply ensures_write; [auto|]. intros Hle.
      apply lookup_lt_Some in Hnd. lia.
    + apply ensures_throw. auto.
  - auto.
Qed.

(** The current column has no parent. *)
Lemma Inv_current_root j st :
  Inv (S j) st -> parents st !! j = Some None.
Proof.
  intros HI. destruct (lookup_lt_is_Some_2 (parents st) j) as [[p|] Hp]; [| |done].
  - rewrite (inv_parents_len _ _ _ _ _ HI). apply (inv_bound _ _ _ _ _ HI).
  - apply (inv_parents _ _ _ _ _ HI) in Hp. lia.
Qed.

(** The walk to the root ends within the bound, at a node without parent,
    and changes nothing. *)
Lemma find_root_spec E b st fuel k :
  Inv b st -> k < b -> b - k <= fuel ->
  ensures E (find_root fuel k) st
    (fun r st' => st' = st /\ r < b /\ parents st !! r = Some None).
Proof.
  intros HI. revert k. induction fuel as [|fuel IH]; intros k Hk Hfuel; [lia|].
  simpl. apply ensures_bind, ensures_read.
  - intros [p|] Hp.
    + apply (inv_parents _ _ _ _ _ HI) in Hp as [? ?]. apply IH; lia.
    + by apply ensures_ret.
  - intros Hnone. apply lookup_ge_None in Hnone.
    rewrite (inv_parents_len _ _ _ _ _ HI) in Hnone.
    pose proof (inv_bound _ _ _ _ _ HI). lia.
Qed.

Local Abbreviation node_share :=
  (fun (p : option nat) (nd : option (Node (Factor:=Factor))) =>
     match p with
     | None => shared_factors nd
     | Some _ => []
     end).

(** Creating the node of column [j] starts the column. *)
Lemma Inv_new_node j v st :
  Inv j st -> order !! j = Some v -> is_Some (structure !! v) ->
  Inv (S j) (set_nodes (<[j := Some (mkNode v [] [])]> (nodes st)) st).
Proof.
  intros HI Hv Hknown. apply lookup_lt_Some in Hv as Hj.
  destruct HI as [Hb Hln Hlp Hlc Hlu Hpar Hprev Hnodes Hnull Hcomp Hkn Hunused Hfac].
  constructor; simpl; try done.
  - by rewrite length_insert.
  - intros x p Hp. apply Hpar in Hp. lia.
  - intros i k Hk. apply Hprev in Hk. lia.
  - intros x Hx. destruct (decide (x = j)) as [->|Hne].
    + exists (mkNode v [] []). rewrite list_lookup_insert_eq by lia. done.
    + rewrite list_lookup_insert_ne by done. apply Hnodes. lia.
  - intros x Hx Hxn. rewrite list_lookup_insert_ne by lia. apply Hnull; lia.
  - intros x nd Hnd. apply list_lookup_insert_Some in Hnd as [(-> & ? & ?)|[? Hnd]].
    + by simplify_eq.
    + by eapply Hcomp.
  - intros x w Hx Hw. destruct (decide (x = j)) as [->|Hne].
    + by simplify_eq.
    + apply (Hkn x); [lia|done].
  - rewrite <- Hfac. unfold roots_factors. simpl.
    destruct (lookup_lt_is_Some_2 (parents st) j) as [p Hp]; [lia|].
    pose proof (concat_zip_with_insert node_share (parents st) (nodes st) j
                  p p None (Some (mkNode v [] [])) [] [] Hp
                  (Hnull j ltac:(lia) Hj) ltac:(by destruct p)
                  ltac:(by destruct p)) as HP.
    rewrite (list_insert_id _ _ _ Hp) in HP.
    by rewrite !app_nil_r in HP.
Qed.

Lemma subtree_factors_push_back_child (child : option Node) (nd : Node) :
  subtree_factors (push_back_child child nd) =
  subtree_factors nd ++ shared_factors (Factor:=Factor) child.
Proof.
  destruct nd as [k fs cs]. simpl. rewrite flat_map_app. simpl.
  rewrite app_nil_r, app_assoc. by destruct child.
Qed.

Lemma subtree_factors_push_back_factor (f : Factor) (nd : Node) :
  subtree_factors (push_back_factor f nd) ≡ₚ subtree_factors nd ++ [f].
Proof.
  destruct nd as [k fs cs]. simpl. rewrite <- !app_assoc.
  apply Permutation_app_head, Permutation_app_comm.
Qed.

(** Recording the column in [prevCol]. *)
Lemma Inv_set_prevCol j i st :
  Inv (S j) st -> Inv (S j) (set_prevCol (<[i := Some j]> (prevCol st)) st).
Proof.
  intros [Hb Hln Hlp Hlc Hlu Hpar Hprev Hnodes Hnull Hcomp Hkn Hunused Hfac].
  constructor; simpl; try done.
  - by rewrite length_insert.
  - intros i' k Hk. apply list_lookup_insert_Some in Hk as [(-> & ? & ?)|[? Hk]].
    + simplify_eq. lia.
    + by apply Hprev in Hk.
  - intros i' Hi'. apply list_lookup_insert_Some in Hi' as [(-> & ? & ?)|[? Hk]].
    + done.
    + by apply Hunused.
Qed.

(** The subtree of root [r] becomes a child of the current column [j]. *)
Lemma Inv_attach j r child ndj st :
  Inv (S j) st -> r <> j -> r < S j -> parents st !! r = Some None ->
  nodes st !! r = Some child -> nodes st !! j = Some (Some ndj) ->
  Inv (S j) (set_nodes (<[j := Some (push_back_child child ndj)]> (nodes st))
               (set_parents (<[r := Some j]> (parents st)) st)).
Proof.
  intros HI Hrj Hr Hpr Hnr Hnj. pose proof (Inv_current_root _ _ HI) as Hpj.
  destruct HI as [Hb Hln Hlp Hlc Hlu Hpar Hprev Hnodes Hnull Hcomp Hkn Hunused Hfac].
  apply lookup_lt_Some in Hnj as Hj.
  constructor; simpl; try done.
  - by rewrite length_insert.
  - by rewrite length_insert.
  - intros x p Hp. apply list_lookup_insert_Some in Hp as [(-> & ? & ?)|[? Hp]].
    + simplify_eq. lia.
    + by apply Hpar in Hp.
  - intros x Hx. destruct (decide (x = j)) as [->|Hne].
    + exists (push_back_child child ndj). rewrite list_lookup_insert_eq by done.
      split; [done|]. destruct (Hnodes j Hx) as (nd & Hnd & Hkey).
      by simplify_eq.
    + rewrite list_lookup_insert_ne by done. by apply Hnodes.
  - intros x Hx Hxn. rewrite list_lookup_insert_ne by lia. by apply Hnull.
  - intros x nd Hnd. apply list_lookup_insert_Some in Hnd as [(<- & ? & ?)|[? Hnd]].
    + simplify_eq. destruct ndj as [kj fsj csj]. simpl.
      rewrite forallb_app. apply andb_true_intro. split.
      * apply (Hcomp j _ Hnj).
      * simpl. destruct (Hnodes r Hr) as (ndr & Hndr & _).
        rewrite Hnr in Hndr. injection Hndr as ->.
        by rewrite (Hcomp r ndr Hnr).
    + by eapply Hcomp.
  - rewrite <- Hfac. unfold roots_factors. simpl.
    pose proof (concat_zip_with_insert node_share (parents st) (nodes st) r
                  None (Some j) child child (shared_factors child) []
                  Hpr Hnr eq_refl eq_refl) as H1.
    rewrite (list_insert_id (nodes st) _ _ Hnr) in H1.
    pose proof (concat_zip_with_insert node_share
                  (<[r := Some j]> (parents st)) (nodes st) j
                  None None (Some ndj) (Some (push_back_child child ndj))
                  (subtree_factors ndj)
                  (subtree_factors ndj ++ shared_factors child)) as H2.
    rewrite list_lookup_insert_ne in H2 by done.
    specialize (H2 Hpj Hnj eq_refl (subtree_factors_push_back_child _ _)).
    rewrite (list_insert_id (<[r := Some j]> (parents st)) j None) in H2
      by by rewrite list_lookup_insert_ne.
    rewrite app_nil_r in H1.
    apply (Permutation_app_inv_r (subtree_factors ndj)).
    rewrite H2, <- H1. rewrite <- !app_assoc.
    apply Permutation_app_head, Permutation_app_comm.
Qed.

(** The first column that touches factor [i] takes it. *)
Lemma Inv_first_visit j i f ndj st :
  Inv (S j) st -> prevCol st !! i = Some None -> graph !! i = Some f ->
  nodes st !! j = Some (Some ndj) ->
  Inv (S j)
    (set_prevCol (<[i := Some j]> (prevCol st))
       (set_factorUsed (<[i := true]> (factorUsed st))
          (set_nodes (<[j := Some (push_back_factor f ndj)]> (nodes st)) st))).
Proof.
  intros HI Hpc Hf Hnj. pose proof (Inv_current_root _ _ HI) as Hpj.
  destruct HI as [Hb Hln Hlp Hlc Hlu Hpar Hprev Hnodes Hnull Hcomp Hkn Hunused Hfac].
  apply lookup_lt_Some in Hnj as Hj.
  constructor; simpl; try done.
  - by rewrite length_insert.
  - by rewrite length_insert.
  - by rewrite length_insert.
  - intros i' k Hk. apply list_lookup_insert_Some in Hk as [(-> & ? & ?)|[? Hk]].
    + simplify_eq. lia.
    + by apply Hprev in Hk.
  - intros x Hx. destruct (decide (x = j)) as [->|Hne].
    + exists (push_back_factor f ndj). rewrite list_lookup_insert_eq by done.
      split; [done|]. destruct (Hnodes j Hx) as (nd & Hnd & Hkey).
      by simplify_eq.
    + rewrite list_lookup_insert_ne by done. by apply Hnodes.
  - intros x Hx Hxn. rewrite list_lookup_insert_ne by lia. by apply Hnull.
  - intros x nd Hnd. apply list_lookup_insert_Some in Hnd as [(<- & ? & ?)|[? Hnd]].
    + simplify_eq. destruct ndj as [kj fsj csj]. apply (Hcomp j _ Hnj).
    + by eapply Hcomp.
  - intros i' Hi'. apply list_lookup_insert_Some in Hi' as [(-> & ? & ?)|[? Hk]].
    + done.
    + rewrite list_lookup_insert_ne by done. by apply Hunused.
  - unfold roots_factors, used_factors in *. simpl.
    pose proof (concat_zip_with_insert node_share (parents st) (nodes st) j
                  None None (Some ndj) (Some (push_back_factor f ndj))
                  (subtree_factors ndj) (subtree_factors (push_back_factor f ndj))
                  Hpj Hnj eq_refl eq_refl) as H1.
    rewrite (list_insert_id (parents st) _ _ Hpj) in H1.
    pose proof (concat_zip_with_insert
                  (fun (u : bool) (f : Factor) => if u then [f] else [])
                  (factorUsed st) graph i false true f f [] [f]
                  (Hunused i Hpc) Hf eq_refl eq_refl) as H2.
    rewrite (list_insert_id graph _ _ Hf) in H2. rewrite app_nil_r in H2.
    apply (Permutation_app_inv_r (subtree_factors ndj)).
    rewrite H1, H2, Hfac, subtree_factors_push_back_factor.
    rewrite <- !app_assoc. apply Permutation_app_head, Permutation_app_comm.
Qed.

(** One visit of a factor index keeps the invariant of the started column;
    it can only fail on an index outside the graph. *)
Lemma visit_factor_spec j i st :
  Inv (S j) st ->
  ensures (visit_error graph i) (visit_factor graph j i) st
    (fun _ st' => Inv (S j) st').
Proof.
  intros HI. unfold visit_factor.
  apply ensures_bind, ensures_read.
  2:{ intros Hnone. apply lookup_ge_None in Hnone.
      rewrite (inv_prevCol_len _ _ _ _ _ HI) in Hnone. by split. }
  intros pc Hpc. apply lookup_lt_Some in Hpc as Hi.
  destruct (inv_nodes _ _ _ _ _ HI j ltac:(lia)) as (ndj & Hndj & _).
  apply ensures_bind. destruct pc as [k|].
  - (* the factor was seen in column k *)
    apply ensures_bind, ensures_get, ensures_bind.
    eapply ensures_weaken.
    { apply (find_root_spec _ (S j)); [done| |].
      - by apply (inv_prevCol _ _ _ _ _ HI) in Hpc.
      - rewrite (inv_parents_len _ _ _ _ _ HI).
        pose proof (inv_bound _ _ _ _ _ HI). lia. }
    intros r st' (-> & Hr & Hpr). simpl.
    destruct (decide (r <> j)) as [Hrj|Hrj].
    + apply lookup_lt_Some in Hpr as Hrlen.
      apply ensures_bind, ensures_write; [intros _|lia].
      apply ensures_bind, ensures_read.
      2:{ simpl. intros Hnone. apply lookup_ge_None in Hnone.
          rewrite (inv_nodes_len _ _ _ _ _ HI) in Hnone.
          rewrite (inv_parents_len _ _ _ _ _ HI) in Hrlen. lia. }
      intros child Hchild. simpl in Hchild.
      apply ensures_update_node.
      2:{ simpl. rewrite Hndj. by intros [?|?]. }
      intros nd Hnd. simpl in Hnd. simplify_eq.
      apply ensures_write.
      * intros _.
        apply (Inv_set_prevCol j i
                 (set_nodes (<[j := Some (push_back_child child ndj)]> (nodes st))
                    (set_parents (<[r := Some j]> (parents st)) st))).
        by apply Inv_attach.
      * simpl. lia.
    + apply ensures_ret, ensures_write; [|lia].
      intros _. by apply Inv_set_prevCol.
  - (* first column that touches the factor *)
    destruct (lookup_lt_is_Some_2 graph i) as [f Hf].
    { by rewrite <- (inv_prevCol_len _ _ _ _ _ HI). }
    apply ensures_bind, ensures_bind, ensures_lift.
    rewrite (vec_at_lookup _ _ _ Hf).
    apply ensures_update_node.
    2:{ rewrite Hndj. by intros [?|?]. }
    intros nd Hnd. simplify_eq.
    apply ensures_write.
    2:{ simpl. rewrite (inv_factorUsed_len _ _ _ _ _ HI).
        rewrite (inv_prevCol_len _ _ _ _ _ HI) in Hi. lia. }
    intros _. apply ensures_write; [|simpl; lia].
    intros _. exact (Inv_first_visit j i f ndj st HI Hpc Hf Hndj).
Qed.

Variable lookup_what : string.

(** A column keeps the invariant and starts the next one; it can only fail
    on a variable unknown to the variable index or on a factor index outside
    the graph. *)
Lemma column_spec j st :
  Inv j st -> j < length order ->
  ensures (column_error graph structure order lookup_what j)
    (column lookup_what graph structure order j) st
    (fun _ st' => Inv (S j) st').
Proof.
  intros HI Hj. destruct (lookup_lt_is_Some_2 order j Hj) as [v Hv].
  unfold column. apply ensures_bind, ensures_lift.
  rewrite (vec_at_lookup _ _ _ Hv).
  apply ensures_bind, ensures_lift. unfold VariableIndex_at.
  destruct (structure !! v) as [fs|] eqn:Hfs.
  2:{ exists v. split; [done|]. by left. }
  apply ensures_bind, ensures_write.
  2:{ rewrite (inv_nodes_len _ _ _ _ _ HI). lia. }
  intros Hjn. apply ensures_bind, ensures_update_node.
  2:{ simpl. rewrite list_lookup_insert_eq by done. by intros [?|?]. }
  intros nd Hnd. simpl in Hnd. rewrite list_lookup_insert_eq in Hnd by done.
  simplify_eq. simpl.
  assert (Inv (S j)
            (set_nodes
               (<[j := Some (set_key v (mkNode 0 [] []))]>
                  (<[j := Some (mkNode 0 [] [])]> (nodes st)))
               (set_nodes (<[j := Some (mkNode 0 [] [])]> (nodes st)) st)))
    as HI'.
  { rewrite list_insert_insert_eq.
    exact (Inv_new_node j v st HI Hv ltac:(by rewrite Hfs)). }
  eapply ensures_mono.
  - apply (ensures_foldM (fun e => exists i, i ∈ fs /\ visit_error graph i e)
             (fun (_ : unit) i => visit_factor graph j i)
             (fun _ st' => Inv (S j) st')); [|exact HI'].
    intros [] i st' Hi HIst. eapply ensures_mono.
    + by apply visit_factor_spec.
    + intros e He. by exists i.
  - intros e (i & Hi & He). exists v. split; [done|]. right. by exists fs, i.
Qed.

(** The sweep, before its exceptions are translated. *)
Lemma columns_spec :
  ensures (fun e => exists j, j < length order /\
                      column_error graph structure order lookup_what j e)
    (foldM (fun (_ : unit) j => column lookup_what graph structure order j) tt
       (seq 0 (length order)))
    (allocate graph order)
    (fun _ st' => Inv (length order) st').
Proof.
  apply (ensures_foldM_seq
           (column_error graph structure order lookup_what)
           (fun (_ : unit) j => column lookup_what graph structure order j)
           (fun j _ st' => Inv j st') (length order)).
  - intros j [] st Hj HI. by apply column_spec.
  - lia.
  - unfold allocate. constructor; simpl; try done; try lia.
    + by rewrite length_replicate.
    + by rewrite length_replicate.
    + by rewrite length_replicate.
    + by rewrite length_replicate.
    + intros x p Hp. by apply lookup_replicate in Hp as [? ?].
    + intros i k Hk. by apply lookup_replicate in Hk as [? ?].
    + intros x _ Hx. by apply lookup_replicate_2.
    + intros x nd Hnd. by apply lookup_replicate in Hnd as [? ?].
    + intros i Hi. apply lookup_replicate in Hi as [_ Hi].
      by apply lookup_replicate_2.
    + unfold roots_factors, used_factors. simpl.
      rewrite (concat_zip_with_replicate_nil _ None None) by done.
      clear. generalize (length graph) at 1. intros n. revert n.
      induction graph as [|f g IH]; intros [|n]; simpl; done.
Qed.

Local Abbreviation rethrown :=
  "EliminationTree: given ordering contains variables that are not involved in the factor graph".

(** The sweep with its [catch] clauses: an exception of a column leaves the
    constructor as it is, except [std::invalid_argument], whose message is
    replaced. *)
Lemma sweep_spec :
  ensures (fun e => exists j e0, j < length order /\
                      column_error graph structure order lookup_what j e0 /\
                      e = match e0 with
                          | invalid_argument _ => invalid_argument rethrown
                          | _ => e0
                          end)
    (sweep lookup_what graph structure order)
    (allocate graph order)
    (fun _ st' => Inv (length order) st').
Proof.
  pose proof columns_spec as H. unfold ensures, sweep, rethrow_invalid_argument in *.
  destruct (foldM _ _ _ _) as [[[]|e] st']; [done|].
  destruct H as (j & Hj & He).
  destruct e; exists j; eexists; (split; [done|]); (split; [exact He|]); done.
Qed.

Lemma roots_upto_S j st p nd :
  parents st !! j = Some p -> nodes st !! j = Some nd ->
  roots_upto (S j) st =
  roots_upto j st ++ match p with None => [nd] | Some _ => [] end.
Proof.
  intros Hp Hnd. unfold roots_upto.
  rewrite (zip_with_take_S _ _ _ _ _ _ Hp Hnd), concat_app. simpl.
  by rewrite app_nil_r.
Qed.

Lemma remaining_upto_S i st (u : bool) f :
  factorUsed st !! i = Some u -> graph !! i = Some f ->
  remaining_upto graph (S i) st =
  remaining_upto graph i st ++ (if u then [] else [f]).
Proof.
  intros Hu Hf. unfold remaining_upto.
  rewrite (zip_with_take_S _ _ _ _ _ _ Hu Hf), concat_app. simpl.
  by rewrite app_nil_r.
Qed.

(** The loop that collects the roots. *)
Lemma find_roots_run st :
  length (parents st) = length order -> length (nodes st) = length order ->
  find_roots order st = (Ok (roots_upto (length order) st), st).
Proof.
  intros Hlp Hln. unfold find_roots.
  match goal with |- foldM ?b _ _ _ = _ =>
    destruct (foldM_seq_invariant b
                (fun j roots s => s = st /\ roots = roots_upto j st)
                (length order)) with (k := length order) (lo := 0)
                (acc := @nil (option (Node (Factor:=Factor)))) (s := st)
      as (roots & s & -> & -> & ->)
  end; [|lia|done|done].
  intros j roots s Hj [-> ->].
  destruct (lookup_lt_is_Some_2 (parents st) j) as [p Hp]; [lia|].
  destruct (lookup_lt_is_Some_2 (nodes st) j) as [nd Hnd]; [lia|].
  exists (roots_upto (S j) st), st.
  rewrite Nat.add_1_r. split; [|done]. rewrite (roots_upto_S _ _ _ _ Hp Hnd).
  unfold bind, read, ret. rewrite (vec_at_lookup _ _ _ Hp).
  destruct p; [by rewrite app_nil_r|]. by rewrite (vec_at_lookup _ _ _ Hnd).
Qed.

(** The loop that collects the factors no column has used. *)
Lemma gather_remaining_run st :
  length (factorUsed st) = length graph ->
  gather_remaining graph st =
  (Ok (remaining_upto graph (length graph) st), st).
Proof.
  intros Hlu. unfold gather_remaining.
  match goal with |- foldM ?b _ _ _ = _ =>
    destruct (foldM_seq_invariant b
                (fun i remaining s => s = st /\ remaining = remaining_upto graph i st)
                (length graph)) with (k := length graph) (lo := 0)
                (acc := @nil Factor) (s := st)
      as (remaining & s & -> & -> & ->)
  end; [|lia|done|done].
  intros i remaining s Hi [-> ->].
  destruct (lookup_lt_is_Some_2 (factorUsed st) i) as [u Hu]; [lia|].
  destruct (lookup_lt_is_Some_2 graph i Hi) as [f Hf].
  exists (remaining_upto graph (S i) st), st.
  rewrite Nat.add_1_r. split; [|done]. rewrite (remaining_upto_S _ _ _ _ Hu Hf).
  unfold bind, read, ret, lift. rewrite (vec_at_lookup _ _ _ Hu).
  destruct u; [by rewrite app_nil_r|]. by rewrite (vec_at_lookup _ _ _ Hf).
Qed.

(** The collected roots hold the factors of the trees without parent. *)
Lemma forest_factors_roots st :
  forest_factors (roots_upto (length order) st) =
  concat (zip_with node_share (take (length order) (parents st))
            (take (length order) (nodes st))).
Proof.
  unfold forest_factors, roots_upto.
  generalize (take (length order) (parents st)) (take (length order) (nodes st)).
  intros ps. induction ps as [|p ps IH]; intros [|nd ns]; simpl; try done.
  rewrite flat_map_app, IH. destruct p; simpl; [done|]. by rewrite app_nil_r.
Qed.

Variable NDEBUG : bool.

(** The sweep leaves the last column without parent. *)
Lemma Inv_last_root st :
  Inv (length order) st -> order <> [] -> last (parents st) = Some None.
Proof.
  intros HI Hne. rewrite last_lookup, (inv_parents_len _ _ _ _ _ HI).
  assert (0 < length order) as Hpos by (destruct order; simpl; [done|lia]).
  apply Inv_current_root.
  by replace (S (pred (length order))) with (length order) by lia.
Qed.

(** What follows the sweep: the assertion holds (evaluating it on an empty
    ordering is undefined), and the two collecting loops cannot fail. *)
Lemma after_sweep_run st :
  Inv (length order) st ->
  (assert_ NDEBUG last_is_root >>
   let* roots := find_roots order in
   let* remaining := gather_remaining graph in
   ret (mkTree roots remaining)) st =
  if NDEBUG || bool_decide (order <> []) then
    (Ok (mkTree (roots_upto (length order) st)
                (remaining_upto graph (length graph) st)), st)
  else (Err undefined_behaviour, st).
Proof.
  intros HI.
  assert ((let* roots := find_roots order in
           let* remaining := gather_remaining graph in
           ret (mkTree roots remaining)) st =
          (Ok (mkTree (roots_upto (length order) st)
                      (remaining_upto graph (length graph) st)), st)) as Hloops.
  { unfold bind. rewrite find_roots_run, gather_remaining_run; try apply HI. done. }
  unfold bind at 1. unfold assert_. destruct NDEBUG; simpl; [exact Hloops|].
  unfold bind at 1. unfold last_is_root. case_bool_decide as Hne.
  - rewrite (Inv_last_root st HI Hne). simpl. exact Hloops.
  - assert (order = []) as Ho by (by destruct order).
    rewrite last_lookup, (inv_parents_len _ _ _ _ _ HI), Ho. simpl.
    destruct (parents st) eqn:Hp; [done|].
    pose proof (inv_parents_len _ _ _ _ _ HI) as Hl. by rewrite Hp, Ho in Hl.
Qed.

(** A tree the constructor returns is read off the vectors the sweep
    leaves. *)
Lemma construct_Ok tree :
  construct NDEBUG lookup_what graph structure order = Ok tree ->
  exists st,
    sweep lookup_what graph structure order (allocate graph order) = (Ok tt, st) /\
    Inv (length order) st /\
    tree = mkTree (roots_upto (length order) st)
                  (remaining_upto graph (length graph) st).
Proof.
  unfold construct, constructor_body. unfold bind at 1.
  pose proof sweep_spec as HI. unfold ensures in HI.
  destruct (sweep _ _ _ _ _) as [[[]|e] st]; [|done].
  rewrite after_sweep_run by done. intros H. exists st. split; [done|].
  split; [done|]. destruct (NDEBUG || _); simpl in H; congruence.
Qed.

(** The exceptions that leave the constructor: the translated
    [std::invalid_argument], or undefined behaviour was reached.  No
    assertion fails and the walk to the root always ends. *)
Lemma construct_Err e :
  construct NDEBUG lookup_what graph structure order = Err e ->
  e = invalid_argument rethrown \/ e = undefined_behaviour.
Proof.
  unfold construct, constructor_body. unfold bind at 1.
  pose proof sweep_spec as HI. unfold ensures in HI.
  destruct (sweep _ _ _ _ _) as [[[]|e0] st].
  - rewrite after_sweep_run by done.
    destruct (NDEBUG || _); simpl; intros ?; simplify_eq. by right.
  - simpl. intros ?; simplify_eq.
    destruct HI as (j & e1 & Hj & (v & Hv & [[_ ->]|(fs & i & _ & _ & -> & _)]) & ->);
      auto.
Qed.

(** The roots of a tree the constructor returns are not null, and no
    pointer below them is. *)
Lemma construct_roots_complete tree :
  construct NDEBUG lookup_what graph structure order = Ok tree ->
  Forall (fun r => exists nd, r = Some nd /\ Node_complete nd = true) (roots_ tree).
Proof.
  intros (st & _ & HI & ->)%construct_Ok. simpl.
  assert (forall r, r ∈ roots_upto (length order) st -> r ∈ nodes st) as Hin.
  { unfold roots_upto. rewrite !take_ge
      by (by rewrite ?(inv_nodes_len _ _ _ _ _ HI), ?(inv_parents_len _ _ _ _ _ HI)).
    generalize (parents st) (nodes st). intros ps.
    induction ps as [|p ps IH]; intros [|nd ns] r; simpl; try by intros ?%elem_of_nil.
    rewrite elem_of_app, elem_of_cons. intros [Hr|Hr].
    - destruct p; [by apply elem_of_nil in Hr|]. left.
      by apply list_elem_of_singleton in Hr.
    - right. by apply IH. }
  apply Forall_forall. intros r Hr%Hin. apply list_elem_of_lookup in Hr as [x Hx].
  apply lookup_lt_Some in Hx as Hlt. rewrite (inv_nodes_len _ _ _ _ _ HI) in Hlt.
  destruct (inv_nodes _ _ _ _ _ HI x Hlt) as (nd & Hnd & _).
  exists nd. split; [congruence|]. by eapply (inv_complete _ _ _ _ _ HI).
Qed.

(** The constructor returns a tree when the variable index lists positions
    of the graph only and knows every variable of the ordering (and, with
    assertions compiled in, the ordering is not empty). *)
Lemma construct_total :
  VariableIndex_wf graph structure ->
  (forall v, v ∈ order -> is_Some (structure !! v)) ->
  NDEBUG || bool_decide (order <> []) = true ->
  exists tree, construct NDEBUG lookup_what graph structure order = Ok tree.
Proof.
  intros Hwf Hknown Hassert. unfold construct, constructor_body. unfold bind at 1.
  pose proof sweep_spec as HI. unfold ensures in HI.
  destruct (sweep _ _ _ _ _) as [[[]|e0] st].
  - rewrite after_sweep_run, Hassert by done. simpl. eauto.
  - exfalso.
    destruct HI as (j & e1 & Hj & (w & Hw & [[Hnone _]|(fs & i & Hfs & Hi & _ & Hge)]) & _).
    + destruct (Hknown w) as [fs Hfs]; [|congruence].
      by apply list_elem_of_lookup_2 in Hw.
    + apply (map_Forall_lookup_1 _ _ _ _ Hwf) in Hfs.
      rewrite Forall_forall in Hfs. apply Hfs in Hi. lia.
Qed.

(** C1. When the three-argument constructor returns a tree, the factors
    held by the nodes of the forest together with [remainingFactors_] are
    the factors of the graph, each position of the graph counted exactly
    once: none is duplicated and none is dropped. *)
Theorem construct_partitions_factors tree :
  construct NDEBUG lookup_what graph structure order = Ok tree ->
  forest_factors (roots_ tree) ++ remainingFactors_ tree ≡ₚ graph.
Proof.
  intros (st & _ & HI & ->)%construct_Ok. simpl.
  rewrite forest_factors_roots. unfold remaining_upto.
  rewrite !take_ge.
  - change (roots_factors st ++
            concat (zip_with (fun (u : bool) f => if u then [] else [f])
                      (factorUsed st) graph) ≡ₚ graph).
    rewrite (inv_factors _ _ _ _ _ HI). apply used_unused_perm.
    apply (inv_factorUsed_len _ _ _ _ _ HI).
  - done.
  - by rewrite (inv_factorUsed_len _ _ _ _ _ HI).
  - by rewrite (inv_nodes_len _ _ _ _ _ HI).
  - by rewrite (inv_parents_len _ _ _ _ _ HI).
Qed.

(** C5 (as amended). When the variable index lists positions of the graph
    only and does not know some variable of the ordering, the constructor
    throws [std::invalid_argument] with the message of its [catch] clause,
    not the exception of the lookup. *)
Theorem construct_rejects_unknown_variable :
  VariableIndex_wf graph structure ->
  (exists v, v ∈ order /\ structure !! v = None) ->
  construct NDEBUG lookup_what graph structure order =
  Err (invalid_argument
         "EliminationTree: given ordering contains variables that are not involved in the factor graph").
Proof.
  intros Hwf (v & Hv & Hunknown).
  destruct (construct NDEBUG lookup_what graph structure order) as [tree|e] eqn:Hc.
  - apply construct_Ok in Hc as (st & _ & HI & _).
    apply list_elem_of_lookup in Hv as [x Hx].
    destruct (inv_known _ _ _ _ _ HI x v) as [fs Hfs]; [|done|congruence].
    by apply lookup_lt_Some in Hx.
  - f_equal. revert Hc. unfold construct, constructor_body. unfold bind at 1.
    pose proof sweep_spec as HI. unfold ensures in HI.
    destruct (sweep _ _ _ _ _) as [[[]|e0] st].
    + rewrite after_sweep_run by done. intros Hc. exfalso.
      apply list_elem_of_lookup in Hv as [x Hx].
      destruct (inv_known _ _ _ _ _ HI x v) as [fs Hfs]; [|done|congruence].
      by apply lookup_lt_Some in Hx.
    + simpl. intros ?; simplify_eq.
      destruct HI as (j & e1 & Hj & (w & Hw & [[_ ->]|(fs & i & Hfs & Hi & _ & Hge)]) & ->);
        [done|].
      exfalso. apply (map_Forall_lookup_1 _ _ _ _ Hwf) in Hfs.
      rewrite Forall_forall in Hfs. apply Hfs in Hi. lia.
Qed.

(** C8. After a sweep that succeeded on a non-empty ordering, the last
    column has no parent, its node exists and carries the last variable of
    the ordering, and the condition of the assertion evaluates to true. *)
Theorem last_column_is_root st :
  order <> [] ->
  sweep lookup_what graph structure order (allocate graph order) = (Ok tt, st) ->
  last (parents st) = Some None /\
  (exists nd, last (nodes st) = Some (Some nd) /\ last order = Some (key nd)) /\
  last_is_root st = (Ok true, st).
Proof.
  intros Hne Hsweep. pose proof sweep_spec as HI. unfold ensures in HI.
  rewrite Hsweep in HI. pose proof (Inv_last_root st HI Hne) as Hlast.
  split; [done|]. split.
  - rewrite !last_lookup, (inv_nodes_len _ _ _ _ _ HI).
    apply (inv_nodes _ _ _ _ _ HI).
    destruct order; simpl; [done|lia].
  - unfold last_is_root. by rewrite Hlast.
Qed.

End SweepInvariant.

(** ** Elimination *)

Section Elimination.
Import EliminationTree.
Context {Factor Conditional : Type}.
Variable NDEBUG : bool.
Local Abbreviation Node := (Node (Factor:=Factor)).
Local Abbreviation Eliminate := (Eliminate (Factor:=Factor) (Conditional:=Conditional)).

(** C4. With one result per child, [Node::eliminate] calls the elimination
    function on the node's factors followed by the children's results, in
    that order, and on the key list that holds the node's key and nothing
    else; the conditional returned is appended to the Bayes net and the
    separator factor returned is the result.  An exception of the function
    leaves the Bayes net as it was. *)
Theorem Node_eliminate_gathers (this : Node) (function : Eliminate)
    (childrenResults : list Factor) (output : list Conditional) :
  length childrenResults = length (children this) ->
  Node_eliminate NDEBUG this function childrenResults output =
  match function (factors this ++ childrenResults) [key this] with
  | Ok (conditional, separatorFactor) =>
      (Ok separatorFactor, output ++ [conditional])
  | Err e => (Err e, output)
  end.
Proof.
  intros Hlen. unfold Node_eliminate, assert_, bind, lift, modify, ret.
  rewrite bool_decide_true by done. simpl.
  destruct NDEBUG; simpl;
    by destruct (function _ _) as [[conditional separatorFactor]|e].
Qed.

(** [eliminate] returns the construction-time remaining factors followed by
    what the traversal returns. *)
Lemma eliminate_via_remaining traversal (tree : EliminationTree) (function : Eliminate)
    bn remaining :
  eliminate_via traversal tree function = Ok (bn, remaining) ->
  exists fs, traversal tree function [] = (Ok fs, bn) /\
             remaining = remainingFactors_ tree ++ fs.
Proof.
  unfold eliminate_via.
  destruct (traversal tree function []) as [[fs|e] bn']; [|done].
  intros ?; simplify_eq. by exists fs.
Qed.

(** The traversal returns no factor: the separator factors of the roots are
    dropped. *)
Lemma EliminateTree_returns_nothing (tree : EliminationTree) (function : Eliminate)
    output fs bn :
  EliminateTree NDEBUG tree function output = (Ok fs, bn) -> fs = [].
Proof.
  unfold EliminateTree, bind, ret.
  destruct (foldM _ _ _ _) as [[[]|e] s]; intros ?; by simplify_eq.
Qed.

(** C3. When [eliminate] returns, the graph it returns as second component
    holds the construction-time [remainingFactors_] and nothing else: no
    separator factor of a root is added. *)
Theorem eliminate_returns_remaining (tree : EliminationTree) (function : Eliminate)
    bn remaining :
  eliminate NDEBUG tree function = Ok (bn, remaining) ->
  remaining = remainingFactors_ tree.
Proof.
  intros (fs & Hfs & ->)%eliminate_via_remaining.
  apply EliminateTree_returns_nothing in Hfs as ->. by rewrite app_nil_r.
Qed.

(** A function that does not throw, on a node with one result per child. *)
Lemma Node_eliminate_returns (this : Node) (function : Eliminate)
    (childrenResults : list Factor) (output : list Conditional) :
  (forall gathered keys, exists r, function gathered keys = Ok r) ->
  length childrenResults = length (children this) ->
  exists f output', Node_eliminate NDEBUG this function childrenResults output
                    = (Ok f, output').
Proof.
  intros Htotal Hlen. unfold Node_eliminate, assert_, bind, lift, modify, ret.
  rewrite bool_decide_true by done.
  destruct (Htotal (factors this ++ childrenResults) [key this]) as [r Hr].
  destruct NDEBUG; simpl in *; rewrite Hr; eauto.
Qed.

(** The traversal below a node returns when the function does not throw
    and no pointer below the node is null. *)
Lemma eliminate_subtree_returns (function : Eliminate) :
  (forall gathered keys, exists r, function gathered keys = Ok r) ->
  forall (nd : Node) (output : list Conditional),
    Node_complete nd = true ->
    exists f output', eliminate_subtree NDEBUG function nd output = (Ok f, output').
Proof.
  intros Htotal. fix IH 1. intros [k fs cs] output Hcomplete. simpl in *.
  assert (forall out, exists rs out',
            for_children (eliminate_subtree NDEBUG function) cs out = (Ok rs, out')
            /\ length rs = length cs) as Hchildren.
  { clear k fs output. induction cs as [|[child|] cs IHcs]; intros out; simpl in *.
    - by exists [], out.
    - apply andb_prop in Hcomplete as [Hchild Hcs].
      destruct (IH child out Hchild) as (f & out1 & Hf).
      destruct (IHcs Hcs out1) as (rs & out2 & Hrs & Hlen).
      exists (f :: rs), out2. unfold bind, ret. rewrite Hf, Hrs. simpl.
      by rewrite Hlen.
    - done. }
  unfold bind. destruct (Hchildren output) as (rs & out' & -> & Hlen).
  by apply Node_eliminate_returns.
Qed.

(** [eliminate] returns when the function does not throw and the forest has
    no null pointer. *)
Lemma eliminate_returns (tree : EliminationTree) (function : Eliminate) :
  (forall gathered keys, exists r, function gathered keys = Ok r) ->
  Forall (fun r => exists nd, r = Some nd /\ Node_complete nd = true) (roots_ tree) ->
  exists bn, eliminate NDEBUG tree function = Ok (bn, remainingFactors_ tree).
Proof.
  intros Htotal Hroots. unfold eliminate, eliminate_via, EliminateTree.
  unfold bind at 1.
  assert (forall out, exists out',
            foldM (fun (_ : unit) (root : option Node) =>
                     match root with
                     | Some nd =>
                         let* _ := eliminate_subtree NDEBUG function nd in ret tt
                     | None => throw undefined_behaviour
                     end) tt (roots_ tree) out = (Ok tt, out')) as Hrun.
  { induction Hroots as [|r roots (nd & -> & Hnd) _ IH]; intros out; simpl.
    - by exists out.
    - unfold bind at 1. unfold bind at 1.
      destruct (eliminate_subtree_returns function Htotal nd out Hnd)
        as (f & out1 & ->). simpl. apply IH. }
  destruct (Hrun []) as (bn & ->). exists bn. simpl. by rewrite app_nil_r.
Qed.

End Elimination.

(** ** The scenario *)

Section ScenarioFacts.
Import EliminationTree EliminationTreeInv Scenario.

Example chain_constructs :
  construct false "unknown variable" chain_graph chain_structure [1; 3; 2]
  = Ok chain_tree.
Proof. vm_compute. reflexivity. Qed.

Example chain_path :
  construct false "unknown variable" ["f12"; "f23"] chain_structure [1; 2; 3]
  = Ok (mkTree
          [Some (mkNode 3 []
                   [Some (mkNode 2 ["f23"] [Some (mkNode 1 ["f12"] [])])])]
          []).
Proof. vm_compute. reflexivity. Qed.

Example chain_eliminates :
  eliminate false chain_tree record_call
  = Ok ([[1]; [3]; [2]], ["f4"]).
Proof. vm_compute. reflexivity. Qed.

Lemma chain_structure_wf : VariableIndex_wf chain_graph chain_structure.
Proof.
  unfold VariableIndex_wf, chain_structure.
  repeat (apply map_Forall_insert_2; [repeat constructor; simpl; lia|]).
  apply map_Forall_empty.
Qed.

End ScenarioFacts.

(** [eliminate] returns on every tree the constructor returns, for every
    elimination function that does not throw. *)
Lemma eliminate_of_constructed_returns {Factor Conditional : Type}
    (NDEBUG : bool) (lookup_what : string) (graph : list Factor)
    (structure : gmap nat (list nat)) (order : list nat)
    (tree : EliminationTree.EliminationTree)
    (function : EliminationTree.Eliminate (Conditional:=Conditional)) :
  EliminationTree.construct NDEBUG lookup_what graph structure order = Ok tree ->
  (forall gathered keys, exists r, function gathered keys = Ok r) ->
  exists bn,
    EliminationTree.eliminate NDEBUG tree function
    = Ok (bn, EliminationTree.remainingFactors_ tree).
Proof.
  intros Htree Htotal. apply eliminate_returns; [done|].
  by eapply construct_roots_complete.
Qed.

Lemma construct_partitions_factors_witness :
  EliminationTree.construct false "unknown variable" Scenario.chain_graph
    Scenario.chain_structure [1; 3; 2] = Ok Scenario.chain_tree /\
  EliminationTree.forest_factors (EliminationTree.roots_ Scenario.chain_tree)
    ++ EliminationTree.remainingFactors_ Scenario.chain_tree
  ≡ₚ Scenario.chain_graph.
Proof.
  assert (EliminationTree.construct false "unknown variable" Scenario.chain_graph
            Scenario.chain_structure [1; 3; 2] = Ok Scenario.chain_tree) as H
    by (vm_compute; reflexivity).
  split; [exact H|].
  exact (construct_partitions_factors Scenario.chain_graph Scenario.chain_structure
           [1; 3; 2] "unknown variable" false Scenario.chain_tree H).
Defined.

Lemma eliminate_returns_remaining_witness :
  EliminationTree.eliminate false Scenario.chain_tree Scenario.record_call
    = Ok ([[1]; [3]; [2]], ["f4"]) /\
  ["f4"] = EliminationTree.remainingFactors_ Scenario.chain_tree.
Proof.
  assert (EliminationTree.eliminate false Scenario.chain_tree Scenario.record_call
            = Ok ([[1]; [3]; [2]], ["f4"])) as H by (vm_compute; reflexivity).
  split; [exact H|].
  exact (eliminate_returns_remaining false Scenario.chain_tree Scenario.record_call
           [[1]; [3]; [2]] ["f4"] H).
Defined.

Lemma Node_eliminate_gathers_witness :
  let this := EliminationTree.mkNode 2 ["f23"]
                [Some (EliminationTree.mkNode 1 ["f12"] [])] in
  length ["s1"] = length (EliminationTree.children this) /\
  EliminationTree.Node_eliminate false this Scenario.record_call ["s1"] [[1]] =
  match Scenario.record_call (EliminationTree.factors this ++ ["s1"])
          [EliminationTree.key this] with
  | Ok (conditional, separatorFactor) => (Ok separatorFactor, [[1]] ++ [conditional])
  | Err e => (Err e, [[1]])
  end.
Proof.
  intros this. split; [reflexivity|].
  apply (Node_eliminate_gathers false this Scenario.record_call ["s1"] [[1]]).
  reflexivity.
Defined.

Lemma construct_rejects_unknown_variable_witness :
  EliminationTreeInv.VariableIndex_wf Scenario.chain_graph Scenario.chain_structure /\
  (exists v, v ∈ [1; 5; 2] /\ Scenario.chain_structure !! v = None) /\
  EliminationTree.construct false "unknown variable" Scenario.chain_graph
    Scenario.chain_structure [1; 5; 2] =
  Err (invalid_argument
         "EliminationTree: given ordering contains variables that are not involved in the factor graph").
Proof.
  assert (exists v, v ∈ [1; 5; 2] /\ Scenario.chain_structure !! v = None) as H.
  { exists 5. split; [|reflexivity]. apply list_elem_of_In. simpl. tauto. }
  split; [exact chain_structure_wf|]. split; [exact H|].
  exact (construct_rejects_unknown_variable Scenario.chain_graph
           Scenario.chain_structure [1; 5; 2] "unknown variable" false
           chain_structure_wf H).
Defined.

(** The claim as the specification states it names another message than the
    one the constructor throws. *)
Lemma construct_message_is_not_the_stated_one :
  EliminationTreeInv.VariableIndex_wf Scenario.chain_graph Scenario.chain_structure /\
  (exists v, v ∈ [1; 5; 2] /\ Scenario.chain_structure !! v = None) /\
  EliminationTree.construct false "unknown variable" Scenario.chain_graph
    Scenario.chain_structure [1; 5; 2] <>
  Err (invalid_argument
         "ordering references a variable absent from the factor graph").
Proof.
  split; [exact chain_structure_wf|]. split.
  - exists 5. split; [|reflexivity]. apply list_elem_of_In. simpl. tauto.
  - vm_compute. intros H. discriminate H.
Qed.

Lemma last_column_is_root_witness :
  let run := EliminationTree.sweep "unknown variable" Scenario.chain_graph
               Scenario.chain_structure [1; 3; 2]
               (EliminationTree.allocate Scenario.chain_graph [1; 3; 2]) in
  [1; 3; 2] <> [] /\
  run = (Ok tt, snd run) /\
  last (EliminationTree.parents (snd run)) = Some None /\
  (exists nd, last (EliminationTree.nodes (snd run)) = Some (Some nd) /\
              last [1; 3; 2] = Some (EliminationTree.key nd)) /\
  EliminationTree.last_is_root (snd run) = (Ok true, snd run).
Proof.
  intros run.
  assert ([1; 3; 2] <> @nil nat) as Hne by discriminate.
  assert (run = (Ok tt, snd run)) as Hrun by (vm_compute; reflexivity).
  split; [exact Hne|]. split; [exact Hrun|].
  exact (last_column_is_root Scenario.chain_graph Scenario.chain_structure
           [1; 3; 2] "unknown variable" (snd run) Hne Hrun).
Defined.

(* ================================================================== *)
(** * Part III: further properties of the code *)
(* ================================================================== *)

(** ** VectorValuesUnordered: the other methods *)

(** A loop that assigns slot [j] the value [g j], for [j] below [n]. *)
Lemma foldM_assign_slots {A} (body : unit -> nat -> method (list A) unit)
    (g : nat -> A) (n : nat) (s0 : list A) :
  n <= length s0 ->
  (forall j s, j < n -> s = map g (seq 0 j) ++ drop j s0 ->
     body tt j s = (Ok tt, <[j := g j]> s)) ->
  foldM body tt (seq 0 n) s0 = (Ok tt, map g (seq 0 n) ++ drop n s0).
Proof.
  intros Hn Hbody.
  destruct (foldM_seq_invariant body
              (fun j (_ : unit) s => s = map g (seq 0 j) ++ drop j s0) n)
    with (k := n) (lo := 0) (acc := tt) (s := s0) as ([] & s & -> & ->);
    [|lia|done|done].
  intros j [] s Hj ->. eexists tt, _. split; [by apply Hbody|].
  rewrite Nat.add_1_r, seq_S, map_app. simpl.
  apply insert_after_prefix; [|lia]. by rewrite length_map, length_seq.
Qed.

Lemma map_seq_lookup {A B} (f : A -> B) (d : A) (l : list A) :
  map (fun j => f (default d (l !! j))) (seq 0 (length l)) = map f l.
Proof.
  apply list_eq. intros i. rewrite !list_lookup_fmap.
  destruct (decide (i < length l)) as [Hi|Hi].
  - rewrite lookup_seq_lt by done. simpl.
    destruct (lookup_lt_is_Some_2 l i Hi) as [x Hx]. by rewrite Hx.
  - rewrite lookup_seq_ge by lia. by rewrite lookup_ge_None_2 by lia.
Qed.

Lemma Forall2_same_dim_flip {Scalar : Type} (a b : list (list Scalar)) :
  Forall2 VectorValues.same_dim a b -> Forall2 VectorValues.same_dim b a.
Proof.
  intros HF. apply Forall2_flip. eapply Forall2_impl; [exact HF|].
  intros x y Hxy. unfold VectorValues.same_dim in *. by symmetry.
Qed.

Section VectorValuesCoverage.
Context {Scalar : Type}.
Variable zero : Scalar.
Variables add mul sub : Scalar -> Scalar -> Scalar.
Variable indeterminate : Scalar.
Variable equal_with_abs_tol : list Scalar -> list Scalar -> Scalar -> bool.
Local Abbreviation Vector := (list Scalar).
Local Abbreviation Values := (list (list Scalar)).
Local Abbreviation same_dim := (@VectorValues.same_dim Scalar).
Local Abbreviation Vector_add := (VectorValues.Vector_add add).
Local Abbreviation Vector_sub := (VectorValues.Vector_sub sub).
Local Abbreviation Vector_dot := (VectorValues.Vector_dot zero add mul).
Local Abbreviation Vector_Zero := (VectorValues.Vector_Zero zero).

(** [Zero(x)] written out. *)
Lemma Zero_run (x : Values) :
  VectorValues.Zero zero x = Ok (map (fun v => Vector_Zero (length v)) x).
Proof.
  unfold VectorValues.Zero. unfold bind at 1. unfold modify.
  rewrite (foldM_assign_slots _
             (fun j => Vector_Zero (length (default [] (x !! j))))).
  - rewrite drop_ge by (by rewrite length_resize). rewrite app_nil_r.
    by rewrite (map_seq_lookup (fun v => Vector_Zero (length v))).
  - by rewrite length_resize.
  - intros j s Hj ->. destruct (lookup_lt_is_Some_2 x j Hj) as [xj Hxj].
    unfold bind, lift. rewrite (vec_at_lookup _ _ _ Hxj), Hxj. simpl.
    apply values_set_lt.
    rewrite length_app, length_map, length_seq, length_drop, length_resize. lia.
Qed.

(** X1. [Zero(x)] never fails; the store it returns has as many slots as
    [x], slot by slot of the same length, and every coefficient is zero. *)
Theorem Zero_same_structure_all_zero (x : Values) :
  exists z : Values,
    VectorValues.Zero zero x = Ok z /\
    Forall2 same_dim z x /\
    Forall (Forall (fun c => c = zero)) z.
Proof.
  exists (map (fun v => Vector_Zero (length v)) x). split; [apply Zero_run|].
  split.
  - apply Forall2_fmap_l, Forall_Forall2_diag, Forall_forall. intros v _.
    simpl. unfold VectorValues.same_dim, VectorValues.Vector_Zero.
    by rewrite length_replicate.
  - apply Forall_fmap, Forall_forall. intros v _. simpl.
    unfold VectorValues.Vector_Zero. apply Forall_forall.
    by intros c ->%elem_of_replicate_inv.
Qed.

(** X2. [x.setZero()] leaves in [x] the store that [Zero(x)] returns. *)
Theorem setZero_agrees_with_Zero (x : Values) :
  exists z : Values,
    VectorValues.setZero zero x = (Ok tt, z) /\ VectorValues.Zero zero x = Ok z.
Proof.
  exists (map (fun v => Vector_Zero (length v)) x). split; [done|apply Zero_run].
Qed.

(** X3. In an arithmetic where [0 + 0 = 0] and [0 * 0 = 0], the squared
    norm of [Zero(x)] is 0. *)
Theorem squaredNorm_of_Zero (x : Values) :
  add zero zero = zero -> mul zero zero = zero ->
  exists z : Values,
    VectorValues.Zero zero x = Ok z /\
    VectorValues.squaredNorm zero add mul z = (Ok zero, z).
Proof.
  intros Hadd Hmul. eexists. split; [apply Zero_run|].
  rewrite squaredNorm_unfold. do 2 f_equal.
  assert (forall n, VectorValues.Vector_squaredNorm zero add mul (Vector_Zero n) = zero)
    as Hslot.
  { intros n. unfold VectorValues.Vector_squaredNorm, VectorValues.Vector_Zero.
    induction n as [|n IH]; simpl; [done|]. by rewrite Hmul, Hadd. }
  induction x as [|v x IH]; simpl; [done|]. by rewrite Hslot, Hadd.
Qed.

(** X4. [resize(nVars, varDim)] never fails, whatever the store held: it
    leaves [nVars] slots, each of length [varDim]. *)
Theorem resize_dims (nVars varDim : nat) (this : Values) :
  exists s : Values,
    VectorValues.resize_ indeterminate nVars varDim this = (Ok tt, s) /\
    length s = nVars /\
    Forall (fun v => length v = varDim) s.
Proof.
  exists (replicate nVars (VectorValues.Vector_uninitialized indeterminate varDim)).
  split; [|split].
  - unfold VectorValues.resize_. unfold bind at 1. unfold modify.
    rewrite (foldM_assign_slots _
               (fun _ => VectorValues.Vector_uninitialized indeterminate varDim)).
    + rewrite drop_ge by (by rewrite length_resize). rewrite app_nil_r.
      do 2 f_equal. clear. generalize 0.
      induction nVars as [|n IH]; intros lo; simpl; [done|]. by rewrite IH.
    + by rewrite length_resize.
    + intros j s Hj ->. apply values_set_lt.
      rewrite length_app, length_map, length_seq, length_drop, length_resize. lia.
  - by rewrite length_replicate.
  - apply Forall_forall. intros v ->%elem_of_replicate_inv.
    unfold VectorValues.Vector_uninitialized. by rewrite length_replicate.
Qed.

Lemma Vector_resize_length n (v : Vector) :
  length (VectorValues.Vector_resize indeterminate n v) = n.
Proof.
  unfold VectorValues.Vector_resize. case_decide; [done|].
  by rewrite length_replicate.
Qed.

Local Abbreviation resizeLike_body other :=
  (fun (_ : unit) j =>
     let* oj := lift (vec_at other j) in
     let* tj := VectorValues.values_at j in
     VectorValues.values_set j
       (VectorValues.Vector_resize indeterminate (length oj) tj)).

(** X5. [resizeLike(other)] never fails, whatever the store held, and
    leaves a store with the structure of [other]: [hasSameStructure(other)]
    then returns true. *)
Theorem resizeLike_has_same_structure (other this : Values) :
  exists s : Values,
    VectorValues.resizeLike indeterminate other this = (Ok tt, s) /\
    Forall2 same_dim s other /\
    VectorValues.hasSameStructure other s = (Ok true, s).
Proof.
  unfold VectorValues.resizeLike. unfold bind at 1. unfold modify.
  set (s0 := resize (length other) [] this).
  assert (length s0 = length other) as Hs0 by apply length_resize.
  destruct (foldM_seq_invariant (resizeLike_body other)
              (fun j (_ : unit) (s : Values) =>
                 exists R, length R = j /\ s = R ++ drop j s0 /\
                           Forall2 same_dim R (take j other))
              (length other)) with (k := length other) (lo := 0) (acc := tt)
              (s := s0) as ([] & s & Hrun & R & HR & -> & HF).
  - intros j [] s Hj (R & HR & -> & HF).
    destruct (lookup_lt_is_Some_2 other j Hj) as [oj Hoj].
    destruct (lookup_lt_is_Some_2 s0 j) as [tj Htj]; [lia|].
    assert ((R ++ drop j s0) !! j = Some tj) as Hcur.
    { rewrite lookup_app_r by lia. rewrite HR, Nat.sub_diag, lookup_drop.
      by rewrite Nat.add_0_r. }
    eexists tt, _. unfold bind, lift.
    rewrite (vec_at_lookup _ _ _ Hoj), (values_at_lookup _ _ _ Hcur).
    rewrite values_set_lt by (rewrite length_app, length_drop; lia).
    split; [done|].
    exists (R ++ [VectorValues.Vector_resize indeterminate (length oj) tj]).
    split; [rewrite length_app; simpl; lia|]. split.
    + rewrite Nat.add_1_r. apply insert_after_prefix; [done|lia].
    + rewrite Nat.add_1_r, (take_S_r _ _ _ Hoj).
      apply Forall2_app; [done|]. constructor; [|constructor].
      apply Vector_resize_length.
  - lia.
  - exists []. by rewrite take_0, drop_0.
  - rewrite drop_ge, app_nil_r in Hrun by lia. rewrite take_ge in HF by lia.
    exists R. split; [done|]. split; [done|].
    rewrite hasSameStructure_unfold. by rewrite bool_decide_true.
Qed.

(** X6. When the store already has the structure of [other],
    [resizeLike(other)] changes nothing: the contents are kept, not reset. *)
Theorem resizeLike_keeps_matching_store (other this : Values) :
  Forall2 same_dim this other ->
  VectorValues.resizeLike indeterminate other this = (Ok tt, this).
Proof.
  intros HF. pose proof (Forall2_length _ _ _ HF) as Hlen.
  unfold VectorValues.resizeLike. unfold bind at 1. unfold modify.
  rewrite <- Hlen, resize_all.
  destruct (foldM_seq_invariant (resizeLike_body other)
              (fun _ (_ : unit) (s : Values) => s = this)
              (length this)) with (k := length this) (lo := 0) (acc := tt)
              (s := this) as ([] & s & -> & ->); [|lia|done|done].
  intros j [] s Hj ->.
  destruct (lookup_lt_is_Some_2 this j Hj) as [tj Htj].
  destruct (lookup_lt_is_Some_2 other j) as [oj Hoj]; [lia|].
  pose proof (Forall2_lookup_lr _ _ _ _ _ _ HF Htj Hoj) as Hdim.
  unfold VectorValues.same_dim in Hdim.
  exists tt, this. unfold bind, lift.
  rewrite (vec_at_lookup _ _ _ Hoj), (values_at_lookup _ _ _ Htj).
  rewrite values_set_lt by done. unfold VectorValues.Vector_resize.
  rewrite decide_True by done. by rewrite list_insert_id.
Qed.

(** X7. [hasSameStructure(other)] never fails and changes nothing; it
    returns true exactly when the two stores have the same number of slots
    and, in every slot, vectors of the same length. *)
Theorem hasSameStructure_decides (other this : Values) :
  exists b : bool,
    VectorValues.hasSameStructure other this = (Ok b, this) /\
    (b = true <->
     length this = length other /\
     forall j x y, this !! j = Some x -> other !! j = Some y -> length x = length y).
Proof.
  exists (bool_decide (Forall2 same_dim this other)).
  split; [apply hasSameStructure_unfold|].
  rewrite bool_decide_eq_true. apply same_structure_slots.
Qed.

(** [operator+] written out, for any coefficient operation. *)
Lemma operator_plus_cases (op : Scalar -> Scalar -> Scalar) (c this : Values) :
  VectorValues.operator_plus op indeterminate c this =
  if decide (length this = length c) then
    if decide (Forall2 same_dim this c) then
      (Ok (zip_with (zip_with op) this c), this)
    else
      (Err (invalid_argument
              "VectorValues::operator- called with different vector sizes"), this)
  else
    (Err (invalid_argument
            "VectorValues::operator+ called with different vector sizes"), this).
Proof.
  unfold VectorValues.operator_plus, bind, get, lift, VectorValues.size.
  destruct (SameStructure_ok indeterminate this) as (r0 & -> & Hr0).
  destruct (decide (length this = length c)) as [Hlen|Hlen].
  - rewrite bool_decide_true by done. simpl.
    destruct (decide (Forall2 same_dim this c)) as [HF|HF].
    + by apply plus_loop_ok.
    + by apply plus_loop_throws.
  - by rewrite bool_decide_false.
Qed.

(** X8. [a - b] throws [std::invalid_argument] when the slot counts differ
    or, with equal slot counts, some slot has another length in [b] than in
    [a]; otherwise it returns the store of the elementwise differences.  In
    every case [a] is unchanged. *)
Theorem operator_minus_mismatch_or_difference (a b : Values) :
  VectorValues.operator_minus indeterminate sub b a =
  if decide (length a = length b /\ Forall2 same_dim a b) then
    (Ok (zip_with Vector_sub a b), a)
  else
    (Err (invalid_argument
            "VectorValues::operator- called with different vector sizes"), a).
Proof.
  unfold VectorValues.operator_minus, bind, get, lift, VectorValues.size.
  destruct (SameStructure_ok indeterminate a) as (r0 & -> & Hr0).
  destruct (decide (length a = length b)) as [Hlen|Hlen].
  - rewrite bool_decide_true by done. simpl.
    destruct (decide (Forall2 same_dim a b)) as [HF|HF].
    + rewrite decide_True by done. by apply (plus_loop_ok sub).
    + rewrite decide_False by (by intros [? ?]). by apply (plus_loop_throws sub).
  - rewrite bool_decide_false by done. by rewrite decide_False by (by intros [? ?]).
Qed.

Lemma zip_with_cancel (x y : Vector) :
  (forall p q, sub (add p q) q = p) -> length x = length y ->
  zip_with sub (zip_with add x y) y = x.
Proof.
  intros Hcancel. revert y.
  induction x as [|p x IH]; intros [|q y] Hlen; simplify_eq/=; [done|].
  by rewrite Hcancel, IH.
Qed.

(** X9. In an arithmetic where [(p + q) - q = p], adding a structurally
    compatible store and subtracting it again gives back the first store. *)
Theorem plus_then_minus_round_trip (a b : Values) :
  (forall p q, sub (add p q) q = p) ->
  Forall2 same_dim a b ->
  exists s : Values,
    VectorValues.operator_plus add indeterminate b a = (Ok s, a) /\
    VectorValues.operator_minus indeterminate sub b s = (Ok a, s).
Proof.
  intros Hcancel HF. pose proof (Forall2_length _ _ _ HF) as Hlen.
  exists (zip_with Vector_add a b). split.
  - rewrite operator_plus_cases. by rewrite !decide_True.
  - assert (Forall2 same_dim (zip_with Vector_add a b) b) as HF'.
    { clear Hlen. induction HF as [|x y a b Hxy HF IH]; simpl; constructor; [|done].
      unfold VectorValues.same_dim, VectorValues.Vector_add in *.
      by rewrite length_zip_with_l_eq. }
    unfold VectorValues.operator_minus, bind, get, lift, VectorValues.size.
    destruct (SameStructure_ok indeterminate (zip_with Vector_add a b))
      as (r0 & -> & Hr0).
    rewrite bool_decide_true by (by apply Forall2_length in HF'). simpl.
    etrans; [exact (plus_loop_ok sub _ b r0 Hr0 HF')|]. do 2 f_equal.
    clear HF' Hr0 r0 Hlen.
    induction HF as [|x y a b Hxy HF IH]; simpl; [done|].
    rewrite IH. f_equal. by apply zip_with_cancel.
Qed.

(** X10. With a commutative addition of coefficients, [a + b] and [b + a]
    have the same outcome: the same store, or the same exception. *)
Theorem operator_plus_commutes (a b : Values) :
  (forall p q, add p q = add q p) ->
  fst (VectorValues.operator_plus add indeterminate b a) =
  fst (VectorValues.operator_plus add indeterminate a b).
Proof.
  intros Hcomm. rewrite !operator_plus_cases.
  destruct (decide (length a = length b)) as [Hlen|Hlen].
  - rewrite (decide_True (P := length b = length a)) by done.
    destruct (decide (Forall2 same_dim a b)) as [HF|HF].
    + rewrite decide_True by by apply Forall2_same_dim_flip.
      simpl. f_equal. clear Hlen.
      induction HF as [|x y a b Hxy HF IH]; simpl; [done|]. rewrite IH. f_equal.
      clear -Hcomm. unfold VectorValues.Vector_add. revert y.
      induction x as [|p x IH]; intros [|q y]; simpl; try done.
      by rewrite Hcomm, IH.
    + rewrite decide_False; [done|]. intros HF'. by apply HF, Forall2_same_dim_flip.
  - by rewrite (decide_False (P := length b = length a)) by done.
Qed.

Local Abbreviation dot_body v :=
  (fun (result_ : Scalar) j =>
     let* tj := VectorValues.values_at j in
     let* vj := lift (vec_at v j) in
     if bool_decide (length tj = length vj) then
       ret (add result_ (Vector_dot tj vj))
     else
       throw (invalid_argument
                "VectorValues::dot called with different vector sizes")).

(** [dot] written out. *)
Lemma dot_cases (v this : Values) :
  VectorValues.dot zero add mul v this =
  if decide (length this = length v /\ Forall2 same_dim this v) then
    (Ok (fold_left add (zip_with Vector_dot this v) zero), this)
  else
    (Err (invalid_argument
            "VectorValues::dot called with different vector sizes"), this).
Proof.
  unfold VectorValues.dot, bind, VectorValues.size.
  destruct (decide (length this = length v)) as [Hlen|Hlen].
  2:{ rewrite bool_decide_false by done. by rewrite decide_False by (by intros [? ?]). }
  rewrite bool_decide_true by done. simpl.
  destruct (decide (Forall2 same_dim this v)) as [HF|HF].
  - rewrite decide_True by done.
    destruct (foldM_seq_invariant (dot_body v)
                (fun j acc (s : Values) =>
                   s = this /\
                   acc = fold_left add
                           (zip_with Vector_dot (take j this) (take j v)) zero)
                (length this)) with (k := length this) (lo := 0) (acc := zero)
                (s := this) as (acc & s & Hrun & -> & ->).
    + intros j acc s Hj [-> ->].
      destruct (lookup_lt_is_Some_2 this j Hj) as [tj Htj].
      destruct (lookup_lt_is_Some_2 v j) as [vj Hvj]; [lia|].
      pose proof (Forall2_lookup_lr _ _ _ _ _ _ HF Htj Hvj) as Hdim.
      unfold VectorValues.same_dim in Hdim.
      eexists _, this. unfold bind, lift, ret.
      rewrite (values_at_lookup _ _ _ Htj), (vec_at_lookup _ _ _ Hvj).
      rewrite bool_decide_true by done. split; [done|]. split; [done|].
      by rewrite Nat.add_1_r, (zip_with_take_S _ _ _ _ _ _ Htj Hvj), fold_left_app.
    + lia.
    + by rewrite !take_0.
    + etrans; [exact Hrun|]. by rewrite !take_ge by lia.
  - rewrite decide_False by (by intros [? ?]).
    destruct (Forall2_first_failure same_dim this v Hlen HF)
      as (j0 & x & y & Hx & Hy & Hxy & Hpre).
    apply lookup_lt_Some in Hx as Hj0.
    destruct (foldM_seq_throws (dot_body v)
                (fun _ (_ : Scalar) (s : Values) => s = this)
                (fun e (s : Values) =>
                   e = invalid_argument
                         "VectorValues::dot called with different vector sizes"
                   /\ s = this)
                (length this) j0 Hj0) with (acc := zero) (s := this)
      as (e & s & Hrun & -> & ->); [| |done|exact Hrun].
    + intros j acc s Hj ->.
      destruct (lookup_lt_is_Some_2 this j) as [tj Htj]; [lia|].
      destruct (lookup_lt_is_Some_2 v j) as [vj Hvj]; [lia|].
      assert (same_dim tj vj) as Hdim.
      { eapply (Forall2_lookup_lr _ _ _ j _ _ Hpre); by rewrite lookup_take_lt. }
      unfold VectorValues.same_dim in Hdim.
      eexists _, this. unfold bind, lift, ret.
      rewrite (values_at_lookup _ _ _ Htj), (vec_at_lookup _ _ _ Hvj).
      by rewrite bool_decide_true.
    + intros acc s ->. eexists _, this. unfold bind, lift, throw.
      rewrite (values_at_lookup _ _ _ Hx), (vec_at_lookup _ _ _ Hy).
      by rewrite bool_decide_false.
Qed.

(** X11. [a.dot(b)] throws [std::invalid_argument] exactly when the two
    stores differ in slot count or in the length of some slot; otherwise it
    returns the sum, in slot order, of the dot products of the slots.  It
    never changes [a]. *)
Theorem dot_mismatch_or_sum (a b : Values) :
  exists r,
    VectorValues.dot zero add mul b a = (r, a) /\
    match r with
    | Ok d =>
        Forall2 same_dim a b /\
        d = fold_left add (zip_with Vector_dot a b) zero
    | Err e =>
        ~ Forall2 same_dim a b /\
        e = invalid_argument "VectorValues::dot called with different vector sizes"
    end.
Proof.
  rewrite dot_cases.
  destruct (decide (length a = length b /\ Forall2 same_dim a b)) as [[_ HF]|Hn].
  - eexists. split; [done|]. by split.
  - eexists. split; [done|]. split; [|done].
    intros HF. apply Hn. split; [by eapply Forall2_length|done].
Qed.

(** X12. With a commutative multiplication of coefficients, [a.dot(b)] and
    [b.dot(a)] have the same outcome: the same number, or the same
    exception. *)
Theorem dot_symmetric (a b : Values) :
  (forall p q, mul p q = mul q p) ->
  fst (VectorValues.dot zero add mul b a) = fst (VectorValues.dot zero add mul a b).
Proof.
  intros Hcomm. rewrite !dot_cases.
  destruct (decide (length a = length b /\ Forall2 same_dim a b)) as [[Hlen HF]|Hn].
  - rewrite decide_True by (split; [done|by apply Forall2_same_dim_flip]).
    simpl. do 2 f_equal. clear Hlen.
    induction HF as [|x y a b Hxy HF IH]; simpl; [done|]. rewrite IH. f_equal.
    unfold VectorValues.Vector_dot. f_equal. clear -Hcomm. revert y.
    induction x as [|p x IH]; intros [|q y]; simpl; try done.
    by rewrite Hcomm, IH.
  - rewrite decide_False; [done|]. intros [Hlen HF]. apply Hn.
    split; [done|by apply Forall2_same_dim_flip].
Qed.

Local Abbreviation plus_assign_body c :=
  (fun (_ : unit) j =>
     let* tj := VectorValues.values_at j in
     let* cj := lift (vec_at c j) in
     if bool_decide (length tj = length cj) then
       VectorValues.values_set j (Vector_add tj cj)
     else
       throw (invalid_argument
                "VectorValues::operator+= called with different vector sizes")).

(** X13. [a += c] does not roll back: when the slot counts agree and slot
    [j0] is the first whose lengths differ, the call throws
    [std::invalid_argument] after it has already added the slots before
    [j0]; the slots from [j0] on are as they were. *)
Theorem operator_plus_assign_no_rollback (a c : Values) (j0 : nat) (x y : Vector) :
  length a = length c ->
  Forall2 same_dim (take j0 a) (take j0 c) ->
  a !! j0 = Some x -> c !! j0 = Some y -> length x <> length y ->
  VectorValues.operator_plus_assign add c a =
  (Err (invalid_argument
          "VectorValues::operator+= called with different vector sizes"),
   zip_with Vector_add (take j0 a) (take j0 c) ++ drop j0 a).
Proof.
  intros Hlen Hpre Hx Hy Hxy. apply lookup_lt_Some in Hx as Hj0.
  destruct (foldM_seq_throws (plus_assign_body c)
              (fun j (_ : unit) (s : Values) =>
                 s = zip_with Vector_add (take j a) (take j c) ++ drop j a)
              (fun e (s : Values) =>
                 e = invalid_argument
                       "VectorValues::operator+= called with different vector sizes"
                 /\ s = zip_with Vector_add (take j0 a) (take j0 c) ++ drop j0 a)
              (length a) j0 Hj0) with (acc := tt) (s := a)
    as (e & s & Hrun & -> & ->).
  - intros j [] s Hj ->.
    destruct (lookup_lt_is_Some_2 a j) as [tj Htj]; [lia|].
    destruct (lookup_lt_is_Some_2 c j) as [cj Hcj]; [lia|].
    assert (same_dim tj cj) as Hdim.
    { eapply (Forall2_lookup_lr _ _ _ j _ _ Hpre); by rewrite lookup_take_lt. }
    unfold VectorValues.same_dim in Hdim.
    eexists tt, _. unfold bind, lift.
    rewrite (values_at_lookup _ j tj) by (rewrite slot_lookup; [done|lia..]).
    rewrite (vec_at_lookup _ _ _ Hcj), bool_decide_true by done.
    rewrite values_set_lt.
    + split; [done|]. by apply slot_step.
    + rewrite length_app, length_zip_with_l_eq, !length_take, length_drop;
        rewrite ?length_take; lia.
  - intros [] s ->. eexists _, _. unfold bind, lift, throw.
    rewrite (values_at_lookup _ j0 x) by (rewrite slot_lookup; [done|lia..]).
    rewrite (vec_at_lookup _ _ _ Hy). by rewrite bool_decide_false.
  - by rewrite !take_0, drop_0.
  - unfold VectorValues.operator_plus_assign. unfold bind at 1.
    unfold VectorValues.size. rewrite bool_decide_true by done. exact Hrun.
Qed.

(** X14. [a.equals(x, tol)] never fails and changes nothing; it returns
    true exactly when the two stores have the same number of slots and every
    pair of slots passes [equal_with_abs_tol]. *)
Theorem equals_decides (x this : Values) (tol : Scalar) :
  exists b : bool,
    VectorValues.equals equal_with_abs_tol x tol this = (Ok b, this) /\
    (b = true <->
     Forall2 (fun u v => equal_with_abs_tol u v tol = true) this x).
Proof.
  set (R := fun u v : Vector => equal_with_abs_tol u v tol = true).
  assert (RelDecision R) as HRdec by (intros u v; unfold R; apply _).
  exists (bool_decide (Forall2 R this x)). split; [|apply bool_decide_eq_true].
  unfold VectorValues.equals, bind, VectorValues.size.
  destruct (decide (length this = length x)) as [Hlen|Hlen].
  2:{ rewrite bool_decide_false by done. simpl. unfold ret. do 2 f_equal.
      symmetry. apply bool_decide_false. intros HF.
      by apply Forall2_length in HF. }
  rewrite bool_decide_true by done. simpl.
  match goal with |- foldM ?b _ _ _ = _ =>
    destruct (foldM_seq_invariant b
                (fun j (same : bool) (s : Values) =>
                   s = this /\
                   same = bool_decide (Forall2 R (take j this) (take j x)))
                (length this)) with (k := length this) (lo := 0) (acc := true)
                (s := this) as (same & s & -> & -> & ->)
  end.
  - intros j same s Hj [-> ->].
    destruct (lookup_lt_is_Some_2 this j Hj) as [tj Htj].
    destruct (lookup_lt_is_Some_2 x j) as [xj Hxj]; [lia|].
    rewrite Nat.add_1_r, (take_S_r _ _ _ Htj), (take_S_r _ _ _ Hxj).
    case_bool_decide as HF.
    + exists (equal_with_abs_tol tj xj tol), this. split; [|split; [done|]].
      * unfold bind, lift, ret, VectorValues.values_at.
        by rewrite (vec_at_lookup _ _ _ Htj), (vec_at_lookup _ _ _ Hxj).
      * destruct (equal_with_abs_tol tj xj tol) eqn:Heq; symmetry.
        -- apply bool_decide_true, Forall2_app; [done|]. by constructor.
        -- apply bool_decide_false. intros HF'.
           apply Forall2_app_inv in HF' as [_ HF'].
           ++ inversion HF'; subst. unfold R in *. congruence.
           ++ rewrite !length_take. lia.
    + exists false, this. split; [done|]. split; [done|].
      symmetry. apply bool_decide_false. intros HF'. apply HF.
      apply Forall2_app_inv in HF' as [HF' _]; [done|].
      rewrite !length_take. lia.
  - lia.
  - split; [done|]. rewrite !take_0. symmetry. by apply bool_decide_true.
  - by rewrite !take_ge by lia.
Qed.

End VectorValuesCoverage.

(** *** Witnesses, in integer arithmetic *)

Lemma squaredNorm_of_Zero_witness :
  (0 + 0 = 0)%Z /\ (0 * 0 = 0)%Z /\
  exists z : list (list Z),
    VectorValues.Zero 0%Z [[1; 2]; []; [3]]%Z = Ok z /\
    VectorValues.squaredNorm 0%Z Z.add Z.mul z = (Ok 0%Z, z).
Proof.
  split; [reflexivity|]. split; [reflexivity|].
  apply (squaredNorm_of_Zero 0%Z Z.add Z.mul [[1; 2]; []; [3]]%Z); reflexivity.
Defined.

Lemma resizeLike_keeps_matching_store_witness :
  Forall2 VectorValues.same_dim [[1; 2]; [3]]%Z [[10; 20]; [30]]%Z /\
  VectorValues.resizeLike 0%Z [[10; 20]; [30]]%Z [[1; 2]; [3]]%Z
  = (Ok tt, [[1; 2]; [3]]%Z).
Proof.
  assert (Forall2 VectorValues.same_dim [[1; 2]; [3]]%Z [[10; 20]; [30]]%Z) as H
    by (repeat constructor).
  split; [exact H|].
  exact (resizeLike_keeps_matching_store 0%Z _ _ H).
Defined.

Lemma plus_then_minus_round_trip_witness :
  (forall p q : Z, (p + q - q = p)%Z) /\
  Forall2 VectorValues.same_dim [[1; 2]; [3]]%Z [[10; 20]; [30]]%Z /\
  exists s : list (list Z),
    VectorValues.operator_plus Z.add 0%Z [[10; 20]; [30]]%Z [[1; 2]; [3]]%Z
      = (Ok s, [[1; 2]; [3]]%Z) /\
    VectorValues.operator_minus 0%Z Z.sub [[10; 20]; [30]]%Z s
      = (Ok [[1; 2]; [3]]%Z, s).
Proof.
  assert (forall p q : Z, (p + q - q = p)%Z) as Hc by (intros; lia).
  assert (Forall2 VectorValues.same_dim [[1; 2]; [3]]%Z [[10; 20]; [30]]%Z) as H
    by (repeat constructor).
  split; [exact Hc|]. split; [exact H|].
  exact (plus_then_minus_round_trip Z.add Z.sub 0%Z _ _ Hc H).
Defined.

Lemma operator_plus_commutes_witness :
  (forall p q : Z, (p + q = q + p)%Z) /\
  fst (VectorValues.operator_plus Z.add 0%Z [[10; 20]; [30]]%Z [[1; 2]; [3]]%Z) =
  fst (VectorValues.operator_plus Z.add 0%Z [[1; 2]; [3]]%Z [[10; 20]; [30]]%Z).
Proof.
  assert (forall p q : Z, (p + q = q + p)%Z) as Hc by (intros; lia).
  split; [exact Hc|].
  exact (operator_plus_commutes Z.add 0%Z _ _ Hc).
Defined.

Lemma dot_symmetric_witness :
  (forall p q : Z, (p * q = q * p)%Z) /\
  fst (VectorValues.dot 0%Z Z.add Z.mul [[10; 20]; [30]]%Z [[1; 2]; [3]]%Z) =
  fst (VectorValues.dot 0%Z Z.add Z.mul [[1; 2]; [3]]%Z [[10; 20]; [30]]%Z).
Proof.
  assert (forall p q : Z, (p * q = q * p)%Z) as Hc by (intros; lia).
  split; [exact Hc|].
  exact (dot_symmetric 0%Z Z.add Z.mul _ _ Hc).
Defined.

Lemma operator_plus_assign_no_rollback_witness :
  let a := [[1; 2]; [3]; [4]]%Z in
  let c := [[10; 20]; [30; 40]; [50]]%Z in
  length a = length c /\
  Forall2 VectorValues.same_dim (take 1 a) (take 1 c) /\
  a !! 1 = Some [3%Z] /\ c !! 1 = Some [30; 40]%Z /\
  length [3%Z] <> length [30; 40]%Z /\
  VectorValues.operator_plus_assign Z.add c a =
  (Err (invalid_argument
          "VectorValues::operator+= called with different vector sizes"),
   zip_with (VectorValues.Vector_add Z.add) (take 1 a) (take 1 c) ++ drop 1 a).
Proof.
  intros a c.
  assert (length a = length c) as H1 by reflexivity.
  assert (Forall2 VectorValues.same_dim (take 1 a) (take 1 c)) as H2
    by (repeat constructor).
  assert (a !! 1 = Some [3%Z]) as H3 by reflexivity.
  assert (c !! 1 = Some [30; 40]%Z) as H4 by reflexivity.
  assert (length [3%Z] <> length [30; 40]%Z) as H5 by (simpl; lia).
  split; [exact H1|]. split; [exact H2|]. split; [exact H3|].
  split; [exact H4|]. split; [exact H5|].
  exact (operator_plus_assign_no_rollback Z.add a c 1 _ _ H1 H2 H3 H4 H5).
Defined.

(** ** The constructor, step by step *)

Lemma ensures_conj {St A} (E : exception -> Prop) (m : method St A) (s : St)
    (Q1 Q2 : A -> St -> Prop) :
  ensures E m s Q1 -> ensures E m s Q2 ->
  ensures E m s (fun a s' => Q1 a s' /\ Q2 a s').
Proof. unfold ensures. destruct (m s) as [[a|e] s']; auto. Qed.

Section SweepSteps.
Import EliminationTree EliminationTreeInv EliminationTreeSteps.
Context {Factor : Type}.
Variable graph : list Factor.
Variable structure : gmap nat (list nat).
Variable order : list nat.
Variable lookup_what : string.
Variable NDEBUG : bool.
Local Abbreviation Locals := (Locals (Factor:=Factor)).
Local Abbreviation Inv := (Inv graph structure order).
Local Abbreviation visit_step := (visit_step graph).
Local Abbreviation visits := (visits graph structure order).
Local Abbreviation columns := (columns graph structure order).
Implicit Types (st : Locals).

(** One pass through the loop body takes one of the three steps. *)
Lemma visit_factor_step j i st :
  Inv (S j) st ->
  ensures (visit_error graph i) (visit_factor graph j i) st
    (fun _ st' => visit_step j i st st').
Proof.
  intros HI. unfold visit_factor.
  apply ensures_bind, ensures_read.
  2:{ intros Hnone. apply lookup_ge_None in Hnone.
      rewrite (inv_prevCol_len _ _ _ _ _ HI) in Hnone. by split. }
  intros pc Hpc. apply lookup_lt_Some in Hpc as Hi.
  destruct (inv_nodes _ _ _ _ _ HI j ltac:(lia)) as (ndj & Hndj & _).
  apply ensures_bind. destruct pc as [k|].
  - apply ensures_bind, ensures_get, ensures_bind.
    eapply ensures_weaken.
    { apply (find_root_spec graph structure order _ (S j)); [done| |].
      - by apply (inv_prevCol _ _ _ _ _ HI) in Hpc.
      - rewrite (inv_parents_len _ _ _ _ _ HI).
        pose proof (inv_bound _ _ _ _ _ HI). lia. }
    intros r st' (-> & Hr & Hpr). simpl.
    destruct (decide (r <> j)) as [Hrj|Hrj].
    + apply lookup_lt_Some in Hpr as Hrlen.
      apply ensures_bind, ensures_write; [intros _|lia].
      apply ensures_bind, ensures_read.
      2:{ simpl. intros Hnone. apply lookup_ge_None in Hnone.
          rewrite (inv_nodes_len _ _ _ _ _ HI) in Hnone.
          rewrite (inv_parents_len _ _ _ _ _ HI) in Hrlen. lia. }
      intros child Hchild. simpl in Hchild.
      apply ensures_update_node.
      2:{ simpl. rewrite Hndj. by intros [?|?]. }
      intros nd Hnd. simpl in Hnd. simplify_eq.
      apply ensures_write; [|simpl; lia].
      intros _.
      exact (visit_attach graph j i st k r child ndj Hpc ltac:(lia) Hpr Hchild Hndj).
    + apply ensures_ret, ensures_write; [|lia].
      intros _. exact (visit_again graph j i st k Hpc).
  - destruct (lookup_lt_is_Some_2 graph i) as [f Hf].
    { by rewrite <- (inv_prevCol_len _ _ _ _ _ HI). }
    apply ensures_bind, ensures_bind, ensures_lift.
    rewrite (vec_at_lookup _ _ _ Hf).
    apply ensures_update_node.
    2:{ rewrite Hndj. by intros [?|?]. }
    intros nd Hnd. simplify_eq.
    apply ensures_write.
    2:{ simpl. rewrite (inv_factorUsed_len _ _ _ _ _ HI).
        rewrite (inv_prevCol_len _ _ _ _ _ HI) in Hi. lia. }
    intros _. apply ensures_write; [|simpl; lia].
    intros _. exact (visit_first graph j i st f ndj Hpc Hf Hndj).
Qed.

(** The loop over the factor indices of a column takes their steps in
    order. *)
Lemma visits_run j fs st :
  Inv (S j) st ->
  ensures (fun e => exists i, i ∈ fs /\ visit_error graph i e)
    (foldM (fun (_ : unit) i => visit_factor graph j i) tt fs) st
    (fun _ st' => visits j fs st st' /\ Inv (S j) st').
Proof.
  revert st. induction fs as [|i fs IH]; intros st HI; simpl.
  - split; [constructor|done].
  - apply ensures_bind.
    pose proof (ensures_conj _ _ _ _ _ (visit_factor_step j i st HI)
                  (visit_factor_spec graph structure order j i st HI)) as Hstep.
    unfold ensures in *. destruct (visit_factor graph j i st) as [[[]|e] st1].
    + destruct Hstep as [Hstep HI1]. specialize (IH st1 HI1).
      destruct (foldM _ _ _ _) as [[[]|e] st2].
      * destruct IH as [Hvs HI2]. split; [|done]. by econstructor.
      * destruct IH as (i' & Hi' & He). exists i'. split; [by right|done].
    + exists i. split; [by left|done].
Qed.

(** A column creates its node and takes the steps of its factor indices. *)
Lemma column_run j st :
  Inv j st -> j < length order ->
  ensures (column_error graph structure order lookup_what j)
    (column lookup_what graph structure order j) st
    (fun _ st' => exists v fs,
       order !! j = Some v /\ structure !! v = Some fs /\
       visits j fs (column_start j v st) st' /\ Inv (S j) st').
Proof.
  intros HI Hj. destruct (lookup_lt_is_Some_2 order j Hj) as [v Hv].
  unfold column. apply ensures_bind, ensures_lift.
  rewrite (vec_at_lookup _ _ _ Hv).
  apply ensures_bind, ensures_lift. unfold VariableIndex_at.
  destruct (structure !! v) as [fs|] eqn:Hfs.
  2:{ exists v. split; [done|]. by left. }
  apply ensures_bind, ensures_write.
  2:{ rewrite (inv_nodes_len _ _ _ _ _ HI). lia. }
  intros Hjn. apply ensures_bind, ensures_update_node.
  2:{ simpl. rewrite list_lookup_insert_eq by done. by intros [?|?]. }
  intros nd Hnd. simpl in Hnd. rewrite list_lookup_insert_eq in Hnd by done.
  simplify_eq. simpl. rewrite list_insert_insert_eq.
  change (set_nodes (<[j := Some (set_key v (mkNode 0 [] []))]> (nodes st))
            (set_nodes (<[j := Some (mkNode 0 [] [])]> (nodes st)) st))
    with (column_start j v st).
  assert (Inv (S j) (column_start j v st)) as HI'.
  { exact (Inv_new_node graph structure order j v st HI Hv ltac:(by rewrite Hfs)). }
  eapply ensures_mono.
  - eapply ensures_weaken; [apply (visits_run j fs _ HI')|].
    intros [] st' [Hvs HI'']. by exists v, fs.
  - intros e (i & Hi & He). exists v. split; [done|]. right. by exists fs, i.
Qed.

(** The vectors as allocated satisfy the invariant. *)
Lemma Inv_allocate : Inv 0 (allocate graph order).
Proof.
  unfold allocate. constructor; simpl; try done; try lia.
  - by rewrite length_replicate.
  - by rewrite length_replicate.
  - by rewrite length_replicate.
  - by rewrite length_replicate.
  - intros x p Hp. by apply lookup_replicate in Hp as [? ?].
  - intros i k Hk. by apply lookup_replicate in Hk as [? ?].
  - intros x _ Hx. by apply lookup_replicate_2.
  - intros x nd Hnd. by apply lookup_replicate in Hnd as [? ?].
  - intros i Hi. apply lookup_replicate in Hi as [_ Hi].
    by apply lookup_replicate_2.
  - unfold roots_factors, used_factors. simpl.
    rewrite (concat_zip_with_replicate_nil _ None None) by done.
    clear. generalize (length graph) at 1. intros n. revert n.
    induction graph as [|f g IH]; intros [|n]; simpl; done.
Qed.

(** A successful sweep has taken the steps of all columns. *)
Lemma sweep_columns st :
  sweep lookup_what graph structure order (allocate graph order) = (Ok tt, st) ->
  columns (length order) st /\ Inv (length order) st.
Proof.
  pose proof (sweep_spec graph structure order lookup_what) as HInv.
  unfold ensures in HInv.
  assert (ensures (fun _ => True)
            (foldM (fun (_ : unit) j => column lookup_what graph structure order j)
               tt (seq 0 (length order)))
            (allocate graph order)
            (fun _ st' => columns (length order) st' /\ Inv (length order) st'))
    as Hrun.
  { eapply ensures_mono.
    - apply (ensures_foldM_seq
               (column_error graph structure order lookup_what)
               (fun (_ : unit) j => column lookup_what graph structure order j)
               (fun j _ st' => columns j st' /\ Inv j st') (length order)).
      + intros j [] st0 Hj [Hcols HI].
        eapply ensures_weaken; [by apply column_run|].
        intros [] st' (v & fs & Hv & Hfs & Hvs & HI'). split; [|done].
        by econstructor.
      + lia.
      + split; [constructor|apply Inv_allocate].
    - done. }
  intros Hsweep. unfold sweep, rethrow_invalid_argument, ensures in *.
  destruct (foldM _ _ _ _) as [[[]|e] st']; [|by destruct e].
  by simplify_eq.
Qed.

End SweepSteps.

Section SweepProperties.
Import EliminationTree EliminationTreeInv EliminationTreeSteps.
Context {Factor : Type}.
Variable graph : list Factor.
Variable structure : gmap nat (list nat).
Variable order : list nat.
Variable lookup_what : string.
Variable NDEBUG : bool.
Local Abbreviation Locals := (Locals (Factor:=Factor)).
Local Abbreviation Node := (Node (Factor:=Factor)).
Local Abbreviation Inv := (Inv graph structure order).
Local Abbreviation visit_step := (visit_step graph).
Local Abbreviation visits := (visits graph structure order).
Local Abbreviation columns := (columns graph structure order).
Implicit Types (st : Locals).

(** A property that every step of a column keeps holds after the steps. *)
Lemma visits_invariant (K : Locals -> Prop) j (fs fs' : list nat) st st' :
  (forall i st1 st2, i ∈ fs -> Inv (S j) st1 -> K st1 -> visit_step j i st1 st2 ->
     K st2) ->
  (forall i, i ∈ fs' -> i ∈ fs) ->
  visits j fs' st st' -> K st -> K st'.
Proof.
  intros Hstep Hsub Hvs.
  induction Hvs as [|i fs' st1 st2 st3 HI1 Hs Hvs IHvs]; [done|].
  intros HK. apply IHvs.
  - intros i' Hi'. apply Hsub. by right.
  - eapply (Hstep i); try done. apply Hsub. by left.
Qed.

(** A property that the creation of a node establishes for the next
    column and every step keeps holds after the columns. *)
Lemma columns_invariant (J : nat -> Locals -> Prop) :
  J 0 (allocate graph order) ->
  (forall j v fs st, Inv j st -> J j st ->
     order !! j = Some v -> structure !! v = Some fs ->
     J (S j) (column_start j v st)) ->
  (forall j v fs i st st', order !! j = Some v -> structure !! v = Some fs ->
     i ∈ fs -> Inv (S j) st -> J (S j) st -> visit_step j i st st' ->
     J (S j) st') ->
  forall b st, columns b st -> J b st.
Proof.
  intros H0 Hstart Hstep b st Hcols.
  induction Hcols as [|j v fs st st' Hcols IH HI Hv Hfs Hvisits]; [done|].
  specialize (Hstart j v fs st HI IH Hv Hfs).
  eapply (visits_invariant (J (S j)) j fs fs); [|done|exact Hvisits|done].
  intros i st1 st2 Hi HI1 HJ Hs. by eapply (Hstep j v fs i).
Qed.

Lemma parents_at_bound j st : Inv j st -> j < length order -> parents st !! j = Some None.
Proof.
  intros HI Hj. destruct (lookup_lt_is_Some_2 (parents st) j) as [[p|] Hp]; [| |done].
  - by rewrite (inv_parents_len _ _ _ _ _ HI).
  - apply (inv_parents _ _ _ _ _ HI) in Hp. lia.
Qed.

Local Abbreviation node_key := (fun nd : Node => [key nd]).
Local Abbreviation keys_share :=
  (fun (p : option nat) (nd : option Node) =>
     match p with
     | None => shared_collect node_key nd
     | Some _ => []
     end).

Lemma subtree_keys_push_back_child (child : option Node) (nd : Node) :
  subtree_collect node_key (push_back_child child nd) =
  subtree_collect node_key nd ++ shared_collect node_key child.
Proof.
  destruct nd as [k fs cs]. simpl. rewrite flat_map_app. simpl.
  by rewrite app_nil_r.
Qed.

Lemma subtree_keys_push_back_factor (f : Factor) (nd : Node) :
  subtree_collect node_key (push_back_factor f nd) = subtree_collect node_key nd.
Proof. by destruct nd as [k fs cs]. Qed.

(** After [b] columns the current trees hold the first [b] variables of the
    ordering. *)
Lemma columns_keys :
  forall b st, columns b st -> roots_keys st ≡ₚ take b order.
Proof.
  apply (columns_invariant (fun b st => roots_keys st ≡ₚ take b order)).
  - unfold roots_keys, allocate. simpl.
    by rewrite (concat_zip_with_replicate_nil _ None None).
  - intros j v fs st HI HJ Hv Hfs. apply lookup_lt_Some in Hv as Hj.
    rewrite (take_S_r _ _ _ Hv), <- HJ. unfold roots_keys, column_start. simpl.
    pose proof (concat_zip_with_insert keys_share (parents st) (nodes st) j
                  None None None (Some (mkNode v [] [])) [] [v]
                  (parents_at_bound j st HI Hj)
                  (inv_null _ _ _ _ _ HI j ltac:(lia) Hj) eq_refl eq_refl) as HP.
    rewrite (list_insert_id (parents st) _ _ (parents_at_bound j st HI Hj)) in HP.
    by rewrite app_nil_r in HP.
  - intros j v fs i st st' Hv Hfs Hi HI HJ Hstep. rewrite <- HJ.
    pose proof (Inv_current_root _ _ _ _ _ HI) as Hpj.
    destruct Hstep as [f nd Hpc Hf Hnd|k r child nd Hpc Hr Hpr Hchild Hnd|k Hpc];
      unfold roots_keys; simpl; [| |done].
    + pose proof (concat_zip_with_insert keys_share (parents st) (nodes st) j
                    None None (Some nd) (Some (push_back_factor f nd))
                    (subtree_collect node_key nd) (subtree_collect node_key nd)
                    Hpj Hnd eq_refl (subtree_keys_push_back_factor _ _)) as H1.
      rewrite (list_insert_id (parents st) _ _ Hpj) in H1.
      by apply Permutation_app_inv_r in H1.
    + pose proof (concat_zip_with_insert keys_share (parents st) (nodes st) r
                    None (Some j) child child (shared_collect node_key child) []
                    Hpr Hchild eq_refl eq_refl) as H1.
      rewrite (list_insert_id (nodes st) _ _ Hchild) in H1.
      pose proof (concat_zip_with_insert keys_share
                    (<[r := Some j]> (parents st)) (nodes st) j
                    None None (Some nd) (Some (push_back_child child nd))
                    (subtree_collect node_key nd)
                    (subtree_collect node_key nd ++ shared_collect node_key child))
        as H2.
      rewrite list_lookup_insert_ne in H2 by lia.
      specialize (H2 Hpj Hnd eq_refl (subtree_keys_push_back_child _ _)).
      rewrite (list_insert_id (<[r := Some j]> (parents st)) j None) in H2
        by (rewrite list_lookup_insert_ne by lia; done).
      rewrite app_nil_r in H1.
      apply (Permutation_app_inv_r (subtree_collect node_key nd)).
      rewrite H2, <- H1. rewrite <- !app_assoc.
      apply Permutation_app_head, Permutation_app_comm.
Qed.

(** A tree the constructor returns is read off vectors that the steps of
    all columns have produced. *)
Lemma construct_columns tree :
  construct NDEBUG lookup_what graph structure order = Ok tree ->
  exists st,
    columns (length order) st /\ Inv (length order) st /\
    tree = mkTree (roots_upto (length order) st)
                  (remaining_upto graph (length graph) st).
Proof.
  intros (st & Hsweep & HI & ->)%construct_Ok.
  exists st. split; [|done]. by eapply sweep_columns.
Qed.

Lemma forest_keys_roots st :
  length (parents st) = length order -> length (nodes st) = length order ->
  forest_keys (roots_upto (length order) st) = roots_keys st.
Proof.
  intros Hlp Hln. unfold forest_keys, roots_upto, roots_keys.
  rewrite !take_ge by lia.
  generalize (parents st) (nodes st). clear. intros ps.
  induction ps as [|p ps IH]; intros [|nd ns]; simpl; try done.
  rewrite flat_map_app, IH. destruct p; simpl; [done|]. by rewrite app_nil_r.
Qed.

(** X15. When the constructor returns a tree, the keys of the nodes of the
    forest are the entries of the ordering, each entry counted once: every
    entry of the ordering has exactly one node. *)
Theorem construct_one_node_per_ordering_entry tree :
  construct NDEBUG lookup_what graph structure order = Ok tree ->
  forest_keys (roots_ tree) ≡ₚ order.
Proof.
  intros (st & Hcols & HI & ->)%construct_columns. simpl.
  rewrite forest_keys_roots
    by (by rewrite ?(inv_parents_len _ _ _ _ _ HI), ?(inv_nodes_len _ _ _ _ _ HI)).
  rewrite (columns_keys _ _ Hcols). by rewrite take_ge.
Qed.

Lemma eliminated_before_push_back_factor pos (f : Factor) (nd : Node) :
  eliminated_before order pos nd ->
  eliminated_before order pos (push_back_factor f nd).
Proof. by destruct nd as [k fs cs]. Qed.

Lemma eliminated_before_push_back_child pos pos' (child nd : Node) :
  eliminated_before order pos nd -> pos' < pos ->
  eliminated_before order pos' child ->
  eliminated_before order pos (push_back_child (Some child) nd).
Proof.
  destruct nd as [k fs cs]. simpl. intros [Hkey Hcs] Hlt Hchild.
  split; [done|]. rewrite fold_right_app. simpl.
  clear Hkey. induction cs as [|c cs IH]; simpl in *.
  - split; [by exists pos'|done].
  - destruct Hcs as [Hc Hcs]. split; [done|]. by apply IH.
Qed.

(** After the columns every node sits at its column and above its
    children. *)
Lemma columns_eliminated_before :
  forall b st, columns b st ->
    forall x nd, nodes st !! x = Some (Some nd) -> eliminated_before order x nd.
Proof.
  apply (columns_invariant
           (fun _ st => forall x nd, nodes st !! x = Some (Some nd) ->
                                     eliminated_before order x nd)).
  - intros x nd Hnd. unfold allocate in Hnd. simpl in Hnd.
    by apply lookup_replicate in Hnd as [? ?].
  - intros j v fs st HI HJ Hv Hfs x nd Hnd. unfold column_start in Hnd.
    simpl in Hnd.
    apply list_lookup_insert_Some in Hnd as [(<- & ? & ?)|[? Hnd]].
    + by simplify_eq.
    + by apply HJ.
  - intros j v fs i st st' Hv Hfs Hi HI HJ Hstep x nd' Hnd'.
    destruct Hstep as [f nd Hpc Hf Hnd|k r child nd Hpc Hr Hpr Hchild Hnd|k Hpc];
      simpl in Hnd'; [| |by apply HJ].
    + apply list_lookup_insert_Some in Hnd' as [(<- & ? & ?)|[? Hnd']].
      * simplify_eq. by apply eliminated_before_push_back_factor, HJ.
      * by apply HJ.
    + apply list_lookup_insert_Some in Hnd' as [(<- & ? & ?)|[? Hnd']].
      * simplify_eq.
        destruct (inv_nodes _ _ _ _ _ HI r ltac:(lia)) as (ndr & Hndr & _).
        rewrite Hchild in Hndr. injection Hndr as ->.
        apply (eliminated_before_push_back_child j r); [by apply HJ|done|].
        by apply HJ.
      * by apply HJ.
Qed.

(** The roots are nodes the sweep has created. *)
Lemma roots_upto_in_nodes st r :
  r ∈ roots_upto (length order) st -> r ∈ nodes st.
Proof.
  unfold roots_upto. intros Hr.
  assert (r ∈ take (length order) (nodes st)) as Hin.
  { revert Hr. generalize (take (length order) (parents st))
                          (take (length order) (nodes st)).
    intros ps. induction ps as [|p ps IH]; intros [|nd ns]; simpl;
      try by intros ?%elem_of_nil.
    rewrite elem_of_app, elem_of_cons. intros [Hr|Hr].
    - destruct p; [by apply elem_of_nil in Hr|]. left.
      by apply list_elem_of_singleton in Hr.
    - right. by apply IH. }
  apply list_elem_of_lookup in Hin as [x Hx].
  apply lookup_take_Some in Hx as [Hx _]. by eapply list_elem_of_lookup_2.
Qed.

(** X16. In a tree the constructor returns every node carries the variable
    of one position of the ordering, and every child sits at a smaller
    position than its parent: a child is eliminated before its parent.  No
    pointer of the forest is null. *)
Theorem construct_children_before_parents tree :
  construct NDEBUG lookup_what graph structure order = Ok tree ->
  Forall (fun r => exists nd pos, r = Some nd /\ eliminated_before order pos nd)
         (roots_ tree).
Proof.
  intros (st & Hcols & HI & ->)%construct_columns. simpl.
  apply Forall_forall. intros r Hr%roots_upto_in_nodes.
  apply list_elem_of_lookup in Hr as [x Hx].
  apply lookup_lt_Some in Hx as Hlt. rewrite (inv_nodes_len _ _ _ _ _ HI) in Hlt.
  destruct (inv_nodes _ _ _ _ _ HI x Hlt) as (nd & Hnd & _).
  exists nd, x. split; [congruence|].
  by eapply columns_eliminated_before.
Qed.

(** A factor index some column has seen is used and is listed for the
    variable of that column. *)
Lemma columns_prevCol_sound :
  forall b st, columns b st ->
    forall i k, prevCol st !! i = Some (Some k) ->
      factorUsed st !! i = Some true /\
      exists v fs, order !! k = Some v /\ structure !! v = Some fs /\ i ∈ fs.
Proof.
  apply (columns_invariant
           (fun _ st => forall i k, prevCol st !! i = Some (Some k) ->
              factorUsed st !! i = Some true /\
              exists v fs, order !! k = Some v /\ structure !! v = Some fs /\ i ∈ fs)).
  - intros i k Hk. unfold allocate in Hk. simpl in Hk.
    by apply lookup_replicate in Hk as [? ?].
  - intros j v fs st HI HJ Hv Hfs i k Hk. by apply HJ.
  - intros j v fs i st st' Hv Hfs Hi HI HJ Hstep i' k' Hk'.
    assert (length (factorUsed st) = length (prevCol st)) as Hlen.
    { by rewrite (inv_factorUsed_len _ _ _ _ _ HI), (inv_prevCol_len _ _ _ _ _ HI). }
    destruct Hstep as [f nd Hpc Hf Hnd|k r child nd Hpc Hr Hpr Hchild Hnd|k Hpc];
      simpl in *;
      apply list_lookup_insert_Some in Hk' as [(<- & ? & ?)|[? Hk']];
      simplify_eq.
    + split; [|by eauto]. apply list_lookup_insert_eq. lia.
    + rewrite list_lookup_insert_ne by done. by apply HJ.
    + split; [|by eauto]. by apply (HJ i k).
    + by apply HJ.
    + split; [|by eauto]. by apply (HJ i k).
    + by apply HJ.
Qed.

Lemma visit_step_touch j i st st' :
  visit_step j i st st' ->
  touched st' i /\ forall i', touched st i' -> touched st' i'.
Proof.
  intros Hstep.
  assert (prevCol st' = <[i := Some j]> (prevCol st) /\ i < length (prevCol st))
    as [Hpc Hi].
  { destruct Hstep as [f nd Hpc Hf Hnd|k r child nd Hpc Hr Hpr Hchild Hnd|k Hpc];
      simpl; (split; [done|by apply lookup_lt_Some in Hpc]). }
  unfold touched. rewrite Hpc. split.
  - exists j. by apply list_lookup_insert_eq.
  - intros i' [k Hk]. destruct (decide (i = i')) as [<-|Hne].
    + exists j. by apply list_lookup_insert_eq.
    + exists k. by rewrite list_lookup_insert_ne.
Qed.

Lemma visits_touch j fs st st' :
  visits j fs st st' ->
  (forall i, touched st i -> touched st' i) /\ (forall i, i ∈ fs -> touched st' i).
Proof.
  induction 1 as [|i fs st1 st2 st3 HI1 Hs Hvs [IHmono IHall]].
  - split; [done|]. by intros i ?%elem_of_nil.
  - apply visit_step_touch in Hs as [Hi Hmono]. split.
    + intros i' Hi'. by apply IHmono, Hmono.
    + intros i' [->|Hi']%elem_of_cons; [by apply IHmono|by apply IHall].
Qed.

(** Every factor index listed for the variable of a finished column has
    been seen. *)
Lemma columns_prevCol_complete b st :
  columns b st ->
  forall k v fs i, k < b -> order !! k = Some v -> structure !! v = Some fs ->
    i ∈ fs -> touched st i.
Proof.
  induction 1 as [|j v fs st st' Hcols IH HI Hv Hfs Hvisits];
    intros k v' fs' i Hk Hv' Hfs' Hi; [lia|].
  apply visits_touch in Hvisits as [Hmono Hall].
  destruct (decide (k = j)) as [->|Hne].
  - simplify_eq. by apply Hall.
  - apply Hmono. unfold touched, column_start. simpl.
    apply (IH k v' fs' i); [lia|done..].
Qed.

(** After the sweep a factor is used exactly when some variable of the
    ordering lists it. *)
Lemma columns_factorUsed st i :
  columns (length order) st -> Inv (length order) st -> i < length graph ->
  factorUsed st !! i = Some (listed structure order i).
Proof.
  intros Hcols HI Hi.
  destruct (lookup_lt_is_Some_2 (prevCol st) i) as [[k|] Hpc].
  { by rewrite (inv_prevCol_len _ _ _ _ _ HI). }
  - destruct (columns_prevCol_sound _ _ Hcols i k Hpc) as (Hu & v & fs & Hv & Hfs & Hin).
    rewrite Hu. f_equal. symmetry. unfold listed. apply existsb_exists.
    exists v. split; [by eapply list_elem_of_In, list_elem_of_lookup_2|].
    rewrite Hfs. by apply bool_decide_eq_true.
  - rewrite (inv_unused _ _ _ _ _ HI i Hpc). f_equal. symmetry.
    apply not_true_is_false. unfold listed. intros (v & Hv & Hl)%existsb_exists.
    destruct (structure !! v) as [fs|] eqn:Hfs; [|done].
    apply bool_decide_eq_true in Hl.
    apply list_elem_of_In, list_elem_of_lookup in Hv as [k Hk].
    destruct (columns_prevCol_complete _ _ Hcols k v fs i) as [k' Hk']; try done.
    + by apply lookup_lt_Some in Hk.
    + congruence.
Qed.

Lemma concat_zip_with_imap {A B} (h : bool -> A -> list B) (F : nat -> bool)
    (us : list bool) (g : list A) :
  length us = length g ->
  (forall i, i < length g -> us !! i = Some (F i)) ->
  concat (zip_with h us g) = concat (imap (fun i f => h (F i) f) g).
Proof.
  revert F us. induction g as [|f g IH]; intros F [|u us] Hlen HF;
    simplify_eq/=; [done|].
  pose proof (HF 0 ltac:(lia)) as H0. simpl in H0. simplify_eq. f_equal.
  apply (IH (F ∘ S)); [done|]. intros i Hi. apply (HF (S i)). lia.
Qed.

(** X17. The remaining factors of a tree the constructor returns are, in
    the order of the graph, the factors at the positions that the variable
    index lists for no variable of the ordering. *)
Theorem construct_remaining_are_unlisted tree :
  construct NDEBUG lookup_what graph structure order = Ok tree ->
  remainingFactors_ tree =
  concat (imap (fun i f => if listed structure order i then [] else [f]) graph).
Proof.
  intros (st & Hcols & HI & ->)%construct_columns. simpl.
  unfold remaining_upto.
  rewrite !take_ge by (by rewrite ?(inv_factorUsed_len _ _ _ _ _ HI)).
  apply (concat_zip_with_imap (fun (u : bool) f => if u then [] else [f])).
  - apply (inv_factorUsed_len _ _ _ _ _ HI).
  - intros i Hi. by apply columns_factorUsed.
Qed.

(** The roots collected from the first [j] columns are nodes whose keys
    follow the ordering. *)
Lemma roots_upto_ordered st j :
  Inv (length order) st -> j <= length order ->
  exists nds : list Node,
    roots_upto j st = map Some nds /\ map key nds `sublist_of` take j order.
Proof.
  intros HI. induction j as [|j IH]; intros Hj.
  - exists []. by rewrite take_0.
  - destruct IH as (nds & Hroots & Hsub); [lia|].
    destruct (inv_nodes _ _ _ _ _ HI j ltac:(lia)) as (nd & Hnd & Hkey).
    destruct (lookup_lt_is_Some_2 (parents st) j) as [p Hp].
    { rewrite (inv_parents_len _ _ _ _ _ HI). lia. }
    rewrite (roots_upto_S _ _ _ _ Hp Hnd), (take_S_r _ _ _ Hkey), Hroots.
    destruct p.
    + exists nds. rewrite app_nil_r. split; [done|]. by apply sublist_inserts_r.
    + exists (nds ++ [nd]). rewrite !map_app. split; [done|].
      by apply sublist_app.
Qed.

(** X18. The roots of a tree the constructor returns are not null and
    come in the order of the ordering: their keys, in root-list order, are a
    subsequence of the ordering. *)
Theorem construct_roots_follow_ordering tree :
  construct NDEBUG lookup_what graph structure order = Ok tree ->
  exists nds : list Node,
    roots_ tree = map Some nds /\ map key nds `sublist_of` order.
Proof.
  intros (st & _ & HI & ->)%construct_Ok. simpl.
  destruct (roots_upto_ordered st (length order) HI ltac:(lia))
    as (nds & Hroots & Hsub).
  exists nds. split; [done|]. by rewrite take_ge in Hsub.
Qed.

(** X19. For a non-empty ordering, the last root of a tree the constructor
    returns is the node of the last entry of the ordering. *)
Theorem construct_last_root_is_last_entry tree :
  order <> [] ->
  construct NDEBUG lookup_what graph structure order = Ok tree ->
  exists nd, last (roots_ tree) = Some (Some nd) /\ last order = Some (key nd).
Proof.
  intros Hne (st & _ & HI & ->)%construct_Ok. simpl.
  assert (0 < length order) as Hpos by (destruct order; simpl; [done|lia]).
  destruct (inv_nodes _ _ _ _ _ HI (pred (length order)) ltac:(lia))
    as (nd & Hnd & Hkey).
  exists nd. split; [|by rewrite last_lookup].
  pose proof (Inv_last_root _ _ _ _ HI Hne) as Hlast.
  rewrite last_lookup, (inv_parents_len _ _ _ _ _ HI) in Hlast.
  replace (length order) with (S (pred (length order))) at 1 by lia.
  rewrite (roots_upto_S _ _ _ _ Hlast Hnd). apply last_snoc.
Qed.

(** X20. For a variable index that lists positions of the graph only (and,
    with assertions compiled in, a non-empty ordering), the constructor
    returns a tree exactly when the variable index knows every variable of
    the ordering. *)
Theorem construct_returns_iff_ordering_known :
  VariableIndex_wf graph structure ->
  NDEBUG || bool_decide (order <> []) = true ->
  (exists tree, construct NDEBUG lookup_what graph structure order = Ok tree) <->
  (forall v, v ∈ order -> is_Some (structure !! v)).
Proof.
  intros Hwf Hassert. split.
  - intros [tree (st & _ & HI & _)%construct_Ok] v [x Hx]%list_elem_of_lookup.
    apply (inv_known _ _ _ _ _ HI x v); [|done]. by apply lookup_lt_Some in Hx.
  - intros Hknown. by apply construct_total.
Qed.

(** X21. The constructor fails in two ways only.  It throws
    [std::invalid_argument], with the message of its [catch] clause, and then
    the variable index does not know some variable of the ordering; or it
    runs into undefined behaviour, and then the variable index lists a
    position outside the graph or, with assertions compiled in, the ordering
    is empty.  No assertion fails, and the walk to the root of a tree always
    ends. *)
Theorem construct_failures (e : exception) :
  construct NDEBUG lookup_what graph structure order = Err e ->
  (e = invalid_argument
         "EliminationTree: given ordering contains variables that are not involved in the factor graph"
   /\ exists v, v ∈ order /\ structure !! v = None) \/
  (e = undefined_behaviour /\
   (~ VariableIndex_wf graph structure \/ (NDEBUG = false /\ order = []))).
Proof.
  unfold construct, constructor_body. unfold bind at 1.
  pose proof (sweep_spec graph structure order lookup_what) as HI.
  unfold ensures in HI.
  destruct (sweep _ _ _ _ _) as [[[]|e0] st].
  - rewrite (after_sweep_run graph structure order NDEBUG st HI).
    destruct NDEBUG; simpl; [done|]. case_bool_decide as Hne; simpl; [done|].
    intros ?; simplify_eq. right. split; [done|]. right. by split.
  - simpl. intros ?; simplify_eq.
    destruct HI as (j & e1 & Hj & (v & Hv & [[Hnone ->]|(fs & i & Hfs & Hi & -> & Hge)]) & ->).
    + left. split; [done|]. exists v. split; [|done].
      by eapply list_elem_of_lookup_2.
    + right. split; [done|]. left. intros Hwf.
      apply (map_Forall_lookup_1 _ _ _ _ Hwf) in Hfs.
      rewrite Forall_forall in Hfs. apply Hfs in Hi. lia.
Qed.

End SweepProperties.

(** The chain of [Scenario], ordered 1, 3, 2, as an instance of the
    statements about the constructor. *)
Lemma construct_one_node_per_ordering_entry_witness :
  EliminationTree.construct false "unknown variable" Scenario.chain_graph
    Scenario.chain_structure [1; 3; 2] = Ok Scenario.chain_tree /\
  EliminationTreeSteps.forest_keys (EliminationTree.roots_ Scenario.chain_tree)
  ≡ₚ [1; 3; 2].
Proof.
  assert (EliminationTree.construct false "unknown variable" Scenario.chain_graph
            Scenario.chain_structure [1; 3; 2] = Ok Scenario.chain_tree) as H
    by (vm_compute; reflexivity).
  split; [exact H|].
  exact (construct_one_node_per_ordering_entry Scenario.chain_graph
           Scenario.chain_structure [1; 3; 2] "unknown variable" false
           Scenario.chain_tree H).
Defined.

Lemma construct_children_before_parents_witness :
  EliminationTree.construct false "unknown variable" Scenario.chain_graph
    Scenario.chain_structure [1; 3; 2] = Ok Scenario.chain_tree /\
  Forall (fun r => exists nd pos,
            r = Some nd /\ EliminationTreeSteps.eliminated_before [1; 3; 2] pos nd)
         (EliminationTree.roots_ Scenario.chain_tree).
Proof.
  assert (EliminationTree.construct false "unknown variable" Scenario.chain_graph
            Scenario.chain_structure [1; 3; 2] = Ok Scenario.chain_tree) as H
    by (vm_compute; reflexivity).
  split; [exact H|].
  exact (construct_children_before_parents Scenario.chain_graph
           Scenario.chain_structure [1; 3; 2] "unknown variable" false
           Scenario.chain_tree H).
Defined.

Lemma construct_remaining_are_unlisted_witness :
  EliminationTree.construct false "unknown variable" Scenario.chain_graph
    Scenario.chain_structure [1; 3; 2] = Ok Scenario.chain_tree /\
  EliminationTree.remainingFactors_ Scenario.chain_tree =
  concat (imap (fun i f =>
                  if EliminationTreeSteps.listed Scenario.chain_structure [1; 3; 2] i
                  then [] else [f]) Scenario.chain_graph).
Proof.
  assert (EliminationTree.construct false "unknown variable" Scenario.chain_graph
            Scenario.chain_structure [1; 3; 2] = Ok Scenario.chain_tree) as H
    by (vm_compute; reflexivity).
  split; [exact H|].
  exact (construct_remaining_are_unlisted Scenario.chain_graph
           Scenario.chain_structure [1; 3; 2] "unknown variable" false
           Scenario.chain_tree H).
Defined.

Lemma construct_roots_follow_ordering_witness :
  EliminationTree.construct false "unknown variable" Scenario.chain_graph
    Scenario.chain_structure [1; 3; 2] = Ok Scenario.chain_tree /\
  exists nds,
    EliminationTree.roots_ Scenario.chain_tree = map Some nds /\
    map EliminationTree.key nds `sublist_of` [1; 3; 2].
Proof.
  assert (EliminationTree.construct false "unknown variable" Scenario.chain_graph
            Scenario.chain_structure [1; 3; 2] = Ok Scenario.chain_tree) as H
    by (vm_compute; reflexivity).
  split; [exact H|].
  exact (construct_roots_follow_ordering Scenario.chain_graph
           Scenario.chain_structure [1; 3; 2] "unknown variable" false
           Scenario.chain_tree H).
Defined.

Lemma construct_last_root_is_last_entry_witness :
  [1; 3; 2] <> [] /\
  EliminationTree.construct false "unknown variable" Scenario.chain_graph
    Scenario.chain_structure [1; 3; 2] = Ok Scenario.chain_tree /\
  exists nd,
    last (EliminationTree.roots_ Scenario.chain_tree) = Some (Some nd) /\
    last [1; 3; 2] = Some (EliminationTree.key nd).
Proof.
  assert ([1; 3; 2] <> []) as Hne by discriminate.
  assert (EliminationTree.construct false "unknown variable" Scenario.chain_graph
            Scenario.chain_structure [1; 3; 2] = Ok Scenario.chain_tree) as H
    by (vm_compute; reflexivity).
  split; [exact Hne|]. split; [exact H|].
  exact (construct_last_root_is_last_entry Scenario.chain_graph
           Scenario.chain_structure [1; 3; 2] "unknown variable" false
           Scenario.chain_tree Hne H).
Defined.

Lemma construct_returns_iff_ordering_known_witness :
  EliminationTreeInv.VariableIndex_wf Scenario.chain_graph Scenario.chain_structure /\
  false || bool_decide ([1; 3; 2] <> []) = true /\
  ((exists tree,
      EliminationTree.construct false "unknown variable" Scenario.chain_graph
        Scenario.chain_structure [1; 3; 2] = Ok tree) <->
   (forall v, v ∈ [1; 3; 2] -> is_Some (Scenario.chain_structure !! v))).
Proof.
  assert (false || bool_decide ([1; 3; 2] <> []) = true) as Ha by reflexivity.
  split; [exact chain_structure_wf|]. split; [exact Ha|].
  exact (construct_returns_iff_ordering_known Scenario.chain_graph
           Scenario.chain_structure [1; 3; 2] "unknown variable" false
           chain_structure_wf Ha).
Defined.

(** The same chain with the unknown variable 5 in the ordering. *)
Lemma construct_failures_witness :
  let e := invalid_argument
             "EliminationTree: given ordering contains variables that are not involved in the factor graph" in
  EliminationTree.construct false "unknown variable" Scenario.chain_graph
    Scenario.chain_structure [1; 5; 2] = Err e /\
  ((e = invalid_argument
          "EliminationTree: given ordering contains variables that are not involved in the factor graph"
    /\ exists v, v ∈ [1; 5; 2] /\ Scenario.chain_structure !! v = None) \/
   (e = undefined_behaviour /\
    (~ EliminationTreeInv.VariableIndex_wf Scenario.chain_graph Scenario.chain_structure
     \/ (false = false /\ [1; 5; 2] = [])))).
Proof.
  intros e.
  assert (EliminationTree.construct false "unknown variable" Scenario.chain_graph
            Scenario.chain_structure [1; 5; 2] = Err e) as H
    by (vm_compute; reflexivity).
  split; [exact H|].
  exact (construct_failures Scenario.chain_graph Scenario.chain_structure
           [1; 5; 2] "unknown variable" false e H).
Defined.

Section EmptyOrdering.
Import EliminationTree EliminationTreeInv.
Context {Factor : Type}.
Variable graph : list Factor.
Variable structure : gmap nat (list nat).

Lemma remaining_upto_allocate (order : list nat) :
  remaining_upto graph (length graph) (allocate graph order) = graph.
Proof.
  unfold remaining_upto, allocate. simpl.
  rewrite take_replicate, Nat.min_id, firstn_all.
  induction graph as [|f fs IH]; simpl; [done|]. by rewrite IH.
Qed.

(** X22. For the empty ordering the constructor, compiled without
    assertions, returns the tree without roots in which every factor of the
    graph remains; compiled with assertions it evaluates [parents.back()] on
    an empty vector, which is undefined behaviour. *)
Theorem construct_empty_ordering (lookup_what : string) (NDEBUG : bool) :
  construct NDEBUG lookup_what graph structure [] =
  if NDEBUG then Ok (mkTree [] graph) else Err undefined_behaviour.
Proof.
  unfold construct, constructor_body. unfold bind at 1.
  change (sweep lookup_what graph structure [] (allocate graph []))
    with (Ok tt, allocate graph (Factor:=Factor) []).
  cbv beta iota.
  rewrite (after_sweep_run graph structure [] NDEBUG _ (Inv_allocate graph structure [])).
  destruct NDEBUG; simpl; [|done].
  by rewrite remaining_upto_allocate.
Qed.

End EmptyOrdering.

(* ------------------------------------------------------------------ *)
(** ** VerticalBlockMatrix::LikeActiveViewOf: the offset the loop leaves out *)

Section LikeActiveViewOfCoverage.
Import VerticalBlockMatrix.
Variable assertInvariants : t -> result unit.

(** The view the body builds in a local object [r0] whose offsets are all
    0, before [assertInvariants] sees it. *)
Lemma LikeActiveViewOf_body_from (rhs r0 : t) :
  valid rhs -> Forall (fun x => 0 = x) (variableColOffsets_ r0) ->
  LikeActiveViewOf_body assertInvariants rhs r0 =
  let result_ :=
    {| matrix_ := {| rows_ := rows rhs; cols_ := 0 |};
       variableColOffsets_ :=
         take (nBlocks rhs) (drop (blockStart_ rhs) (variableColOffsets_ rhs)) ++ [0];
       rowStart_ := rowStart_ r0; rowEnd_ := rows rhs;
       blockStart_ := blockStart_ r0 |} in
  (assertInvariants result_, result_).
Proof.
  intros [Hbs Hrows] Hzero. unfold LikeActiveViewOf_body.
  set (n := nBlocks rhs). set (D := drop (blockStart_ rhs) (variableColOffsets_ rhs)).
  assert (length D = n + 1) as HD.
  { unfold D, n, nBlocks. rewrite length_drop. lia. }
  assert (resize (n + 1) 0 (variableColOffsets_ r0) = replicate (n + 1) 0) as Hres.
  { assert (variableColOffsets_ r0 = replicate (length (variableColOffsets_ r0)) 0)
      as -> by (symmetry; by apply replicate_as_Forall).
    apply resize_replicate. }
  unfold bind at 1. unfold bind at 1. simpl.
  unfold bind at 1.
  match goal with |- context [foldM ?b tt (seq 0 n) ?s0] =>
    destruct (foldM_seq_invariant b
                (fun i (_ : unit) (r : t) =>
                   r = {| matrix_ := matrix_ r0;
                          variableColOffsets_ := take i D ++ replicate (n + 1 - i) 0;
                          rowStart_ := rowStart_ r0; rowEnd_ := rowEnd_ r0;
                          blockStart_ := blockStart_ r0 |})
                n) with (k := n) (lo := 0) (acc := tt) (s := s0)
      as ([] & r & -> & ->)
  end.
  - intros i [] r Hi ->.
    destruct (lookup_lt_is_Some_2 D i) as [x Hx]; [lia|].
    eexists tt, _. unfold bind, lift, get, set_variableColOffsets, modify. simpl.
    assert (variableColOffsets_ rhs !! (i + blockStart_ rhs) = Some x) as Hx'.
    { unfold D in Hx. rewrite lookup_drop in Hx. by rewrite Nat.add_comm. }
    rewrite (vec_at_lookup _ _ _ Hx'). unfold vec_set.
    rewrite decide_True
      by (rewrite length_app, length_take, length_replicate; lia).
    split; [done|]. f_equal. by apply copy_offsets_step.
  - lia.
  - f_equal. by rewrite take_0, Nat.sub_0_r, Hres.
  - unfold bind, get, lift, vec_back, set_matrix, set_rowEnd, modify. simpl.
    replace (n + 1 - n) with 1 by lia. simpl. rewrite last_snoc. simpl.
    by destruct (assertInvariants _).
Qed.

(** X23. The copy loop of [LikeActiveViewOf] runs over [i < rhs.nBlocks()]
    while the offsets were resized to [rhs.nBlocks() + 1] entries: started on
    a local object whose offsets are all 0 (a default-constructed one), the
    body leaves the last offset at 0, and so [matrix_.resize(rhs.rows(),
    result.variableColOffsets_.back())] gives the matrix no columns,
    whatever the columns of the source. *)
Theorem LikeActiveViewOf_last_offset_stays_zero (rhs r0 r : t) :
  valid rhs -> Forall (fun x => 0 = x) (variableColOffsets_ r0) ->
  LikeActiveViewOf_body assertInvariants rhs r0 = (Ok tt, r) ->
  length (variableColOffsets_ r) = nBlocks rhs + 1 /\
  last (variableColOffsets_ r) = Some 0 /\
  cols_ (matrix_ r) = 0.
Proof.
  intros Hv Hzero Hrun. pose proof Hv as [Hbs Hrows].
  rewrite LikeActiveViewOf_body_from in Hrun by done. simpl in Hrun.
  injection Hrun as _ <-. simpl. split_and!; [|by rewrite last_snoc|done].
  rewrite length_app, length_take, length_drop. unfold nBlocks. simpl. lia.
Qed.

End LikeActiveViewOfCoverage.

Lemma LikeActiveViewOf_last_offset_stays_zero_witness :
  let chk := fun _ : VerticalBlockMatrix.t => Ok tt in
  let rhs := VerticalBlockMatrix.second_block_view in
  let r0 := VerticalBlockMatrix.default_constructed in
  let r := {| VerticalBlockMatrix.matrix_ :=
                {| VerticalBlockMatrix.rows_ := 2; VerticalBlockMatrix.cols_ := 0 |};
              VerticalBlockMatrix.variableColOffsets_ := [2; 0];
              VerticalBlockMatrix.rowStart_ := 0;
              VerticalBlockMatrix.rowEnd_ := 2;
              VerticalBlockMatrix.blockStart_ := 0 |} in
  VerticalBlockMatrix.valid rhs /\
  Forall (fun x => 0 = x) (VerticalBlockMatrix.variableColOffsets_ r0) /\
  VerticalBlockMatrix.LikeActiveViewOf_body chk rhs r0 = (Ok tt, r) /\
  length (VerticalBlockMatrix.variableColOffsets_ r)
    = VerticalBlockMatrix.nBlocks rhs + 1 /\
  last (VerticalBlockMatrix.variableColOffsets_ r) = Some 0 /\
  VerticalBlockMatrix.cols_ (VerticalBlockMatrix.matrix_ r) = 0.
Proof.
  intros chk rhs r0 r.
  assert (VerticalBlockMatrix.valid rhs) as Hv by (vm_compute; lia).
  assert (Forall (fun x => 0 = x) (VerticalBlockMatrix.variableColOffsets_ r0))
    as Hz by (repeat constructor).
  assert (VerticalBlockMatrix.LikeActiveViewOf_body chk rhs r0 = (Ok tt, r)) as Hr
    by reflexivity.
  split; [exact Hv|]. split; [exact Hz|]. split; [exact Hr|].
  exact (LikeActiveViewOf_last_offset_stays_zero chk rhs r0 r Hv Hz Hr).
Defined.

(* ------------------------------------------------------------------ *)
(** ** EliminationTreeUnordered::equals *)

Section EqualsFacts.
Import EliminationTree EliminationTreeEquals.
Context {Factor Tol : Type}.
Variable not_null : Factor -> bool.
Variable factor_equals : Factor -> Factor -> Tol -> bool.
Local Abbreviation Node := (Node (Factor:=Factor)).
Local Abbreviation by_key :=
  (fun a b : nat * Node => a.1 < b.1).
Local Abbreviation keyed := (fun nd : Node => (key nd, nd)).
Local Abbreviation insert_nodes :=
  (foldl (fun (keys : list (nat * Node)) nd => FastMap_insert (key nd) nd keys)).
Local Abbreviation equals := (equals not_null factor_equals).
Local Abbreviation equals_loop := (equals_loop not_null factor_equals).
Local Abbreviation compare_nodes := (compare_nodes not_null factor_equals).
Local Abbreviation factors_equal := (factors_equal not_null factor_equals).

(** *** The map of the "sorted order" blocks *)

Lemma FastMap_insert_submseteq k (nd : Node) keys :
  FastMap_insert k nd keys ⊆+ (k, nd) :: keys.
Proof.
  induction keys as [|[k' nd'] rest IH]; simpl; [done|].
  destruct (decide (k < k')); [done|].
  destruct (decide (k = k')); [by apply submseteq_cons|].
  etrans; [apply submseteq_skip, IH|]. by rewrite Permutation_swap.
Qed.

Lemma FastMap_insert_elem k (nd : Node) keys x :
  x ∈ FastMap_insert k nd keys -> x = (k, nd) \/ x ∈ keys.
Proof.
  intros Hx.
  pose proof (elem_of_submseteq _ _ _ Hx (FastMap_insert_submseteq k nd keys)) as Hin.
  by apply elem_of_cons in Hin.
Qed.

Lemma FastMap_insert_sorted k (nd : Node) keys :
  StronglySorted by_key keys -> StronglySorted by_key (FastMap_insert k nd keys).
Proof.
  induction keys as [|[k' nd'] rest IH]; simpl; intros Hs.
  { repeat constructor. }
  apply StronglySorted_inv in Hs as [Hrest Hhd].
  destruct (decide (k < k')).
  { constructor; [by constructor|]. constructor; [done|].
    eapply Forall_impl; [exact Hhd|]. simpl. intros; lia. }
  destruct (decide (k = k')); [by constructor|].
  constructor; [by apply IH|]. apply Forall_forall. intros x Hx.
  apply FastMap_insert_elem in Hx as [->|Hx]; simpl; [lia|].
  rewrite Forall_forall in Hhd. by apply Hhd.
Qed.

(** Inserting under a key the map has changes nothing. *)
Lemma FastMap_insert_present k (nd : Node) keys :
  StronglySorted by_key keys -> k ∈ keys.*1 -> FastMap_insert k nd keys = keys.
Proof.
  induction keys as [|[k' nd'] rest IH]; simpl; intros Hs Hk.
  { by apply elem_of_nil in Hk. }
  apply StronglySorted_inv in Hs as [Hrest Hhd].
  apply elem_of_cons in Hk as [->|Hk].
  { rewrite decide_False by lia. by rewrite decide_True. }
  assert (k' < k) as Hlt.
  { apply list_elem_of_fmap in Hk as ([k0 nd0] & -> & Hin).
    rewrite Forall_forall in Hhd. exact (Hhd _ Hin). }
  rewrite decide_False, decide_False by lia. by rewrite IH.
Qed.

(** Inserting under a new key adds the entry. *)
Lemma FastMap_insert_fresh k (nd : Node) keys :
  k ∉ keys.*1 -> FastMap_insert k nd keys ≡ₚ (k, nd) :: keys.
Proof.
  induction keys as [|[k' nd'] rest IH]; simpl; intros Hk; [done|].
  apply not_elem_of_cons in Hk as [Hne Hk].
  destruct (decide (k < k')); [done|]. rewrite decide_False by done.
  by rewrite IH, Permutation_swap.
Qed.

Lemma FastMap_insert_keys k (nd : Node) keys k0 :
  k0 ∈ keys.*1 \/ k0 = k -> k0 ∈ (FastMap_insert k nd keys).*1.
Proof.
  induction keys as [|[k' nd'] rest IH]; simpl.
  { intros [Hin| ->]; [by apply elem_of_nil in Hin|]. apply list_elem_of_here. }
  intros H. destruct (decide (k < k')); simpl.
  { destruct H as [H| ->]; [by apply list_elem_of_further|apply list_elem_of_here]. }
  destruct (decide (k = k')) as [->|]; simpl.
  { destruct H as [H| ->]; [done|apply list_elem_of_here]. }
  destruct H as [[->|H]%elem_of_cons| ->].
  - apply list_elem_of_here.
  - apply list_elem_of_further, IH. by left.
  - apply list_elem_of_further, IH. by right.
Qed.

Lemma insert_nodes_sorted (nds : list Node) keys :
  StronglySorted by_key keys -> StronglySorted by_key (insert_nodes keys nds).
Proof.
  revert keys. induction nds as [|nd nds IH]; simpl; intros keys Hs; [done|].
  by apply IH, FastMap_insert_sorted.
Qed.

Lemma insert_nodes_submseteq (nds : list Node) keys :
  insert_nodes keys nds ⊆+ keys ++ (keyed <$> nds).
Proof.
  revert keys. induction nds as [|nd nds IH]; simpl; intros keys.
  { by rewrite app_nil_r. }
  etrans; [apply IH|]. rewrite <- Permutation_middle.
  apply (submseteq_skips_r _ _ ((key nd, nd) :: keys)), FastMap_insert_submseteq.
Qed.

Lemma insert_nodes_keys (nds : list Node) keys k0 :
  k0 ∈ keys.*1 \/ k0 ∈ key <$> nds -> k0 ∈ (insert_nodes keys nds).*1.
Proof.
  revert keys. induction nds as [|nd nds IH]; simpl; intros keys.
  { intros [H|H]; [done|by apply elem_of_nil in H]. }
  intros [H|[->|H]%elem_of_cons]; apply IH.
  - left. apply FastMap_insert_keys. by left.
  - left. apply FastMap_insert_keys. by right.
  - by right.
Qed.

Lemma insert_nodes_NoDup (nds : list Node) keys :
  NoDup (keys.*1 ++ (key <$> nds)) ->
  insert_nodes keys nds ≡ₚ keys ++ (keyed <$> nds).
Proof.
  revert keys. induction nds as [|nd nds IH]; simpl; intros keys Hnd.
  { by rewrite app_nil_r. }
  assert (key nd ∉ keys.*1) as Hfresh.
  { apply NoDup_app in Hnd as (_ & Hdis & _). intros Hin.
    apply (Hdis _ Hin), list_elem_of_here. }
  rewrite IH.
  - by rewrite (FastMap_insert_fresh _ _ _ Hfresh), <- Permutation_middle.
  - rewrite (FastMap_insert_fresh _ _ _ Hfresh). simpl.
    by rewrite <- Permutation_middle in Hnd.
Qed.

(** The first loop of a block, on nodes none of which is null. *)
Lemma insert_all_nodes (nds : list Node) keys :
  insert_all (Some <$> nds) keys = (Ok tt, insert_nodes keys nds).
Proof.
  unfold insert_all. revert keys. induction nds as [|nd nds IH]; simpl; intros keys;
    [done|].
  unfold bind at 1. unfold modify at 1. by rewrite IH.
Qed.

(** The first loop of a block stops at the first null node. *)
Lemma insert_all_null (nodes : list (option Node)) keys :
  None ∈ nodes -> exists keys', insert_all nodes keys = (Err undefined_behaviour, keys').
Proof.
  unfold insert_all. revert keys. induction nodes as [|[nd|] nodes IH]; simpl;
    intros keys Hin.
  - by apply elem_of_nil in Hin.
  - apply elem_of_cons in Hin as [?|Hin]; [done|].
    unfold bind at 1. unfold modify at 1. by apply IH.
  - by eexists.
Qed.

Lemma nodes_cases (nodes : list (option Node)) :
  None ∈ nodes \/ exists nds : list Node, nodes = Some <$> nds.
Proof.
  induction nodes as [|[nd|] nodes IH].
  - right. by exists [].
  - destruct IH as [H|[nds ->]].
    + left. by apply list_elem_of_further.
    + right. by exists (nd :: nds).
  - left. apply list_elem_of_here.
Qed.

Lemma push_all_rev (keys : list (nat * Node)) stack :
  push_all keys stack = rev keys.*2 ++ stack.
Proof.
  unfold push_all. revert stack. induction keys as [|kn keys IH]; simpl; intros stack;
    [done|].
  by rewrite IH, <- app_assoc.
Qed.

Lemma push_sorted_nodes (nds : list Node) stack :
  push_sorted (Some <$> nds) stack = Ok (rev (insert_nodes [] nds).*2 ++ stack).
Proof. unfold push_sorted. by rewrite insert_all_nodes, push_all_rev. Qed.

Lemma push_sorted_null (nodes : list (option Node)) stack :
  None ∈ nodes -> push_sorted nodes stack = Err undefined_behaviour.
Proof.
  intros Hin. unfold push_sorted.
  by destruct (insert_all_null nodes [] Hin) as [keys' ->].
Qed.

(** *** The traversal *)

Lemma stack_size_cons (nd : Node) (s : list Node) :
  stack_size (nd :: s) = Node_size nd + stack_size s.
Proof. done. Qed.

Lemma stack_size_app (s1 s2 : list Node) :
  stack_size (s1 ++ s2) = stack_size s1 + stack_size s2.
Proof.
  unfold stack_size. rewrite fmap_app.
  induction (Node_size <$> s1) as [|n l IH]; simpl; [done|]. rewrite IH. lia.
Qed.

Lemma stack_size_submseteq (s1 s2 : list Node) :
  s1 ⊆+ s2 -> stack_size s1 <= stack_size s2.
Proof.
  intros H. apply (fmap_submseteq Node_size) in H. unfold stack_size.
  induction H; simpl; lia.
Qed.

Lemma forest_complete_nodes (nodes : list (option Node)) :
  forest_complete nodes ->
  exists nds : list Node,
    nodes = Some <$> nds /\ Forall (fun nd => Node_complete nd = true) nds.
Proof.
  unfold forest_complete. induction 1 as [|[nd|] nodes Hnd _ (nds & -> & Hnds)].
  - by exists [].
  - exists (nd :: nds). split; [done|]. by constructor.
  - done.
Qed.

(** The children of a node below which no pointer is null. *)
Lemma Node_complete_children (nd : Node) :
  Node_complete nd = true ->
  exists cs : list Node,
    children nd = Some <$> cs /\
    Forall (fun c => Node_complete c = true) cs /\
    Node_size nd = S (stack_size cs).
Proof.
  destruct nd as [k fs cs]. simpl. unfold stack_size.
  induction cs as [|[c|] cs IH]; simpl.
  - intros _. by exists [].
  - intros [Hc (cs' & -> & Hcs' & Hsize)%IH]%andb_prop.
    exists (c :: cs'). split; [done|]. split; [by constructor|].
    simpl. injection Hsize as ->. done.
  - done.
Qed.

(** What a block pushes for the children of such a node: some of the
    children, each at most once. *)
Lemma pushed_children (nd : Node) (rest : list Node) :
  Node_complete nd = true ->
  exists pushed : list Node,
    push_sorted (children nd) rest = Ok (pushed ++ rest) /\
    Forall (fun c => Node_complete c = true) pushed /\
    S (stack_size pushed) <= Node_size nd.
Proof.
  intros (cs & -> & Hcs & ->)%Node_complete_children.
  exists (rev (insert_nodes [] cs).*2). split; [apply push_sorted_nodes|].
  assert ((insert_nodes [] cs).*2 ⊆+ cs) as Hsub.
  { etrans; [apply fmap_submseteq, insert_nodes_submseteq|]. simpl.
    rewrite <- list_fmap_compose. by rewrite list_fmap_id. }
  split.
  - rewrite Forall_forall in Hcs |- *. intros c Hc. apply Hcs.
    rewrite <- Permutation_rev in Hc. exact (elem_of_submseteq _ _ _ Hc Hsub).
  - apply le_n_S. etrans; [|apply (stack_size_submseteq _ _ Hsub)].
    apply stack_size_submseteq. by rewrite <- Permutation_rev.
Qed.

Lemma factors_equal_returns (fs1 fs2 : list Factor) (tol : Tol) :
  length fs1 = length fs2 -> exists b, factors_equal fs1 fs2 tol = Ok b.
Proof.
  revert fs2. induction fs1 as [|f1 fs1 IH]; intros [|f2 fs2]; simpl; try done.
  - by eexists.
  - intros [=Hlen]. destruct (not_null f1 && not_null f2).
    + destruct (negb _); [by eexists|by apply IH].
    + destruct (_ || _); [by eexists|by apply IH].
Qed.

Lemma compare_nodes_returns (node1 node2 : Node) (tol : Tol) :
  exists b, compare_nodes node1 node2 tol = Ok b.
Proof.
  unfold EliminationTreeEquals.compare_nodes.
  case_bool_decide; [by eexists|]. case_bool_decide as Hlen; [by eexists|].
  apply factors_equal_returns. by destruct (decide (length (factors node1) = length (factors node2))).
Qed.

Lemma factors_equal_same (fs : list Factor) (tol : Tol) :
  (forall f, not_null f = true -> factor_equals f f tol = true) ->
  factors_equal fs fs tol = Ok true.
Proof.
  intros Hrefl. induction fs as [|f fs IH]; simpl; [done|].
  destruct (not_null f) eqn:Hf; simpl; [|done]. by rewrite Hrefl.
Qed.

Lemma compare_nodes_same (node1 node2 : Node) (tol : Tol) :
  (forall f, not_null f = true -> factor_equals f f tol = true) ->
  key node1 = key node2 -> factors node1 = factors node2 ->
  compare_nodes node1 node2 tol = Ok true.
Proof.
  intros Hrefl Hk Hf. unfold EliminationTreeEquals.compare_nodes.
  rewrite Hk, Hf, !bool_decide_eq_false_2 by (by intros []).
  by apply factors_equal_same.
Qed.

(** The loop ends before the fuel does, and meets no null pointer, on
    stacks of nodes below which no pointer is null. *)
Lemma equals_loop_returns (tol : Tol) (fuel : nat) (stack1 stack2 : list Node) :
  Forall (fun nd => Node_complete nd = true) stack1 ->
  Forall (fun nd => Node_complete nd = true) stack2 ->
  stack_size stack1 <= fuel ->
  exists b, equals_loop fuel stack1 stack2 tol = Ok b.
Proof.
  revert stack1 stack2. induction fuel as [|fuel IH];
    intros [|node1 rest1] [|node2 rest2] H1 H2 Hfuel; simpl; try by eexists.
  { rewrite stack_size_cons in Hfuel. destruct node1. simpl in Hfuel. lia. }
  apply Forall_cons in H1 as [Hn1 H1]. apply Forall_cons in H2 as [Hn2 H2].
  destruct (compare_nodes_returns node1 node2 tol) as [[|] ->]; [|by eexists].
  destruct (pushed_children node1 rest1 Hn1) as (p1 & -> & Hp1 & Hs1).
  destruct (pushed_children node2 rest2 Hn2) as (p2 & -> & Hp2 & Hs2).
  apply IH.
  - by apply Forall_app.
  - by apply Forall_app.
  - rewrite stack_size_app. rewrite stack_size_cons in Hfuel. lia.
Qed.

Lemma equals_loop_same (tol : Tol) (fuel : nat) (stack : list Node) :
  (forall f, not_null f = true -> factor_equals f f tol = true) ->
  Forall (fun nd => Node_complete nd = true) stack ->
  stack_size stack <= fuel ->
  equals_loop fuel stack stack tol = Ok true.
Proof.
  intros Hrefl. revert stack. induction fuel as [|fuel IH];
    intros [|node rest] Hc Hfuel; simpl; try done.
  { rewrite stack_size_cons in Hfuel. destruct node. simpl in Hfuel. lia. }
  apply Forall_cons in Hc as [Hn Hc].
  rewrite compare_nodes_same by done.
  destruct (pushed_children node rest Hn) as (p & -> & Hp & Hs).
  apply IH.
  - by apply Forall_app.
  - rewrite stack_size_app. rewrite stack_size_cons in Hfuel. lia.
Qed.

(** The stack a block starts from, for roots none of which is null. *)
Lemma pushed_roots (nds : list Node) :
  Forall (fun nd => Node_complete nd = true) nds ->
  Forall (fun nd => Node_complete nd = true) (rev (insert_nodes [] nds).*2 ++ []).
Proof.
  intros Hc. rewrite app_nil_r.
  assert ((insert_nodes [] nds).*2 ⊆+ nds) as Hsub.
  { etrans; [apply fmap_submseteq, insert_nodes_submseteq|]. simpl.
    rewrite <- list_fmap_compose. by rewrite list_fmap_id. }
  rewrite Forall_forall in Hc |- *. intros c Hin. apply Hc.
  rewrite <- Permutation_rev in Hin. exact (elem_of_submseteq _ _ _ Hin Hsub).
Qed.

(** X24. [equals] returns a boolean on two trees in which no node pointer
    is null: its loop ends, and it dereferences no null pointer. *)
Theorem equals_returns (this expected : EliminationTree (Factor:=Factor)) (tol : Tol) :
  forest_complete (roots_ this) -> forest_complete (roots_ expected) ->
  exists b, equals this expected tol = Ok b.
Proof.
  intros (nds1 & Hr1 & Hc1)%forest_complete_nodes
         (nds2 & Hr2 & Hc2)%forest_complete_nodes.
  unfold EliminationTreeEquals.equals. rewrite Hr1, Hr2, !push_sorted_nodes.
  apply equals_loop_returns; [by apply pushed_roots..|done].
Qed.

(** X25. [equals] on a tree one of whose roots is a null pointer
    dereferences it ([root->key]): undefined behaviour. *)
Theorem equals_null_root_undefined
    (this expected : EliminationTree (Factor:=Factor)) (tol : Tol) :
  None ∈ roots_ this \/ None ∈ roots_ expected ->
  equals this expected tol = Err undefined_behaviour.
Proof.
  intros Hnull. unfold EliminationTreeEquals.equals.
  destruct (nodes_cases (roots_ this)) as [H1|[nds1 Hr1]].
  { by rewrite push_sorted_null. }
  destruct Hnull as [H1|H2].
  { by rewrite push_sorted_null. }
  rewrite Hr1, push_sorted_nodes. by rewrite (push_sorted_null (roots_ expected)).
Qed.

(** X26. [equals] never looks at [remainingFactors_]: two trees with the
    same roots, none of them null, are equal for it whatever factors remain
    in each, provided a factor equals itself. *)
Theorem equals_same_roots (this expected : EliminationTree (Factor:=Factor)) (tol : Tol) :
  (forall f, not_null f = true -> factor_equals f f tol = true) ->
  forest_complete (roots_ this) -> roots_ expected = roots_ this ->
  equals this expected tol = Ok true.
Proof.
  intros Hrefl (nds & Hr & Hc)%forest_complete_nodes Hsame.
  unfold EliminationTreeEquals.equals. rewrite Hsame, Hr, !push_sorted_nodes.
  apply equals_loop_same; [done|by apply pushed_roots|done].
Qed.

(** The stack of a block does not depend on the order of the nodes, when
    their keys differ. *)
Lemma push_sorted_Permutation (nodes nodes' : list (option Node)) (stack : list Node) :
  nodes ≡ₚ nodes' -> NoDup ((fun c : option Node => key <$> c) <$> nodes) ->
  push_sorted nodes stack = push_sorted nodes' stack.
Proof.
  intros Hperm Hnd.
  destruct (nodes_cases nodes) as [Hnull|[nds ->]].
  { rewrite !push_sorted_null; [done| |done]. by rewrite <- Hperm. }
  destruct (nodes_cases nodes') as [Hnull|[nds' ->]].
  { rewrite <- Hperm in Hnull. apply list_elem_of_fmap in Hnull as (? & ? & _). done. }
  rewrite !push_sorted_nodes. do 4 f_equal.
  assert (nds ≡ₚ nds') as Hp.
  { apply (omap_Permutation id) in Hperm.
    assert (forall l : list Node, omap id (Some <$> l) = l) as Hid
      by (intros l; induction l; simpl; by f_equal).
    by rewrite !Hid in Hperm. }
  assert (NoDup (key <$> nds)) as Hnd1.
  { rewrite <- list_fmap_compose in Hnd.
    apply (NoDup_fmap_1 Some). by rewrite <- list_fmap_compose. }
  assert (NoDup (key <$> nds')) as Hnd2 by (by rewrite <- Hp).
  assert (AntiSymm eq by_key) as Hanti by (intros x y; simpl; lia).
  apply (StronglySorted_unique by_key).
  - by apply insert_nodes_sorted, SSorted_nil.
  - by apply insert_nodes_sorted, SSorted_nil.
  - rewrite !insert_nodes_NoDup by done. simpl. by rewrite Hp.
Qed.

(** X27. [equals] does not depend on the order in which either tree lists
    its roots, when the roots of a tree have different keys. *)
Theorem equals_ignores_root_order
    (this this' expected expected' : EliminationTree (Factor:=Factor)) (tol : Tol) :
  roots_ this ≡ₚ roots_ this' -> NoDup ((fun c : option Node => key <$> c) <$> roots_ this) ->
  roots_ expected ≡ₚ roots_ expected' -> NoDup ((fun c : option Node => key <$> c) <$> roots_ expected) ->
  equals this expected tol = equals this' expected' tol.
Proof.
  intros Hp1 Hn1 Hp2 Hn2. unfold EliminationTreeEquals.equals.
  by rewrite (push_sorted_Permutation _ _ [] Hp1 Hn1),
             (push_sorted_Permutation _ _ [] Hp2 Hn2).
Qed.

(** A node whose key an earlier node of the list has is not pushed. *)
Lemma push_sorted_repeated_key (nodes nodes' : list (option Node)) (nd0 nd : Node)
    (stack : list Node) :
  Some nd0 ∈ nodes -> key nd0 = key nd ->
  push_sorted (nodes ++ Some nd :: nodes') stack = push_sorted (nodes ++ nodes') stack.
Proof.
  intros Hin Hkey.
  destruct (nodes_cases nodes) as [Hnull|[nds ->]].
  { rewrite !push_sorted_null; [done|..]; apply elem_of_app; by left. }
  destruct (nodes_cases nodes') as [Hnull|[nds' ->]].
  { rewrite !push_sorted_null; [done|..]; apply elem_of_app; right; [done|].
    by apply list_elem_of_further. }
  change (Some nd :: (Some <$> nds')) with (Some <$> (nd :: nds')).
  rewrite <- !fmap_app, !push_sorted_nodes, !foldl_app. simpl.
  rewrite FastMap_insert_present; [done|by apply insert_nodes_sorted, SSorted_nil|].
  apply insert_nodes_keys. right. rewrite <- Hkey.
  apply list_elem_of_fmap in Hin as (nd1 & [= ->] & Hin).
  by apply list_elem_of_fmap_2.
Qed.

(** X28. Of the roots of a tree that have one key, [equals] compares the
    first only: a root whose key an earlier root has is left out, with all
    below it. *)
Theorem equals_skips_repeated_root_key
    (roots roots' : list (option Node)) (nd0 nd : Node)
    (remaining : list Factor) (expected : EliminationTree (Factor:=Factor)) (tol : Tol) :
  Some nd0 ∈ roots -> key nd0 = key nd ->
  equals (mkTree (roots ++ Some nd :: roots') remaining) expected tol =
  equals (mkTree (roots ++ roots') remaining) expected tol.
Proof.
  intros Hin Hkey. unfold EliminationTreeEquals.equals. simpl.
  by rewrite (push_sorted_repeated_key _ _ _ _ _ Hin Hkey).
Qed.

(** X29. [equals] does not tell every two shapes apart, as it walks the two
    forests with one stack each: a node [c] with the two leaves [a] and [b]
    as children and the node [c] whose only child [b] has the only child [a]
    are equal for it, when [a] has the smaller key. *)
Theorem equals_does_not_see_the_parent
    (a b c : nat) (fa fb fc remaining remaining' : list Factor) (tol : Tol) :
  (forall f, not_null f = true -> factor_equals f f tol = true) ->
  a < b ->
  equals
    (mkTree [Some (mkNode c fc [Some (mkNode a fa []); Some (mkNode b fb [])])]
            remaining)
    (mkTree [Some (mkNode c fc [Some (mkNode b fb [Some (mkNode a fa [])])])]
            remaining') tol = Ok true.
Proof.
  intros Hrefl Hab. unfold EliminationTreeEquals.equals, push_sorted. simpl.
  rewrite compare_nodes_same by done. unfold push_sorted. simpl.
  unfold bind, modify. simpl.
  rewrite decide_False, decide_False by lia. simpl.
  rewrite compare_nodes_same by done. unfold push_sorted. simpl.
  unfold bind, modify. simpl.
  by rewrite compare_nodes_same.
Qed.

(** *** Symmetry *)

Lemma Node_size_children (nd : Node) (cs : list Node) :
  children nd = Some <$> cs -> Node_size nd = S (stack_size cs).
Proof.
  destruct nd as [k fs cs0]. simpl. intros ->. f_equal. unfold stack_size.
  induction cs as [|c cs IH]; [done|].
  rewrite !fmap_cons. simpl. f_equal. exact IH.
Qed.

(** A block either meets a null pointer or pushes some of the nodes, each
    at most once. *)
Lemma push_sorted_cases (nodes : list (option Node)) (stack : list Node) :
  push_sorted nodes stack = Err undefined_behaviour \/
  exists (nds pushed : list Node),
    nodes = Some <$> nds /\ push_sorted nodes stack = Ok (pushed ++ stack) /\
    stack_size pushed <= stack_size nds.
Proof.
  destruct (nodes_cases nodes) as [Hnull|[nds ->]].
  { left. by apply push_sorted_null. }
  right. exists nds, (rev (insert_nodes [] nds).*2).
  split; [done|]. split; [apply push_sorted_nodes|].
  etrans; [apply stack_size_submseteq; by rewrite <- Permutation_rev|].
  apply stack_size_submseteq.
  etrans; [apply fmap_submseteq, insert_nodes_submseteq|]. simpl.
  rewrite <- list_fmap_compose. by rewrite list_fmap_id.
Qed.

Lemma factors_equal_sym (fs1 fs2 : list Factor) (tol : Tol) :
  (forall f g, factor_equals f g tol = factor_equals g f tol) ->
  length fs1 = length fs2 ->
  factors_equal fs1 fs2 tol = factors_equal fs2 fs1 tol.
Proof.
  intros Hsym. revert fs2.
  induction fs1 as [|f1 fs1 IH]; intros [|f2 fs2]; simpl; try done.
  intros [=Hlen]. rewrite (Hsym f2 f1), (IH _ Hlen).
  by destruct (not_null f1), (not_null f2).
Qed.

Lemma compare_nodes_sym (node1 node2 : Node) (tol : Tol) :
  (forall f g, factor_equals f g tol = factor_equals g f tol) ->
  compare_nodes node1 node2 tol = compare_nodes node2 node1 tol.
Proof.
  intros Hsym. unfold EliminationTreeEquals.compare_nodes.
  repeat case_bool_decide; try done; try (exfalso; lia).
  apply factors_equal_sym; [done|lia].
Qed.

(** The loop gives the same answer with the stacks exchanged, whatever
    fuel each run has, as long as it is enough. *)
Lemma equals_loop_sym (tol : Tol) (fuel fuel' : nat) (stack1 stack2 : list Node) :
  (forall f g, factor_equals f g tol = factor_equals g f tol) ->
  stack_size stack1 <= fuel -> stack_size stack2 <= fuel' ->
  equals_loop fuel stack1 stack2 tol = equals_loop fuel' stack2 stack1 tol.
Proof.
  intros Hsym. revert fuel' stack1 stack2.
  induction fuel as [|fuel IH];
    intros [|fuel'] [|node1 rest1] [|node2 rest2] H1 H2; simpl; try done;
    rewrite ?stack_size_cons in *;
    try (by destruct node1; simpl in *; lia);
    try (by destruct node2; simpl in *; lia).
  rewrite (compare_nodes_sym node2 node1) by done.
  destruct (compare_nodes node1 node2 tol) as [[|]|e]; try done.
  destruct (push_sorted_cases (children node1) rest1)
    as [->|(cs1 & p1 & Hc1 & -> & Hs1)];
    destruct (push_sorted_cases (children node2) rest2)
    as [->|(cs2 & p2 & Hc2 & -> & Hs2)]; try done.
  apply Node_size_children in Hc1, Hc2.
  apply IH; rewrite stack_size_app; lia.
Qed.

(** The fuel [equals] gives its loop is enough on every pair of trees: the
    loop of the model ends as the [while] loop of the code does. *)
Lemma equals_loop_fuel (tol : Tol) (fuel : nat) (stack1 stack2 : list Node) :
  stack_size stack1 <= fuel ->
  equals_loop fuel stack1 stack2 tol <> Err fuel_exhausted.
Proof.
  revert stack1 stack2. induction fuel as [|fuel IH];
    intros [|node1 rest1] [|node2 rest2] H1; simpl; try done;
    rewrite ?stack_size_cons in *;
    try (by destruct node1; simpl in *; lia).
  destruct (compare_nodes_returns node1 node2 tol) as [[|] ->]; [|done].
  destruct (push_sorted_cases (children node1) rest1)
    as [->|(cs1 & p1 & Hc1 & -> & Hs1)]; [done|].
  destruct (push_sorted_cases (children node2) rest2)
    as [->|(cs2 & p2 & Hc2 & -> & Hs2)]; [done|].
  apply Node_size_children in Hc1.
  apply IH. rewrite stack_size_app. lia.
Qed.

Lemma equals_never_out_of_fuel
    (this expected : EliminationTree (Factor:=Factor)) (tol : Tol) :
  equals this expected tol <> Err fuel_exhausted.
Proof.
  unfold EliminationTreeEquals.equals.
  destruct (push_sorted_cases (roots_ this) [])
    as [->|(nds1 & p1 & _ & -> & _)]; [done|].
  destruct (push_sorted_cases (roots_ expected) [])
    as [->|(nds2 & p2 & _ & -> & _)]; [done|].
  by apply equals_loop_fuel.
Qed.

(** X30. [equals] is symmetric when the comparison of two factors is:
    exchanging the two trees gives the same answer, or undefined behaviour
    in both cases. *)
Theorem equals_symmetric (this expected : EliminationTree (Factor:=Factor)) (tol : Tol) :
  (forall f g, factor_equals f g tol = factor_equals g f tol) ->
  equals this expected tol = equals expected this tol.
Proof.
  intros Hsym. unfold EliminationTreeEquals.equals.
  destruct (push_sorted_cases (roots_ this) [])
    as [->|(nds1 & p1 & _ & -> & _)];
    destruct (push_sorted_cases (roots_ expected) [])
    as [->|(nds2 & p2 & _ & -> & _)]; try done.
  by apply equals_loop_sym.
Qed.

End EqualsFacts.

(** The statements about [equals] on the trees of [Scenario]. *)
Lemma equals_returns_witness :
  EliminationTreeEquals.forest_complete (EliminationTree.roots_ Scenario.chain_tree) /\
  exists b, EliminationTreeEquals.equals Scenario.named Scenario.same_name
              Scenario.chain_tree Scenario.chain_tree tt = Ok b.
Proof.
  assert (EliminationTreeEquals.forest_complete
            (EliminationTree.roots_ Scenario.chain_tree)) as Hc
    by (constructor; [reflexivity|constructor]).
  split; [exact Hc|].
  exact (equals_returns Scenario.named Scenario.same_name
           Scenario.chain_tree Scenario.chain_tree tt Hc Hc).
Defined.

Lemma equals_null_root_undefined_witness :
  let this := EliminationTree.mkTree [Some Scenario.leaf1; None] ["f4"] in
  (None ∈ EliminationTree.roots_ this \/
   None ∈ EliminationTree.roots_ Scenario.chain_tree) /\
  EliminationTreeEquals.equals Scenario.named Scenario.same_name this
    Scenario.chain_tree tt = Err undefined_behaviour.
Proof.
  intros this.
  assert (None ∈ EliminationTree.roots_ this \/
          None ∈ EliminationTree.roots_ Scenario.chain_tree) as Hnull
    by (left; simpl; apply list_elem_of_further, list_elem_of_here).
  split; [exact Hnull|].
  exact (equals_null_root_undefined Scenario.named Scenario.same_name this
           Scenario.chain_tree tt Hnull).
Defined.

Lemma equals_same_roots_witness :
  let expected := EliminationTree.mkTree
                    (EliminationTree.roots_ Scenario.chain_tree) ["f5"; "f6"] in
  (forall f, Scenario.named f = true -> Scenario.same_name f f tt = true) /\
  EliminationTreeEquals.forest_complete (EliminationTree.roots_ Scenario.chain_tree) /\
  EliminationTree.roots_ expected = EliminationTree.roots_ Scenario.chain_tree /\
  EliminationTreeEquals.equals Scenario.named Scenario.same_name
    Scenario.chain_tree expected tt = Ok true.
Proof.
  intros expected.
  assert (forall f, Scenario.named f = true -> Scenario.same_name f f tt = true)
    as Hrefl by (intros f _; apply bool_decide_eq_true_2; reflexivity).
  assert (EliminationTreeEquals.forest_complete
            (EliminationTree.roots_ Scenario.chain_tree)) as Hc
    by (constructor; [reflexivity|constructor]).
  assert (EliminationTree.roots_ expected
          = EliminationTree.roots_ Scenario.chain_tree) as Hsame by reflexivity.
  split; [exact Hrefl|]. split; [exact Hc|]. split; [exact Hsame|].
  exact (equals_same_roots Scenario.named Scenario.same_name
           Scenario.chain_tree expected tt Hrefl Hc Hsame).
Defined.

Lemma equals_ignores_root_order_witness :
  let this := EliminationTree.mkTree [Some Scenario.leaf1; Some Scenario.leaf3] [] in
  let this' := EliminationTree.mkTree [Some Scenario.leaf3; Some Scenario.leaf1] [] in
  let keys := fun t : EliminationTree.EliminationTree (Factor:=string) =>
                (fun c : option (EliminationTree.Node (Factor:=string)) =>
                   EliminationTree.key <$> c) <$> EliminationTree.roots_ t in
  EliminationTree.roots_ this ≡ₚ EliminationTree.roots_ this' /\
  NoDup (keys this) /\
  EliminationTree.roots_ this' ≡ₚ EliminationTree.roots_ this /\
  NoDup (keys this') /\
  EliminationTreeEquals.equals Scenario.named Scenario.same_name this this' tt =
  EliminationTreeEquals.equals Scenario.named Scenario.same_name this' this tt.
Proof.
  intros this this' keys.
  assert (EliminationTree.roots_ this ≡ₚ EliminationTree.roots_ this') as Hp
    by apply Permutation_swap.
  assert (EliminationTree.roots_ this' ≡ₚ EliminationTree.roots_ this) as Hp'
    by apply Permutation_swap.
  assert (NoDup (keys this)) as Hn
    by (apply (bool_decide_unpack _); vm_compute; exact I).
  assert (NoDup (keys this')) as Hn'
    by (apply (bool_decide_unpack _); vm_compute; exact I).
  split; [exact Hp|]. split; [exact Hn|]. split; [exact Hp'|]. split; [exact Hn'|].
  exact (equals_ignores_root_order Scenario.named Scenario.same_name
           this this' this' this tt Hp Hn Hp' Hn').
Defined.

Lemma equals_skips_repeated_root_key_witness :
  let other := EliminationTree.mkNode 1 ["f23"] [Some Scenario.leaf3] in
  Some Scenario.leaf1 ∈ [Some Scenario.leaf1] /\
  EliminationTree.key Scenario.leaf1 = EliminationTree.key other /\
  EliminationTreeEquals.equals Scenario.named Scenario.same_name
    (EliminationTree.mkTree ([Some Scenario.leaf1] ++ Some other :: []) [])
    Scenario.chain_tree tt =
  EliminationTreeEquals.equals Scenario.named Scenario.same_name
    (EliminationTree.mkTree ([Some Scenario.leaf1] ++ []) [])
    Scenario.chain_tree tt.
Proof.
  intros other.
  assert (Some Scenario.leaf1 ∈ [Some Scenario.leaf1]) as Hin
    by apply list_elem_of_here.
  assert (EliminationTree.key Scenario.leaf1 = EliminationTree.key other) as Hkey
    by reflexivity.
  split; [exact Hin|]. split; [exact Hkey|].
  exact (equals_skips_repeated_root_key Scenario.named Scenario.same_name
           [Some Scenario.leaf1] [] Scenario.leaf1 other [] Scenario.chain_tree tt
           Hin Hkey).
Defined.

Lemma equals_does_not_see_the_parent_witness :
  (forall f, Scenario.named f = true -> Scenario.same_name f f tt = true) /\
  1 < 3 /\
  EliminationTreeEquals.equals Scenario.named Scenario.same_name
    (EliminationTree.mkTree
       [Some (EliminationTree.mkNode 2 []
                [Some (EliminationTree.mkNode 1 ["f12"] []);
                 Some (EliminationTree.mkNode 3 ["f23"] [])])] ["f4"])
    (EliminationTree.mkTree
       [Some (EliminationTree.mkNode 2 []
                [Some (EliminationTree.mkNode 3 ["f23"]
                         [Some (EliminationTree.mkNode 1 ["f12"] [])])])] [])
    tt = Ok true.
Proof.
  assert (forall f, Scenario.named f = true -> Scenario.same_name f f tt = true)
    as Hrefl by (intros f _; apply bool_decide_eq_true_2; reflexivity).
  assert (1 < 3) as Hlt by lia.
  split; [exact Hrefl|]. split; [exact Hlt|].
  exact (equals_does_not_see_the_parent Scenario.named Scenario.same_name
           1 3 2 ["f12"] ["f23"] [] ["f4"] [] tt Hrefl Hlt).
Defined.

Lemma equals_symmetric_witness :
  let other := EliminationTree.mkTree [Some Scenario.leaf1; Some Scenario.leaf3] [] in
  (forall f g, Scenario.same_name f g tt = Scenario.same_name g f tt) /\
  EliminationTreeEquals.equals Scenario.named Scenario.same_name
    Scenario.chain_tree other tt =
  EliminationTreeEquals.equals Scenario.named Scenario.same_name
    other Scenario.chain_tree tt.
Proof.
  intros other.
  assert (forall f g, Scenario.same_name f g tt = Scenario.same_name g f tt) as Hsym
    by (intros f g; unfold Scenario.same_name; apply bool_decide_ext; split; congruence).
  split; [exact Hsym|].
  exact (equals_symmetric Scenario.named Scenario.same_name
           Scenario.chain_tree other tt Hsym).
Defined.
